(** * MLM decoding: ranked enumeration of frame samples and the beam loops

    A shallow embedding of [decode.py] (functions [get_log_prob],
    [enumerate_samples] and the candidate gathering of [decode]) and of
    [blending_model/optim/create_blending_data.py] (the frame loop of
    [get_weight_data], its collection of training points and
    [add_noise_to_input_data]).

    Numbers.  The programs compute with NumPy float64.  Here a float is an
    exact real number or one of the IEEE special values: finite arithmetic is
    exact (no rounding), while the infinities and NaN behave as IEEE 754
    prescribes ([log 0 = -inf], [x / 0 = +-inf], [inf - inf = nan], every
    comparison with NaN is false).  Inputs (probabilities, weights) are finite
    reals. *)

From Stdlib Require Import Reals Lra Lia List Arith Bool Permutation Sorted.
From Stdlib Require String.
Import ListNotations.

(* ================================================================= *)
(** ** Python results *)

Inductive exn : Type := ValueError | IndexError | NameError.

Inductive result (A : Type) : Type :=
| Ok (a : A)
| Err (e : exn).

Arguments Ok {A} a.
Arguments Err {A} e.

Definition bind {A B : Type} (r : result A) (k : A -> result B) : result B :=
  match r with
  | Ok a => k a
  | Err e => Err e
  end.

Notation "x <- r ;; k" := (bind r (fun x => k))
  (at level 61, r at next level, right associativity).

(* ================================================================= *)
(** ** NumPy values and arrays *)

Module NumPy.

Open Scope R_scope.

(** A float64 value: a finite real, an infinity, or NaN. *)
Inductive npfloat : Type :=
| Fin (r : R)
| PInf
| NInf
| NaN.

Definition Rltb (a b : R) : bool := if Rlt_dec a b then true else false.
Definition Reqb (a b : R) : bool := if Req_dec_T a b then true else false.

Definition isnan (x : npfloat) : bool :=
  match x with NaN => true | _ => false end.

Definition isfinite (x : npfloat) : bool :=
  match x with Fin _ => true | _ => false end.

Definition fneg (x : npfloat) : npfloat :=
  match x with
  | Fin r => Fin (- r)
  | PInf => NInf
  | NInf => PInf
  | NaN => NaN
  end.

Definition fadd (x y : npfloat) : npfloat :=
  match x, y with
  | NaN, _ | _, NaN => NaN
  | Fin a, Fin b => Fin (a + b)
  | PInf, NInf | NInf, PInf => NaN
  | PInf, _ | _, PInf => PInf
  | NInf, _ | _, NInf => NInf
  end.

Definition fsub (x y : npfloat) : npfloat := fadd x (fneg y).

Definition fabs (x : npfloat) : npfloat :=
  match x with
  | Fin r => Fin (Rabs r)
  | PInf | NInf => PInf
  | NaN => NaN
  end.

(** [a / b] on finite floats; a zero divisor is the positive zero (the
    divisors of the programs are sums of products of non-negative numbers). *)
Definition fdiv (a b : R) : npfloat :=
  if Reqb b 0 then
    if Rltb 0 a then PInf else if Rltb a 0 then NInf else NaN
  else Fin (a / b).

(** [np.log] on a finite float. *)
Definition flogR (x : R) : npfloat :=
  if Rltb 0 x then Fin (ln x) else if Reqb x 0 then NInf else NaN.

(** [np.log]. *)
Definition flog (x : npfloat) : npfloat :=
  match x with
  | Fin r => flogR r
  | PInf => PInf
  | NInf | NaN => NaN
  end.

(** [np.exp]. *)
Definition fexp (x : npfloat) : npfloat :=
  match x with
  | Fin r => Fin (exp r)
  | PInf => PInf
  | NInf => Fin 0
  | NaN => NaN
  end.

(** [x < y] and [x == y] on floats. *)
Definition flt (x y : npfloat) : bool :=
  match x, y with
  | NaN, _ | _, NaN => false
  | Fin a, Fin b => Rltb a b
  | NInf, NInf => false
  | NInf, _ => true
  | _, NInf => false
  | PInf, _ => false
  | Fin _, PInf => true
  end.

Definition feq (x y : npfloat) : bool :=
  match x, y with
  | Fin a, Fin b => Reqb a b
  | PInf, PInf | NInf, NInf => true
  | _, _ => false
  end.

(** [x <= y] on floats, as a proposition (false when either is NaN). *)
Definition fle (x y : npfloat) : Prop :=
  match x, y with
  | NaN, _ | _, NaN => False
  | Fin a, Fin b => a <= b
  | NInf, _ => True
  | _, PInf => True
  | _, _ => False
  end.

(** [np.sum] of a one-dimensional array. *)
Definition np_sum (l : list npfloat) : npfloat := fold_right fadd (Fin 0) l.

(** Element-wise binary operation with NumPy broadcasting of one-dimensional
    operands: equal lengths combine point-wise, an operand of length one is
    stretched, any other pair of lengths raises [ValueError] (operands could
    not be broadcast together). *)
Definition map2 {A B C : Type} (f : A -> B -> C) (a : list A) (b : list B)
  : list C :=
  map (fun ab => f (fst ab) (snd ab)) (combine a b).

Definition broadcast2 {A B C : Type} (f : A -> B -> C)
    (a : list A) (b : list B) : result (list C) :=
  if length a =? length b then Ok (map2 f a b)
  else
    match a, b with
    | [x], _ => Ok (map (f x) b)
    | _, [y] => Ok (map (fun x => f x y) a)
    | _, _ => Err ValueError
    end.

(** [np.where(c)[0]]: the increasing list of the positions that hold. *)
Fixpoint where_from (i : nat) (c : list bool) : list nat :=
  match c with
  | [] => []
  | b :: c' => if b then i :: where_from (S i) c' else where_from (S i) c'
  end.

Definition np_where (c : list bool) : list nat := where_from 0 c.

(** The order NumPy sorts floats by: NaN goes last. *)
Definition sort_lt (x y : npfloat) : bool :=
  flt x y || (isnan y && negb (isnan x)).

(** [a[i]] on a float array, for an index known to be in range. *)
Definition at_ (a : list npfloat) (i : nat) : npfloat := nth i a NaN.

(** [L.argsort()]: the indices of [L] in ascending order of their entries.
    Equal entries keep their index order, as NumPy's default sort has it on
    short arrays (which it sorts by insertion); on long arrays NumPy leaves
    the order of equal entries open, and the general results below use only
    that the indices come as a permutation in ascending order of the
    entries. *)
Fixpoint insert_idx (L : list npfloat) (j : nat) (s : list nat) : list nat :=
  match s with
  | [] => [j]
  | k :: s' =>
      if sort_lt (at_ L k) (at_ L j) then k :: insert_idx L j s' else j :: s
  end.

Definition argsort (L : list npfloat) : list nat :=
  fold_right (insert_idx L) [] (seq 0 (length L)).

(** [a[idx]] with an index array: [IndexError] when an index is out of
    bounds. *)
Fixpoint take {A : Type} (a : list A) (idx : list nat) : result (list A) :=
  match idx with
  | [] => Ok []
  | j :: idx' =>
      match nth_error a j with
      | Some x => r <- take a idx' ;; Ok (x :: r)
      | None => Err IndexError
      end
  end.

(** [np.max] of an index array. *)
Definition np_max (v : list nat) : nat := fold_right Nat.max 0%nat v.

Definition mem (x : nat) (l : list nat) : bool := existsb (Nat.eqb x) l.

(** [np.unique]: the sorted distinct entries. *)
Fixpoint insert_u (x : nat) (s : list nat) : list nat :=
  match s with
  | [] => [x]
  | y :: s' =>
      if x <? y then x :: s
      else if x =? y then s
      else y :: insert_u x s'
  end.

Definition np_unique (l : list nat) : list nat := fold_right insert_u [] l.

(** [np.setxor1d a b]: the sorted distinct values that are in exactly one of
    the two arrays. *)
Definition setxor1d (a b : list nat) : list nat :=
  filter (fun x => xorb (mem x a) (mem x b)) (np_unique (a ++ b)).

(** [b = np.zeros(P); b[sample] = 1], the vector kept as booleans
    ([true] for an entry equal to 1); an index beyond [P] raises. *)
Definition binarize (P : nat) (sample : list nat) : result (list bool) :=
  if forallb (fun i => i <? P) sample
  then Ok (map (fun i => mem i sample) (seq 0 P))
  else Err IndexError.

End NumPy.

(* ================================================================= *)
(** ** decode.py: scoring and ranked enumeration *)

Module Decode.

Import NumPy.
Open Scope R_scope.

(** [weight[0] * acoustic + weight[1] * language]. *)
Definition mix_p (weight : R * R) (acoustic language : list R)
  : result (list R) :=
  broadcast2 Rplus (map (Rmult (fst weight)) acoustic)
                   (map (Rmult (snd weight)) language).

(** [weight[0] * (1 - acoustic) + weight[1] * (1 - language)]. *)
Definition mix_not_p (weight : R * R) (acoustic language : list R)
  : result (list R) :=
  broadcast2 Rplus (map (fun a => fst weight * (1 - a)) acoustic)
                   (map (fun l => snd weight * (1 - l)) language).

(** [get_log_prob(sample, acoustic, language, weight)].  [np.squeeze] leaves
    the shape of a vector with two or more entries alone and turns a
    one-entry vector into a scalar, which broadcasts like the one-entry
    vector. *)
Definition get_log_prob (sample : list bool) (acoustic language : list R)
    (weight : R * R) : result npfloat :=
  p <- mix_p weight acoustic language ;;
  not_p <- mix_not_p weight acoustic language ;;
  w <- broadcast2 (fun (s : bool) (xy : npfloat * npfloat) =>
                     if s then fst xy else snd xy)
         sample (combine (map flogR p) (map flogR not_p)) ;;
  Ok (np_sum w).

(** How a generator stands after its consumer took some elements. *)
Inductive outcome : Type :=
| Suspended           (* stopped at a [yield]; more may follow *)
| Exhausted           (* ran to its end *)
| Raised (e : exn).   (* an exception left the generator *)

(** An entry of the priority queue: [(l, num, v)]. *)
Definition entry : Type := (npfloat * nat * list nat)%type.

(** Python's [<] on the tuples in the queue: the first components decide
    unless they are equal ([==]), then the counters do.  The counters are
    pairwise distinct, so the arrays are never compared. *)
Definition entry_lt (x y : entry) : bool :=
  let '(l1, n1, _) := x in
  let '(l2, n2, _) := y in
  if feq l1 l2 then (n1 <? n2)%nat else flt l1 l2.

(** [queue.PriorityQueue]: [put] stores an entry and [get] removes the least
    one.  The queue is kept as the list of its entries in insertion order and
    [get] scans it for the least entry; with keys that are totally ordered
    (no NaN) and distinct counters the least entry is unique, so this is the
    entry the binary heap of the library returns. *)
Definition q_put (x : entry) (q : list entry) : list entry := q ++ [x].

Fixpoint get_min (best : entry) (rest : list entry) : entry * list entry :=
  match rest with
  | [] => (best, [])
  | x :: r =>
      if entry_lt x best
      then let '(m, r') := get_min x r in (m, best :: r')
      else let '(m, r') := get_min best r in (m, x :: r')
  end.

Definition q_get (q : list entry) : option (entry * list entry) :=
  match q with
  | [] => None
  | x :: r => Some (get_min x r)
  end.

(** The [while not q.empty()] loop of [enumerate_samples], run until the
    consumer has taken [k] more elements. *)
Fixpoint loop (l_0 : npfloat) (v_0 R : list nat) (L_sorted : list npfloat)
    (k : nat) (q : list entry) (num : nat)
  : list (npfloat * list nat) * outcome :=
  match k with
  | O => ([], Suspended)
  | S k' =>
      match q_get q with
      | None => ([], Exhausted)
      | Some ((l, _, v), q1) =>
          match take R v with
          | Err e => ([], Raised e)
          | Ok Rv =>
              let y := (fsub l_0 l, setxor1d v_0 Rv) in
              let i := np_max v in
              let '(q2, num2) :=
                if (i + 1 <? length L_sorted)%nat then
                  (q_put (fsub (fadd l (at_ L_sorted (i + 1))) (at_ L_sorted i),
                          (num + 1)%nat,
                          setxor1d (v ++ [(i + 1)%nat]) [i])
                     (q_put (fadd l (at_ L_sorted (i + 1)), num,
                             v ++ [(i + 1)%nat]) q1),
                   (num + 2)%nat)
                else (q1, num) in
              let '(ys, o) := loop l_0 v_0 R L_sorted k' q2 num2 in
              (y :: ys, o)
          end
      end
  end.

(** [itertools.islice(enumerate_samples(acoustic, language, weight), n)]:
    the elements the generator yields while the consumer takes up to [n] of
    them, and how the generator stands then.  Nothing of the body runs before
    the first element is asked for. *)
Definition enumerate_samples (acoustic language : list R) (weight : R * R)
    (n : nat) : list (npfloat * list nat) * outcome :=
  match n with
  | O => ([], Suspended)
  | S n1 =>
      match mix_p weight acoustic language,
            mix_not_p weight acoustic language with
      | Ok p, Ok not_p =>
          let v_0 := np_where (map2 (fun a b => Rltb b a) p not_p) in
          let l_0 := np_sum (map2 (fun a b => flogR (Rmax a b)) p not_p) in
          match n1 with
          | O => ([(l_0, v_0)], Suspended)
          | S _ =>
              let L := map2 (fun a b => fabs (flog (fdiv a b))) p not_p in
              let R := argsort L in
              (* a one-entry [p] was squeezed to a scalar, which the index
                 array [R] cannot index *)
              if (length p =? 1)%nat then ([(l_0, v_0)], Raised IndexError)
              else
                match take L R with
                | Err e => ([(l_0, v_0)], Raised e)
                | Ok L_sorted =>
                    match L_sorted with
                    | [] => ([(l_0, v_0)], Raised IndexError)
                    | L0 :: _ =>
                        let '(ys, o) :=
                          loop l_0 v_0 R L_sorted n1 [(L0, 0%nat, [0%nat])] 1
                        in ((l_0, v_0) :: ys, o)
                    end
                end
          end
      | Err e, _ | _, Err e => ([], Raised e)
      end
  end.

End Decode.

(* ================================================================= *)
(** ** Hypotheses and the beam *)

Module Beam.

Import NumPy.
Open Scope R_scope.

Section WithHandle.

(** The recurrent state of the language model is an opaque handle. *)
Variable H : Type.

(** Modelled from the spec: [state.py] is not part of the sources.  A
    hypothesis holds its accumulated log-probability, the samples accepted so
    far (oldest first), the handle of the model and the prior the model gave
    for the next frame (section 3, BeamState). *)
Record State : Type := mkState {
  log_prob : npfloat;
  sample_history : list (list bool);
  hidden_state : H;
  prior : list R
}.

(** Modelled from the spec: [State.transition] is not part of the sources.
    A successor extends the history by the sample, adds the log-probability
    and adopts the new handle and prior; the receiver is left as it is
    (section 4.2). *)
Definition transition (s : State) (sample : list bool) (lp : npfloat)
    (h : H) (pr : list R) : State :=
  mkState (fadd (log_prob s) lp) (sample_history s ++ [sample]) h pr.

(** The two-argument call of [create_blending_data.py]: handle and prior are
    refreshed later, by [run_lstm]. *)
Definition transition2 (s : State) (sample : list bool) (lp : npfloat)
  : State :=
  transition s sample lp (hidden_state s) (prior s).

(** Modelled from the spec: [get_piano_roll] is not part of the sources; it
    is the read-only projection of the history (section 4.2), here frame by
    frame. *)
Definition get_piano_roll (s : State) : list (list bool) := sample_history s.

(** The hash key: the last [h] samples of the history (section 3). *)
Definition hash_key (h : nat) (s : State) : list (list bool) :=
  skipn (length (sample_history s) - h) (sample_history s).

Definition key_eqb (a b : list (list bool)) : bool :=
  if list_eq_dec (list_eq_dec bool_dec) a b then true else false.

(** Keep, of the hypotheses with the key of [s], the one with the highest
    log-probability (the earlier one on a tie). *)
Fixpoint merge_into (h : nat) (s : State) (acc : list State) : list State :=
  match acc with
  | [] => [s]
  | t :: acc' =>
      if key_eqb (hash_key h s) (hash_key h t)
      then (if flt (log_prob t) (log_prob s) then s :: acc' else t :: acc')
      else t :: merge_into h s acc'
  end.

Definition merge (h : nat) (beam : list State) : list State :=
  fold_left (fun acc s => merge_into h s acc) beam [].

(** Descending order of log-probability, stable. *)
Fixpoint insert_desc (s : State) (l : list State) : list State :=
  match l with
  | [] => [s]
  | t :: l' =>
      if flt (log_prob t) (log_prob s) then s :: l else t :: insert_desc s l'
  end.

Definition sort_desc (beam : list State) : list State :=
  fold_right insert_desc [] beam.

(** Modelled from the spec: [beam.py] is not part of the sources.
    [cut_to_size(beam_size, hash_length)]: when a hash length is given, merge
    the hypotheses that share a hash key; sort by log-probability, highest
    first; keep the first [beam_size] (section 4.3, prune_and_merge). *)
Definition cut_to_size (beam_size : nat) (hash_length : option nat)
    (beam : list State) : list State :=
  let merged := match hash_length with
                | Some h => merge h beam
                | None => beam
                end in
  firstn beam_size (sort_desc merged).

(** [get_top_state]: the hypothesis with the highest log-probability. *)
Definition get_top_state (beam : list State) : option State :=
  hd_error (sort_desc beam).

End WithHandle.

Arguments mkState {H}.
Arguments log_prob {H}.
Arguments sample_history {H}.
Arguments hidden_state {H}.
Arguments prior {H}.
Arguments transition {H}.
Arguments transition2 {H}.
Arguments get_piano_roll {H}.
Arguments hash_key {H}.
Arguments merge_into {H}.
Arguments merge {H}.
Arguments insert_desc {H}.
Arguments sort_desc {H}.
Arguments cut_to_size {H}.
Arguments get_top_state {H}.

End Beam.

(* ================================================================= *)
(** ** decode.py: the frame loop of [decode] *)

(** The two values of [sampling_method]. *)
Module Method.
Import String.
Local Open Scope string_scope.
Definition union : string := "union".
Definition joint : string := "joint".
End Method.

Module DecodeLoop.

Import NumPy Decode Beam.
Open Scope R_scope.

(** Lines 56-57: [if sampling_method == "union": branch_factor =
    int(branch_factor / 2)], on a branch factor that is a count. *)
Definition is_union (sampling_method : String.string) : bool :=
  String.eqb sampling_method Method.union.

Definition effective_branch_factor (sampling_method : String.string)
    (branch_factor : nat) : nat :=
  if is_union sampling_method then (branch_factor / 2)%nat else branch_factor.

(** [bool(a)] of a NumPy array: only an array of one entry has a truth value
    (an empty one counts as false); for any other the truth value is
    ambiguous and [ValueError] is raised. *)
Definition array_truth (c : list bool) : result bool :=
  match c with
  | [] => Ok false
  | [b] => Ok b
  | _ => Err ValueError
  end.

(** [x in l] for a list [l] of arrays and an array [x] that is none of the
    objects in [l]: each [x == u] is the array of the entry-wise comparisons,
    and its truth value is asked for. *)
Fixpoint py_in (x : list bool) (l : list (list bool)) : result bool :=
  match l with
  | [] => Ok false
  | u :: l' =>
      c <- broadcast2 Bool.eqb x u ;;
      t <- array_truth c ;;
      if t then Ok true else py_in x l'
  end.

(** A [for] loop over [itertools.islice(gen, n)]: the body runs on each
    element as it is yielded; an exception of the generator surfaces after
    the elements before it were processed. *)
Definition for_islice {X A : Type} (gen : list X * outcome)
    (body : A -> X -> result A) (init : A) : result A :=
  r <- fold_left (fun acc x => a <- acc ;; body a x) (fst gen) (Ok init) ;;
  match snd gen with
  | Raised e => Err e
  | _ => Ok r
  end.

Section WithHandle.

Variable H : Type.

(** A candidate: the parent hypothesis, the binary sample, its score. *)
Definition candidate : Type := (State H * list bool * npfloat)%type.

(** Lines 82-85 and 97-99: one candidate per hypothesis of the beam. *)
Definition add_for_state (weight : R * R) (frame : list R)
    (binary_sample : list bool) (cands : list candidate) (state : State H)
  : result (list candidate) :=
  lp <- get_log_prob binary_sample frame (prior state) weight ;;
  Ok (cands ++ [(state, binary_sample, lp)]).

Definition add_for_beam (weight : R * R) (frame : list R)
    (binary_sample : list bool) (beam : list (State H))
    (cands : list candidate) : result (list candidate) :=
  fold_left (fun acc state => c <- acc ;;
                              add_for_state weight frame binary_sample c state)
            beam (Ok cands).

(** Lines 75-85: the body of the loop over the shared samples.  The
    accumulator is the pair of [unique_samples] and the candidates. *)
Definition shared_body (union : bool) (weight : R * R) (frame : list R)
    (beam : list (State H)) (acc : list (list bool) * list candidate)
    (y : npfloat * list nat) : result (list (list bool) * list candidate) :=
  let '(unique_samples, cands) := acc in
  binary_sample <- binarize 88 (snd y) ;;
  let unique_samples' :=
    if union then unique_samples ++ [binary_sample] else unique_samples in
  cands' <- add_for_beam weight frame binary_sample beam cands ;;
  Ok (unique_samples', cands').

(** Lines 72-85: the samples shared by all hypotheses. *)
Definition shared_block (union : bool) (weight : R * R) (branch_factor : nat)
    (frame : list R) (beam : list (State H))
  : result (list (list bool) * list candidate) :=
  match beam with
  | [] => Err IndexError          (* beam.beam[0] *)
  | first :: _ =>
      for_islice
        (enumerate_samples frame (prior first) (1, 0) branch_factor)
        (shared_body union weight frame beam)
        ([], [])
  end.

(** Lines 92-99: the body of the loop over the samples of one hypothesis. *)
Definition own_body (union : bool) (weight : R * R) (frame : list R)
    (unique_samples : list (list bool)) (state : State H)
    (cands : list candidate) (y : npfloat * list nat)
  : result (list candidate) :=
  binary_sample <- binarize 88 (snd y) ;;
  overlap <- (if union then py_in binary_sample unique_samples
              else Ok false) ;;
  if overlap then Ok cands
  else add_for_state weight frame binary_sample cands state.

(** Lines 87-99: the samples of each hypothesis. *)
Definition own_block (union : bool) (weight : R * R) (branch_factor : nat)
    (frame : list R) (beam : list (State H))
    (unique_samples : list (list bool)) (cands : list candidate)
  : result (list candidate) :=
  fold_left
    (fun acc state =>
       c <- acc ;;
       for_islice
         (enumerate_samples frame (prior state)
            (if union then (0, 1) else weight) branch_factor)
         (own_body union weight frame unique_samples state)
         c)
    beam (Ok cands).

(** Lines 63-99: the candidates of one frame.  [sampling_method is "union"]
    is taken as equality of the strings. *)
Definition gather (sampling_method : String.string) (weight : R * R)
    (branch_factor : nat) (frame : list R) (beam : list (State H))
  : result (list candidate) :=
  let union := is_union sampling_method in
  shared <- (if union || Reqb (fst weight) 1
             then shared_block union weight branch_factor frame beam
             else Ok ([], [])) ;;
  if union || negb (Reqb (fst weight) 1)
  then own_block union weight branch_factor frame beam (fst shared) (snd shared)
  else Ok (snd shared).

(** The external language model: one batched step. *)
Variable run_one_step :
  list H -> list (list bool) -> list H * list (list R).

(** Lines 107-109: [zip] stops at the shortest of its arguments. *)
Fixpoint successors (hidden_states : list H) (priors : list (list R))
    (cands : list candidate) : list (State H) :=
  match hidden_states, priors, cands with
  | h :: hs, pr :: prs, (state, sample, lp) :: cs =>
      transition state sample lp h pr :: successors hs prs cs
  | _, _, _ => []
  end.

(** Lines 107-111: the successor beam and its pruning; [decode] passes no
    hash length. *)
Definition prune (beam_size : nat) (new_beam : list (State H))
  : list (State H) :=
  cut_to_size beam_size None new_beam.

(** Lines 63-111: one frame. *)
Definition decode_frame (sampling_method : String.string) (weight : R * R)
    (branch_factor beam_size : nat) (beam : list (State H)) (frame : list R)
  : result (list (State H)) :=
  cands <- gather sampling_method weight branch_factor frame beam ;;
  let '(hidden_states, priors) :=
    run_one_step (map (fun c => hidden_state (fst (fst c))) cands)
                 (map (fun c => snd (fst c)) cands) in
  Ok (prune beam_size (successors hidden_states priors cands)).

(** [decode] up to the final beam; [acoustic] is given frame by frame and
    [initial] is the state [add_initial_state] puts into the beam. *)
Definition decode (acoustic : list (list R)) (initial : State H)
    (branch_factor beam_size : nat) (sampling_method : String.string)
    (weight : R * R) : result (list (State H)) :=
  let branch_factor := effective_branch_factor sampling_method branch_factor in
  fold_left
    (fun acc frame =>
       beam <- acc ;;
       decode_frame sampling_method weight branch_factor beam_size beam frame)
    acoustic (Ok [initial]).

End WithHandle.

End DecodeLoop.

(* ================================================================= *)
(** ** create_blending_data.py: the frame loop of [get_weight_data] *)

Module Blending.

Import NumPy Decode Beam.
Open Scope R_scope.

Section WithModel.

Variable H : Type.

(** Modelled from the spec: [decode.run_lstm] is not part of the sources.
    The scorer answers, hypothesis by hypothesis, with a new handle and the
    prior for the next frame (sections 4.4 step 2 and 6); history and score
    stay. *)
Variable score : H -> list (list bool) -> H * list R.

Definition run_lstm (beam : list (State H)) : list (State H) :=
  map (fun s =>
         let '(h, pr) := score (hidden_state s) (sample_history s) in
         mkState (log_prob s) (sample_history s) h pr)
      beam.

(** [sampling.enumerate_samples] and the formatting of its samples
    ([sampling.binarize], [sampling.trinarize_with_onsets]) are not part of
    the sources: the first [n] elements it yields for a combined prior, and
    the vector a sample is turned into, are parameters. *)
Variable sampling_enumerate : list R -> nat -> list (npfloat * list nat).
Variable format_sample : list nat -> nat -> list bool.

Fixpoint last_opt {A : Type} (l : list A) : option A :=
  match l with
  | [] => None
  | [x] => Some x
  | _ :: l' => last_opt l'
  end.

(** The loop carries the beam and the Python variable [state], which keeps
    its last binding after a [for] loop. *)
Record vars : Type := mkVars {
  beam : list (State H);
  state : option (State H)
}.

(** Lines 245-265: the transitions of the ranked search. *)
Definition ranked (weight : R * R) (branch_factor P : nat) (frame : list R)
    (b : list (State H)) (v : option (State H))
  : result (list (State H) * option (State H)) :=
  fold_left
    (fun acc s =>
       a <- acc ;;
       pr <- mix_p weight frame (prior s) ;;
       (* update_from_weight_model *)
       let s' := mkState (log_prob s) (sample_history s) (hidden_state s) pr in
       Ok (fst a ++ map (fun y => transition2 s' (format_sample (snd y) P)
                                              (fst y))
                        (sampling_enumerate pr branch_factor),
           Some s'))
    b (Ok ([], v)).

(** Lines 199-265: the successors of one frame, not yet pruned, and the
    binding of [state] after them.  The collection of the training points
    (lines 207-236) reads the beam and the frame and changes neither; of it
    only the binding of [state] by [for state in beam] is kept. *)
Definition transitions (branch_factor : nat) (gt_only : bool)
    (weight : R * R) (P : nat) (frame_num : nat) (gt_frame : list bool)
    (frame : list R) (vs : vars)
  : result (list (State H) * option (State H)) :=
  let b := if (frame_num =? 0)%nat then beam vs else run_lstm (beam vs) in
  let v := match last_opt b with
           | Some s => Some s
           | None => state vs
           end in
  if gt_only then
    match v with
    | None => Err NameError
    | Some s => Ok ([transition2 s gt_frame (Fin 0)], v)
    end
  else ranked weight branch_factor P frame b v.

(** Lines 195-268: one frame; line 267 prunes with
    [min(hash_length, frame_num + 1)]. *)
Definition frame_step (branch_factor beam_size hash_length : nat)
    (gt_only : bool) (weight : R * R) (P : nat) (frame_num : nat)
    (gt_frame : list bool) (frame : list R) (vs : vars) : result vars :=
  r <- transitions branch_factor gt_only weight P frame_num gt_frame frame vs ;;
  Ok (mkVars (cut_to_size beam_size
                (Some (Nat.min hash_length (frame_num + 1))) (fst r))
             (snd r)).

(** Line 195: [for frame_num, (gt_frame, frame) in enumerate(zip(gt,
    acoustic))], both given frame by frame. *)
Fixpoint frames (branch_factor beam_size hash_length : nat) (gt_only : bool)
    (weight : R * R) (P : nat) (frame_num : nat) (gt : list (list bool))
    (acoustic : list (list R)) (vs : vars) : result vars :=
  match gt, acoustic with
  | gt_frame :: gt', frame :: acoustic' =>
      vs' <- frame_step branch_factor beam_size hash_length gt_only weight P
               frame_num gt_frame frame vs ;;
      frames branch_factor beam_size hash_length gt_only weight P
             (S frame_num) gt' acoustic' vs'
  | _, _ => Ok vs
  end.

(** [get_weight_data] up to the final beam; [initial] is the state
    [add_initial_state] puts into the beam. *)
Definition get_weight_data (gt : list (list bool)) (acoustic : list (list R))
    (initial : State H) (branch_factor beam_size : nat) (weight : R * R)
    (hash_length : nat) (gt_only : bool) (P : nat) : result vars :=
  frames branch_factor beam_size hash_length gt_only weight P 0 gt acoustic
         (mkVars [initial] None).

End WithModel.

Arguments mkVars {H}.
Arguments beam {H}.
Arguments state {H}.

End Blending.

(* ================================================================= *)
(** ** create_blending_data.py: noise on the acoustic input *)

Module Noise.

Import NumPy.
Open Scope R_scope.

(** [np.clip(x, lo, hi)], that is [minimum(maximum(x, lo), hi)]. *)
Definition clip (lo hi x : R) : R := Rmin (Rmax x lo) hi.

(** The shape [(P, T)] of a two-dimensional array, given row by row. *)
Definition shape (a : list (list R)) : nat * nat :=
  (length a, match a with [] => 0%nat | row :: _ => length row end).

(** [np.transpose(a)[t]]: the frame [t] of a [(P, T)] array. *)
Definition column (t : nat) (a : list (list R)) : list R :=
  map (fun row => nth t row 0) a.

Section WithGenerator.

(** What [np.random.randn(P, T)] and [np.random.rand(P, T)] return, row by
    row. *)
Variables randn rand : nat -> nat -> list (list R).

(** [add_noise_to_input_data(input_data, noise, noise_gauss)], lines 51-57;
    [noise = None] is [None] here. *)
Definition add_noise_to_input_data (input_data : list (list R))
    (noise : option R) (noise_gauss : bool) : list (list R) :=
  match noise with
  | None => input_data
  | Some noise =>
      let noise_func := if noise_gauss then randn else rand in
      let '(P, T) := shape input_data in
      let noise := map (map (fun u => Rabs (noise * u))) (noise_func P T) in
      map2 (map2 (fun x n => clip (1/1000) (999/1000)
                               (if Rltb (1/2) x then x - n else x + n)))
           input_data noise
  end.

End WithGenerator.

End Noise.
(* ================================================================= *)
(** ** create_blending_data.py: the training points of a frame *)

Module Collect.

Import NumPy Beam.
Open Scope R_scope.

(** [np.isclose(a, b, rtol=0.0, atol=atol)] on finite floats:
    [|a - b| <= atol]. *)
Definition isclose (atol a b : R) : bool := negb (Rltb atol (Rabs (a - b))).

(** Lines 208-209, without onsets: the pitches at which the prior of the
    hypothesis and the frame are not close, or all [P] pitches when
    [min_diff] is not positive.  The vectors have two entries or more
    ([np.squeeze] leaves them as they are). *)
Definition differing (min_diff : R) (P : nat) (state_prior frame : list R)
  : result (list nat) :=
  if Rltb 0 min_diff then
    c <- broadcast2 (fun a b => negb (isclose min_diff a b))
                    state_prior frame ;;
    Ok (np_where c)
  else Ok (seq 0 P).

Section WithHandle.

Variable H : Type.

(** Lines 207-236, without onsets, for one hypothesis: what is appended to
    [y] and to [diffs].  The rows of [x] come from
    [decode.create_weight_x_sk], which is not part of the sources; they are
    left out. *)
Definition collect_state (min_diff : R) (P : nat) (gt_frame : list bool)
    (frame : list R) (acc : list bool * list R) (state : State H)
  : result (list bool * list R) :=
  pitches <- differing min_diff P (prior state) frame ;;
  match pitches with
  | [] => Ok acc
  | _ :: _ =>
      g <- take gt_frame pitches ;;
      f <- take frame pitches ;;
      p <- take (prior state) pitches ;;
      Ok (fst acc ++ g, snd acc ++ map2 (fun a b => Rabs (a - b)) f p)
  end.

(** Line 207: [for state in beam]. *)
Definition collect_beam (min_diff : R) (P : nat) (gt_frame : list bool)
    (frame : list R) (beam : list (State H)) (acc : list bool * list R)
  : result (list bool * list R) :=
  fold_left (fun r state =>
               a <- r ;; collect_state min_diff P gt_frame frame a state)
            beam (Ok acc).

End WithHandle.

End Collect.
(* ================================================================= *)
(** ** Facts about the array operations *)

Module NumPyFacts.

Import NumPy.
Open Scope R_scope.

Lemma Rltb_true (a b : R) : a < b -> Rltb a b = true.
Proof. intros H; unfold Rltb; destruct (Rlt_dec a b); [reflexivity | contradiction]. Qed.

Lemma Rltb_false (a b : R) : b <= a -> Rltb a b = false.
Proof. intros H; unfold Rltb; destruct (Rlt_dec a b); [lra | reflexivity]. Qed.

Lemma Rltb_iff (a b : R) : Rltb a b = true <-> a < b.
Proof.
  unfold Rltb; destruct (Rlt_dec a b); split; intros; try reflexivity;
    try assumption; try discriminate; contradiction.
Qed.

Lemma Reqb_true (a b : R) : a = b -> Reqb a b = true.
Proof. intros H; unfold Reqb; destruct (Req_dec_T a b); [reflexivity | contradiction]. Qed.

Lemma Reqb_false (a b : R) : a <> b -> Reqb a b = false.
Proof. intros H; unfold Reqb; destruct (Req_dec_T a b); [contradiction | reflexivity]. Qed.

Lemma flogR_pos (x : R) : 0 < x -> flogR x = Fin (ln x).
Proof. intros H; unfold flogR; now rewrite Rltb_true. Qed.

Lemma flogR_zero : flogR 0 = NInf.
Proof. unfold flogR; rewrite Rltb_false by lra; now rewrite Reqb_true. Qed.

Lemma fdiv_fin (a b : R) : b <> 0 -> fdiv a b = Fin (a / b).
Proof. intros H; unfold fdiv; now rewrite Reqb_false. Qed.

(** *** Strictly increasing index lists *)

Abbreviation incr := (StronglySorted lt).

Lemma incr_cons_inv (x : nat) (l : list nat) :
  incr (x :: l) -> incr l /\ Forall (lt x) l.
Proof. intros H; inversion H; subst; auto. Qed.

Lemma incr_NoDup (l : list nat) : incr l -> NoDup l.
Proof.
  induction l as [|x l IH]; intros H; constructor.
  - apply incr_cons_inv in H as [_ F]. intros Hin.
    rewrite Forall_forall in F. apply F in Hin. lia.
  - apply IH. now apply incr_cons_inv in H.
Qed.

(** Two increasing lists with the same members are the same list. *)
Lemma incr_ext (a b : list nat) :
  incr a -> incr b -> (forall x, In x a <-> In x b) -> a = b.
Proof.
  revert b; induction a as [|x a IH]; intros [|y b] Ha Hb E.
  - reflexivity.
  - exfalso. apply (proj2 (E y)). now left.
  - exfalso. apply (proj1 (E x)). now left.
  - apply incr_cons_inv in Ha as [Ha Fa]. apply incr_cons_inv in Hb as [Hb Fb].
    rewrite Forall_forall in Fa, Fb.
    assert (x = y) as ->.
    { destruct (proj1 (E x) (or_introl eq_refl)) as [e|i]; [now subst|].
      destruct (proj2 (E y) (or_introl eq_refl)) as [e|j]; [now subst|].
      apply Fb in i. apply Fa in j. lia. }
    f_equal. apply IH; auto. intros z; split; intros Hz.
    + destruct (proj1 (E z) (or_intror Hz)) as [e|i]; [|exact i].
      subst. apply Fa in Hz. lia.
    + destruct (proj2 (E z) (or_intror Hz)) as [e|i]; [|exact i].
      subst. apply Fb in Hz. lia.
Qed.

Lemma incr_app (a b : list nat) :
  incr a -> incr b -> (forall x y, In x a -> In y b -> (x < y)%nat) ->
  incr (a ++ b).
Proof.
  induction a as [|x a IH]; intros Ha Hb H; simpl; [exact Hb|].
  apply incr_cons_inv in Ha as [Ha Fa]. constructor.
  - apply IH; auto. intros; apply H; simpl; auto.
  - apply Forall_app; split; [exact Fa|].
    apply Forall_forall. intros y Hy. apply H; simpl; auto.
Qed.

Lemma incr_app_inv (a b : list nat) :
  incr (a ++ b) ->
  incr a /\ incr b /\ (forall x y, In x a -> In y b -> (x < y)%nat).
Proof.
  induction a as [|x a IH]; simpl; intros H.
  - repeat split; [constructor | exact H | intros ? ? []].
  - apply incr_cons_inv in H as [H F]. destruct (IH H) as (Ha & Hb & Hab).
    apply Forall_app in F as [F1 F2]. rewrite Forall_forall in F2.
    repeat split; [constructor; auto | exact Hb |].
    intros u w [<-|Hu] Hw; auto.
Qed.

Lemma incr_filter (f : nat -> bool) (l : list nat) :
  incr l -> incr (filter f l).
Proof.
  induction l as [|x l IH]; simpl; intros H; [constructor|].
  apply incr_cons_inv in H as [H F].
  destruct (f x); [|auto]. constructor; [auto|].
  rewrite Forall_forall in F. apply Forall_forall.
  intros y Hy. apply filter_In in Hy as [Hy _]. auto.
Qed.

Lemma incr_seq (a n : nat) : incr (seq a n).
Proof.
  revert a; induction n as [|n IH]; intros a; simpl; constructor; [apply IH|].
  apply Forall_forall. intros y Hy. apply in_seq in Hy. lia.
Qed.

(** *** [np.where] *)

Lemma where_from_In (c : list bool) (k i : nat) :
  In i (where_from k c) <-> (k <= i)%nat /\ nth (i - k) c false = true.
Proof.
  revert k; induction c as [|b c IH]; intros k.
  - simpl. split; [intros [] | intros [_ H]]. destruct (i - k)%nat; discriminate.
  - assert (Hs : forall j, (S k <= j)%nat ->
                 nth (j - k) (b :: c) false = nth (j - S k) c false).
    { intros j Hj. replace (j - k)%nat with (S (j - S k)) by lia. reflexivity. }
    cbn [where_from]. destruct b; cbn [In]; rewrite IH.
    + split.
      * intros [<-|[H1 H2]]; [rewrite Nat.sub_diag; simpl; auto|].
        split; [lia|]. now rewrite Hs.
      * intros [H1 H2]. destruct (Nat.eq_dec k i) as [->|N]; [now left|].
        right. split; [lia|]. rewrite <- Hs by lia. exact H2.
    + split.
      * intros [H1 H2]. split; [lia|]. now rewrite Hs.
      * intros [H1 H2]. destruct (Nat.eq_dec k i) as [->|N].
        -- rewrite Nat.sub_diag in H2. discriminate.
        -- split; [lia|]. rewrite <- Hs by lia. exact H2.
Qed.

Lemma where_from_incr (c : list bool) (k : nat) : incr (where_from k c).
Proof.
  revert k; induction c as [|b c IH]; intros k; simpl; [constructor|].
  destruct b; [|apply IH]. constructor; [apply IH|].
  apply Forall_forall. intros y Hy. apply where_from_In in Hy. lia.
Qed.

Lemma np_where_In (c : list bool) (i : nat) :
  In i (np_where c) <-> nth i c false = true.
Proof.
  unfold np_where. rewrite where_from_In, Nat.sub_0_r. intuition lia.
Qed.

Lemma np_where_lt (c : list bool) (i : nat) :
  In i (np_where c) -> (i < length c)%nat.
Proof.
  intros H. apply np_where_In in H.
  destruct (Nat.lt_ge_cases i (length c)) as [L|G]; [exact L|].
  rewrite nth_overflow in H by exact G. discriminate.
Qed.

(** *** [np.unique] and [np.setxor1d] *)

Lemma mem_In (x : nat) (l : list nat) : mem x l = true <-> In x l.
Proof.
  unfold mem. rewrite existsb_exists. split.
  - intros (y & Hy & E). apply Nat.eqb_eq in E. now subst.
  - intros H. exists x. split; [exact H | apply Nat.eqb_refl].
Qed.

Lemma insert_u_In (x y : nat) (s : list nat) :
  In y (insert_u x s) <-> y = x \/ In y s.
Proof.
  induction s as [|z s IH]; simpl; [intuition|].
  destruct (x <? z) eqn:E1; [simpl; intuition|].
  destruct (x =? z) eqn:E2.
  - apply Nat.eqb_eq in E2. subst. simpl. intuition.
  - simpl. rewrite IH. intuition.
Qed.

Lemma insert_u_incr (x : nat) (s : list nat) : incr s -> incr (insert_u x s).
Proof.
  induction s as [|z s IH]; simpl; intros H.
  - repeat constructor.
  - destruct (x <? z) eqn:E1.
    + apply Nat.ltb_lt in E1. constructor; [exact H|].
      apply incr_cons_inv in H as [_ F]. constructor; [exact E1|].
      rewrite Forall_forall in F. apply Forall_forall.
      intros y Hy. apply F in Hy. lia.
    + destruct (x =? z) eqn:E2; [exact H|].
      apply Nat.ltb_ge in E1. apply Nat.eqb_neq in E2.
      apply incr_cons_inv in H as [H F]. constructor; [auto|].
      rewrite Forall_forall in F. apply Forall_forall. intros y Hy.
      apply insert_u_In in Hy as [->|Hy]; [lia | auto].
Qed.

Lemma np_unique_In (y : nat) (l : list nat) : In y (np_unique l) <-> In y l.
Proof.
  induction l as [|x l IH]; simpl; [tauto|].
  rewrite insert_u_In, IH. intuition.
Qed.

Lemma np_unique_incr (l : list nat) : incr (np_unique l).
Proof.
  induction l as [|x l IH]; simpl; [constructor | now apply insert_u_incr].
Qed.

Lemma setxor1d_incr (a b : list nat) : incr (setxor1d a b).
Proof. apply incr_filter, np_unique_incr. Qed.

Lemma setxor1d_In (a b : list nat) (x : nat) :
  In x (setxor1d a b) <-> (In x a /\ ~ In x b) \/ (~ In x a /\ In x b).
Proof.
  unfold setxor1d. rewrite filter_In, np_unique_In, in_app_iff.
  destruct (mem x a) eqn:Ea, (mem x b) eqn:Eb; simpl;
    try (apply mem_In in Ea); try (apply mem_In in Eb);
    try (assert (~ In x a) by (rewrite <- mem_In; congruence));
    try (assert (~ In x b) by (rewrite <- mem_In; congruence));
    intuition congruence.
Qed.

Lemma setxor1d_nil_r (a : list nat) : incr a -> setxor1d a [] = a.
Proof.
  intros H. apply incr_ext; [apply setxor1d_incr | exact H |].
  intros x. rewrite setxor1d_In. simpl. tauto.
Qed.

End NumPyFacts.

(* ================================================================= *)
(** ** Sorting, indexing and the priority queue *)

Module QueueFacts.

Import NumPy NumPyFacts Decode.
Open Scope R_scope.

(** *** The order of [argsort] *)

Definition sort_le (x y : npfloat) : Prop := sort_lt y x = false.

Lemma sort_le_total (x y : npfloat) : sort_lt x y = true -> sort_le x y.
Proof.
  unfold sort_le, sort_lt.
  destruct x as [a| | |], y as [b| | |]; simpl; try discriminate; auto.
  rewrite !orb_false_r. intros H. apply Rltb_iff in H. apply Rltb_false. lra.
Qed.

Lemma sort_le_trans (x y z : npfloat) :
  sort_le x y -> sort_le y z -> sort_le x z.
Proof.
  unfold sort_le, sort_lt.
  destruct x as [a| | |], y as [b| | |], z as [c| | |]; simpl;
    try discriminate; auto.
  rewrite !orb_false_r. intros H1 H2.
  apply Rltb_false.
  destruct (Rlt_dec b a) as [L|L]; [rewrite (Rltb_true _ _ L) in H1; discriminate|].
  destruct (Rlt_dec c b) as [L'|L']; [rewrite (Rltb_true _ _ L') in H2; discriminate|].
  lra.
Qed.

Lemma sort_le_fin (a b : R) : sort_le (Fin a) (Fin b) <-> a <= b.
Proof.
  unfold sort_le, sort_lt; simpl. rewrite orb_false_r. split; intros H.
  - destruct (Rlt_dec b a) as [L|L]; [rewrite (Rltb_true _ _ L) in H; discriminate | lra].
  - now apply Rltb_false.
Qed.

Section Argsort.

Variable L : list npfloat.

Definition key_le (j k : nat) : Prop := sort_le (at_ L j) (at_ L k).

Lemma insert_idx_perm (j : nat) (s : list nat) :
  Permutation (insert_idx L j s) (j :: s).
Proof.
  induction s as [|k s IH]; simpl; [reflexivity|].
  destruct (sort_lt (at_ L k) (at_ L j)); [|reflexivity].
  rewrite IH. apply perm_swap.
Qed.

Lemma insert_idx_sorted (j : nat) (s : list nat) :
  StronglySorted key_le s -> StronglySorted key_le (insert_idx L j s).
Proof.
  induction s as [|k s IH]; simpl; intros H.
  - repeat constructor.
  - inversion H as [|? ? Hs Hk]; subst.
    destruct (sort_lt (at_ L k) (at_ L j)) eqn:E.
    + constructor; [auto|].
      apply Forall_forall. intros y Hy.
      apply (Permutation_in _ (insert_idx_perm j s)) in Hy.
      destruct Hy as [<-|Hy].
      * now apply sort_le_total.
      * rewrite Forall_forall in Hk. auto.
    + constructor; [exact H|]. constructor; [exact E|].
      rewrite Forall_forall in Hk. apply Forall_forall. intros y Hy.
      unfold key_le. eapply sort_le_trans; [exact E | now apply Hk].
Qed.

Lemma argsort_perm : Permutation (argsort L) (seq 0 (length L)).
Proof.
  unfold argsort. induction (seq 0 (length L)) as [|j s IH]; simpl; [reflexivity|].
  rewrite insert_idx_perm. now constructor.
Qed.

Lemma argsort_sorted : StronglySorted key_le (argsort L).
Proof.
  unfold argsort. induction (seq 0 (length L)) as [|j s IH]; simpl.
  - constructor.
  - now apply insert_idx_sorted.
Qed.

Lemma argsort_length : length (argsort L) = length L.
Proof. rewrite (Permutation_length argsort_perm). apply length_seq. Qed.

Lemma argsort_lt (j : nat) : In j (argsort L) -> (j < length L)%nat.
Proof.
  intros H. apply (Permutation_in _ argsort_perm) in H. apply in_seq in H. lia.
Qed.

Lemma argsort_NoDup : NoDup (argsort L).
Proof.
  apply (Permutation_NoDup (Permutation_sym argsort_perm)), seq_NoDup.
Qed.

End Argsort.

(** *** Indexing with an index array *)

Lemma take_ok {A : Type} (d : A) (a : list A) (idx : list nat) :
  Forall (fun j => (j < length a)%nat) idx ->
  take a idx = Ok (map (fun j => nth j a d) idx).
Proof.
  induction idx as [|j idx IH]; intros H; simpl; [reflexivity|].
  inversion H as [|? ? Hj Hi]; subst.
  destruct (nth_error a j) eqn:E.
  - rewrite (IH Hi). simpl. f_equal. f_equal.
    symmetry. now apply nth_error_nth.
  - apply nth_error_None in E. lia.
Qed.

Lemma take_argsort (L : list npfloat) :
  take L (argsort L) = Ok (map (at_ L) (argsort L)).
Proof.
  apply take_ok. apply Forall_forall. intros j. apply argsort_lt.
Qed.

(** *** The queue *)

Definition key (e : entry) : npfloat := fst (fst e).
Definition node (e : entry) : list nat := snd e.

Lemma get_min_perm (rest : list entry) (best m : entry) (r : list entry) :
  get_min best rest = (m, r) -> Permutation (best :: rest) (m :: r).
Proof.
  revert best m r; induction rest as [|x rest IH]; intros best m r; simpl.
  - intros [= <- <-]. reflexivity.
  - destruct (entry_lt x best).
    + destruct (get_min x rest) as [m' r'] eqn:E. intros [= <- <-].
      apply perm_trans with (best :: m' :: r'); [|apply perm_swap].
      constructor. now apply IH.
    + destruct (get_min best rest) as [m' r'] eqn:E. intros [= <- <-].
      apply perm_trans with (x :: best :: rest); [apply perm_swap|].
      apply perm_trans with (x :: m' :: r'); [|apply perm_swap].
      constructor. now apply IH.
Qed.

Lemma q_get_perm (q : list entry) (m : entry) (r : list entry) :
  q_get q = Some (m, r) -> Permutation q (m :: r).
Proof.
  destruct q as [|x q]; simpl; [discriminate|].
  intros [= H]. now apply get_min_perm.
Qed.

Lemma q_get_none (q : list entry) : q_get q = None -> q = [].
Proof. destruct q; [reflexivity | discriminate]. Qed.

(** A key that is a number or an infinity. *)
Definition ordered_key (e : entry) : Prop := isnan (key e) = false.

Lemma entry_lt_fle (x y : entry) :
  ordered_key x -> ordered_key y ->
  (entry_lt x y = true -> fle (key x) (key y)) /\
  (entry_lt x y = false -> fle (key y) (key x)).
Proof.
  destruct x as [[l1 n1] v1], y as [[l2 n2] v2].
  unfold ordered_key, key. cbn [fst]. intros Hx Hy.
  destruct l1 as [a| | |], l2 as [b| | |]; try discriminate; simpl;
    try (split; intros; try discriminate; exact I).
  unfold Reqb, Rltb. destruct (Req_dec_T a b), (Rlt_dec a b); split; intros;
    try discriminate; lra.
Qed.

Lemma fle_trans (x y z : npfloat) : fle x y -> fle y z -> fle x z.
Proof.
  destruct x, y, z; simpl; try tauto. intros; lra.
Qed.

Lemma fle_refl (x : npfloat) : isnan x = false -> fle x x.
Proof. destruct x; simpl; try discriminate; intros; try exact I. lra. Qed.

(** With keys that are no NaN, [get] returns an entry whose key is least. *)
Lemma get_min_least (rest : list entry) (best m : entry) (r : list entry) :
  Forall ordered_key (best :: rest) ->
  get_min best rest = (m, r) ->
  Forall (fun e => fle (key m) (key e)) (best :: rest).
Proof.
  revert best m r; induction rest as [|x rest IH]; intros best m r F; simpl.
  - intros [= <- <-]. constructor; [|constructor].
    apply Forall_cons_iff in F as [F _]. now apply fle_refl.
  - apply Forall_cons_iff in F as [Fb F']. apply Forall_cons_iff in F' as [Fx Fr].
    destruct (entry_lt_fle x best Fx Fb) as [Ht Hf].
    destruct (entry_lt x best) eqn:E.
    + destruct (get_min x rest) as [m' r'] eqn:G. intros [= <- <-].
      specialize (IH x m' r' (Forall_cons _ Fx Fr) G).
      pose proof (proj1 (Forall_cons_iff _ _ _) IH) as [Hx Hr].
      constructor; [|exact IH].
      eapply fle_trans; [exact Hx | now apply Ht].
    + destruct (get_min best rest) as [m' r'] eqn:G. intros [= <- <-].
      specialize (IH best m' r' (Forall_cons _ Fb Fr) G).
      pose proof (proj1 (Forall_cons_iff _ _ _) IH) as [Hb Hr].
      constructor; [exact Hb|]. constructor; [|exact Hr].
      eapply fle_trans; [exact Hb | now apply Hf].
Qed.

Lemma q_get_least (q : list entry) (m : entry) (r : list entry) :
  Forall ordered_key q -> q_get q = Some (m, r) ->
  Forall (fun e => fle (key m) (key e)) q.
Proof.
  destruct q as [|x q]; simpl; [discriminate|].
  intros F [= H]. now apply (get_min_least q x m r).
Qed.

End QueueFacts.

(* ================================================================= *)
(** ** The search tree of flip sets *)

Module FlipTree.

Import NumPy NumPyFacts Decode QueueFacts.

(** The non-empty increasing sub-lists of a list, and all of them. *)
Fixpoint ne (l : list nat) : list (list nat) :=
  match l with
  | [] => []
  | x :: l' => [x] :: map (cons x) (ne l') ++ ne l'
  end.

Fixpoint subs (l : list nat) : list (list nat) :=
  match l with
  | [] => [[]]
  | x :: l' => map (cons x) (subs l') ++ subs l'
  end.

Lemma ne_length (l : list nat) : S (length (ne l)) = (2 ^ length l)%nat.
Proof.
  induction l as [|x l IH]; simpl; [reflexivity|].
  rewrite length_app, length_map. lia.
Qed.

Lemma subs_length (l : list nat) : length (subs l) = (2 ^ length l)%nat.
Proof.
  induction l as [|x l IH]; simpl; [reflexivity|].
  rewrite length_app, length_map. lia.
Qed.

Lemma subs_ne (l : list nat) : Permutation (subs l) ([] :: ne l).
Proof.
  induction l as [|x l IH]; simpl; [reflexivity|].
  apply perm_trans with (map (cons x) ([] :: ne l) ++ [] :: ne l).
  { apply Permutation_app; [now apply Permutation_map | exact IH]. }
  simpl. apply Permutation_sym.
  apply (Permutation_middle ([x] :: map (cons x) (ne l)) (ne l) []).
Qed.

Lemma ne_In (l w : list nat) :
  In w (ne l) -> w <> [] /\ (forall x, In x w -> In x l).
Proof.
  revert w; induction l as [|x l IH]; intros w; simpl; [intros []|].
  rewrite in_app_iff, in_map_iff.
  intros [<-|[(w' & <- & Hw)|Hw]].
  - split; [discriminate|]. simpl. tauto.
  - split; [discriminate|]. intros y [<-|Hy]; [now left|].
    right. now apply (IH w').
  - destruct (IH w Hw) as [N I]. split; [exact N|]. intros y Hy. right. auto.
Qed.

Lemma ne_incr (l w : list nat) : incr l -> In w (ne l) -> incr w.
Proof.
  revert w; induction l as [|x l IH]; intros w Hl; simpl; [intros []|].
  apply incr_cons_inv in Hl as [Hl F]. rewrite Forall_forall in F.
  rewrite in_app_iff, in_map_iff.
  intros [<-|[(w' & <- & Hw)|Hw]].
  - repeat constructor.
  - constructor; [now apply IH|]. apply Forall_forall. intros y Hy.
    apply F. now apply (ne_In l w').
  - now apply IH.
Qed.

Lemma ne_NoDup (l : list nat) : NoDup l -> NoDup (ne l).
Proof.
  induction l as [|x l IH]; intros H; simpl; [constructor|].
  inversion H as [|? ? Hx Hl]; subst.
  assert (Hm : NoDup (map (cons x) (ne l))).
  { apply Finite.Injective_map_NoDup; [|auto]. intros a b [= E]. exact E. }
  constructor.
  - rewrite in_app_iff, in_map_iff. intros [(w & [= E] & Hw)|Hw].
    + subst. apply ne_In in Hw. tauto.
    + apply ne_In in Hw as [_ I]. apply Hx, I. now left.
  - apply NoDup_app; [exact Hm | auto |].
    intros w Hw Hw'. apply in_map_iff in Hw as (w' & <- & _).
    apply ne_In in Hw' as [_ I]. apply Hx, I. now left.
Qed.

Lemma subs_NoDup (l : list nat) : NoDup l -> NoDup (subs l).
Proof.
  intros H. apply (Permutation_NoDup (Permutation_sym (subs_ne l))).
  constructor; [|now apply ne_NoDup].
  intros Hin. apply ne_In in Hin. tauto.
Qed.

(** Every increasing list over the members of [l] is among [subs l]. *)
Lemma subs_complete (l w : list nat) :
  incr l -> incr w -> (forall x, In x w -> In x l) -> In w (subs l).
Proof.
  revert w; induction l as [|x l IH]; intros w Hl Hw I.
  - destruct w as [|y w]; [now left|]. destruct (I y); now left.
  - simpl. rewrite in_app_iff, in_map_iff.
    pose proof (incr_cons_inv _ _ Hl) as [Hl' F]. rewrite Forall_forall in F.
    destruct w as [|y w].
    + right. apply IH; auto. intros ? [].
    + pose proof (incr_cons_inv _ _ Hw) as [Hw' G]. rewrite Forall_forall in G.
      destruct (I y (or_introl eq_refl)) as [<-|Hy].
      * left. exists w. split; [reflexivity|]. apply IH; auto.
        intros z Hz. destruct (I z (or_intror Hz)) as [<-|Hz']; [|exact Hz'].
        apply G in Hz. lia.
      * right. apply IH; auto. intros z [<-|Hz]; [exact Hy|].
        destruct (I z (or_intror Hz)) as [<-|Hz']; [|exact Hz'].
        apply G in Hz. apply F in Hy. lia.
Qed.

Lemma subs_sound (l w : list nat) :
  incr l -> In w (subs l) -> incr w /\ (forall x, In x w -> In x l).
Proof.
  intros Hl Hw. apply (Permutation_in _ (subs_ne l)) in Hw.
  destruct Hw as [<-|Hw].
  - split; [constructor | intros ? []].
  - split; [now apply (ne_incr l) | now apply ne_In].
Qed.

(** *** Nodes of the tree *)

(** A well-formed node: a non-empty increasing list of positions below [P]. *)
Definition wf (P : nat) (v : list nat) : Prop :=
  exists pre i, v = pre ++ [i] /\ incr v /\ (i < P)%nat.

Lemma np_max_last (pre : list nat) (i : nat) :
  incr (pre ++ [i]) -> np_max (pre ++ [i]) = i.
Proof.
  induction pre as [|x pre IH]; simpl; intros H; [lia|].
  apply incr_cons_inv in H as [H F]. rewrite (IH H).
  rewrite Forall_forall in F. specialize (F i).
  rewrite in_app_iff in F. simpl in F. lia.
Qed.

Lemma incr_snoc (pre : list nat) (i j : nat) :
  incr (pre ++ [i]) -> (i < j)%nat -> incr ((pre ++ [i]) ++ [j]).
Proof.
  intros H Hij. apply incr_app; [exact H | repeat constructor |].
  intros x y Hx [<-|[]]. apply incr_app_inv in H as (_ & _ & H).
  apply in_app_iff in Hx as [Hx|[<-|[]]]; [|exact Hij].
  specialize (H x i Hx (or_introl eq_refl)). lia.
Qed.

Lemma incr_swap_last (pre : list nat) (i j : nat) :
  incr (pre ++ [i]) -> (i < j)%nat -> incr (pre ++ [j]).
Proof.
  intros H Hij. apply incr_app_inv in H as (Hp & _ & H).
  apply incr_app; [exact Hp | repeat constructor |].
  intros x y Hx [<-|[]]. specialize (H x i Hx (or_introl eq_refl)). lia.
Qed.

(** The second child: the last position is replaced by its successor. *)
Lemma setxor1d_swap (pre : list nat) (i : nat) :
  incr (pre ++ [i]) ->
  setxor1d ((pre ++ [i]) ++ [S i]) [i] = pre ++ [S i].
Proof.
  intros H. apply incr_ext.
  - apply setxor1d_incr.
  - apply (incr_swap_last pre i); [exact H | lia].
  - intros x. rewrite setxor1d_In, !in_app_iff. simpl.
    apply incr_app_inv in H as (_ & _ & H).
    assert (In x pre -> x <> i).
    { intros Hx. specialize (H x i Hx (or_introl eq_refl)). lia. }
    destruct (Nat.eq_dec x i); intuition lia.
Qed.

(** The nodes below [v] in the tree, [v] included. *)
Definition desc (P : nat) (v : list nat) : list (list nat) :=
  map (app (removelast v)) (ne (seq (last v 0%nat) (P - last v 0%nat))).

Lemma desc_root (P : nat) : desc P [0%nat] = ne (seq 0 P).
Proof.
  unfold desc. simpl. rewrite Nat.sub_0_r. apply map_id.
Qed.

Lemma desc_unfold (P : nat) (pre : list nat) (i : nat) :
  (i < P)%nat ->
  desc P (pre ++ [i]) =
  (pre ++ [i])
    :: map (app (pre ++ [i])) (ne (seq (S i) (P - S i)))
    ++ map (app pre) (ne (seq (S i) (P - S i))).
Proof.
  intros Hi. unfold desc. rewrite removelast_last, last_last.
  replace (P - i)%nat with (S (P - S i)) by lia.
  simpl. f_equal. rewrite map_app, map_map. f_equal.
  apply map_ext. intros w. now rewrite <- app_assoc.
Qed.

Lemma desc_leaf (P : nat) (pre : list nat) (i : nat) :
  (i < P)%nat -> ~ (S i < P)%nat -> desc P (pre ++ [i]) = [pre ++ [i]].
Proof.
  intros Hi Hn. rewrite desc_unfold by exact Hi.
  replace (P - S i)%nat with 0%nat by lia. reflexivity.
Qed.

Lemma desc_inner (P : nat) (pre : list nat) (i : nat) :
  (S i < P)%nat ->
  desc P (pre ++ [i]) =
  (pre ++ [i]) :: desc P ((pre ++ [i]) ++ [S i]) ++ desc P (pre ++ [S i]).
Proof.
  intros Hi. rewrite desc_unfold by lia. unfold desc.
  now rewrite !removelast_last, !last_last.
Qed.

End FlipTree.

(* ================================================================= *)
(** ** The run of the queue loop *)

Module Run.

Import NumPy NumPyFacts Decode QueueFacts FlipTree.

(** What one pass of the loop body puts back into the queue. *)
Definition expand (L_sorted : list npfloat) (e : entry) (q1 : list entry)
    (num : nat) : list entry * nat :=
  let '(l, _, v) := e in
  let i := np_max v in
  if (i + 1 <? length L_sorted)%nat then
    (q_put (fsub (fadd l (at_ L_sorted (i + 1))) (at_ L_sorted i),
            (num + 1)%nat,
            setxor1d (v ++ [(i + 1)%nat]) [i])
       (q_put (fadd l (at_ L_sorted (i + 1)), num, v ++ [(i + 1)%nat]) q1),
     (num + 2)%nat)
  else (q1, num).

(** The entries the loop removes from the queue, in order. *)
Fixpoint pops (L_sorted : list npfloat) (k : nat) (q : list entry) (num : nat)
  : list entry * outcome :=
  match k with
  | O => ([], Suspended)
  | S k' =>
      match q_get q with
      | None => ([], Exhausted)
      | Some (e, q1) =>
          let '(q2, num2) := expand L_sorted e q1 num in
          let '(es, o) := pops L_sorted k' q2 num2 in
          (e :: es, o)
      end
  end.

(** What the loop yields for an entry it removed. *)
Definition yield_of (l_0 : npfloat) (v_0 R : list nat) (e : entry)
  : npfloat * list nat :=
  (fsub l_0 (key e), setxor1d v_0 (map (fun j => nth j R 0%nat) (node e))).

Section Tree.

Variable L_sorted : list npfloat.
Variable P : nat.
Hypothesis L_length : length L_sorted = P.

Definition wfq (q : list entry) : Prop := Forall (fun e => wf P (node e)) q.

Lemma expand_wf (e : entry) (q1 : list entry) (num : nat) :
  wf P (node e) -> wfq q1 -> wfq (fst (expand L_sorted e q1 num)).
Proof.
  destruct e as [[l n] v]. simpl. intros (pre & i & -> & Hv & Hi) Hq.
  rewrite (np_max_last _ _ Hv), L_length.
  destruct (i + 1 <? P)%nat eqn:E; simpl; [|exact Hq].
  apply Nat.ltb_lt in E. replace (i + 1)%nat with (S i) in * by lia.
  unfold q_put, wfq. rewrite !Forall_app. repeat split; [exact Hq| |].
  - constructor; [|constructor]. simpl.
    exists (pre ++ [i]), (S i). repeat split; [|exact E].
    apply incr_snoc; [exact Hv | lia].
  - constructor; [|constructor]. simpl. rewrite (setxor1d_swap _ _ Hv).
    exists pre, (S i). repeat split; [|exact E].
    apply (incr_swap_last pre i); [exact Hv | lia].
Qed.

Lemma wfq_perm (q q' : list entry) : Permutation q q' -> wfq q -> wfq q'.
Proof. intros Hp. unfold wfq. now rewrite Hp. Qed.

Lemma q_get_wf (q : list entry) (e : entry) (q1 : list entry) :
  wfq q -> q_get q = Some (e, q1) -> wf P (node e) /\ wfq q1.
Proof.
  intros Hq G. apply q_get_perm in G. apply (wfq_perm _ _ G) in Hq.
  now apply Forall_cons_iff in Hq.
Qed.

(** *** The run visits the tree below the queue, each node once *)

Definition below (q : list entry) : list (list nat) :=
  flat_map (fun e => desc P (node e)) q.

Lemma below_perm (q q' : list entry) :
  Permutation q q' -> Permutation (below q) (below q').
Proof.
  intros H. unfold below. now apply Permutation_flat_map.
Qed.

Lemma below_expand (e : entry) (q1 : list entry) (num : nat) :
  wf P (node e) ->
  Permutation (below (e :: q1))
              (node e :: below (fst (expand L_sorted e q1 num))).
Proof.
  destruct e as [[l n] v]. simpl. intros (pre & i & -> & Hv & Hi).
  rewrite (np_max_last _ _ Hv), L_length.
  destruct (i + 1 <? P)%nat eqn:E; simpl.
  - apply Nat.ltb_lt in E. replace (i + 1)%nat with (S i) in * by lia.
    rewrite (setxor1d_swap _ _ Hv).
    rewrite (desc_inner P pre i E). simpl. constructor.
    unfold q_put, below. rewrite !flat_map_app. simpl. rewrite !app_nil_r.
    rewrite <- (app_assoc (flat_map _ q1)). apply Permutation_app_comm.
  - apply Nat.ltb_ge in E. rewrite (desc_leaf P pre i Hi) by lia. reflexivity.
Qed.

Lemma pops_perm (k : nat) (q : list entry) (num : nat) :
  wfq q ->
  exists rest,
    Permutation (map node (fst (pops L_sorted k q num)) ++ rest) (below q) /\
    (snd (pops L_sorted k q num) = Exhausted -> rest = []) /\
    (snd (pops L_sorted k q num) = Suspended ->
       length (fst (pops L_sorted k q num)) = k) /\
    (forall e, snd (pops L_sorted k q num) <> Raised e).
Proof.
  revert q num; induction k as [|k IH]; intros q num Hq; simpl.
  - exists (below q). repeat split; try discriminate. reflexivity.
  - destruct (q_get q) as [[e q1]|] eqn:G.
    + destruct (q_get_wf _ _ _ Hq G) as [He Hq1].
      pose proof (expand_wf e q1 num He Hq1) as Hq2.
      pose proof (below_expand e q1 num He) as Hb.
      destruct (expand L_sorted e q1 num) as [q2 num2]. simpl in Hq2, Hb.
      destruct (IH q2 num2 Hq2) as (rest & Hp & Hex & Hsu & Hra).
      destruct (pops L_sorted k q2 num2) as [es o]. simpl in *.
      exists rest. repeat split; auto.
      rewrite (below_perm _ _ (q_get_perm _ _ _ G)), Hb.
      now constructor.
    + apply q_get_none in G. subst. exists []. simpl.
      repeat split; try discriminate. reflexivity.
Qed.

(** With more steps than nodes the queue runs empty. *)
Lemma pops_exhausted (k : nat) (q : list entry) (num : nat) :
  wfq q -> (length (below q) < k)%nat ->
  snd (pops L_sorted k q num) = Exhausted.
Proof.
  intros Hq Hk. destruct (pops_perm k q num Hq) as (rest & Hp & _ & Hsu & Hra).
  destruct (snd (pops L_sorted k q num)) eqn:E; [|reflexivity|now destruct (Hra e)].
  exfalso. specialize (Hsu eq_refl).
  apply Permutation_length in Hp. rewrite length_app, length_map in Hp. lia.
Qed.

End Tree.

Section Loop.

Variables (l_0 : npfloat) (v_0 R : list nat) (L_sorted : list npfloat).
Variable P : nat.
Hypothesis R_length : length R = P.
Hypothesis L_length : length L_sorted = P.

Lemma wf_take (v : list nat) :
  wf P v -> take R v = Ok (map (fun j => nth j R 0%nat) v).
Proof.
  intros (pre & i & -> & Hv & Hi). apply take_ok.
  apply Forall_forall. intros x Hx. rewrite R_length.
  apply in_app_iff in Hx as [Hx|[<-|[]]]; [|exact Hi].
  apply incr_app_inv in Hv as (_ & _ & H).
  specialize (H x i Hx (or_introl eq_refl)). lia.
Qed.

(** The loop of the program is the run of the queue, each removed entry
    turned into the element it yields; no index is ever out of range. *)
Lemma loop_pops (k : nat) (q : list entry) (num : nat) :
  wfq P q ->
  loop l_0 v_0 R L_sorted k q num =
  (map (yield_of l_0 v_0 R) (fst (pops L_sorted k q num)),
   snd (pops L_sorted k q num)).
Proof.
  revert q num; induction k as [|k IH]; intros q num Hq; simpl; [reflexivity|].
  destruct (q_get q) as [[e q1]|] eqn:G; [|reflexivity].
  destruct (q_get_wf P _ _ _ Hq G) as [He Hq1].
  pose proof (expand_wf L_sorted P L_length e q1 num He Hq1) as Hq2.
  destruct e as [[l n] v]. simpl in He.
  rewrite (wf_take _ He).
  unfold expand in *.
  destruct (np_max v + 1 <? length L_sorted)%nat; simpl in Hq2.
  - rewrite (IH _ _ Hq2).
    destruct (pops L_sorted k _ _) as [es o]. reflexivity.
  - rewrite (IH _ _ Hq2).
    destruct (pops L_sorted k _ _) as [es o]. reflexivity.
Qed.

End Loop.

End Run.

(* ================================================================= *)
(** ** The keys of the queue when every penalty is finite *)

Module Keys.

Import NumPy NumPyFacts Decode QueueFacts FlipTree Run.
Open Scope R_scope.

Definition sumR (l : list R) : R := fold_right Rplus 0 l.

Lemma sumR_app (a b : list R) : sumR (a ++ b) = sumR a + sumR b.
Proof. induction a as [|x a IH]; simpl; [lra | rewrite IH; lra]. Qed.

Lemma np_sum_fin (l : list R) : np_sum (map Fin l) = Fin (sumR l).
Proof.
  induction l as [|x l IH]; [reflexivity|].
  unfold np_sum in *. cbn [map fold_right]. now rewrite IH.
Qed.

Lemma at_fin (lr : list R) (i : nat) :
  (i < length lr)%nat -> at_ (map Fin lr) i = Fin (nth i lr 0).
Proof.
  intros H. unfold at_.
  rewrite (nth_indep _ NaN (Fin 0)) by now rewrite length_map.
  apply (map_nth Fin).
Qed.

(** The number a finite float stands for. *)
Definition fval (x : npfloat) : R :=
  match x with Fin r => r | _ => 0 end.

Lemma fle_zero_cases (x : npfloat) :
  fle (Fin 0) x -> (exists r, x = Fin r /\ 0 <= r) \/ x = PInf.
Proof.
  destruct x as [r| | |]; simpl; intros H; try contradiction; [left|right]; eauto.
Qed.

Section Sorted.

(** The sorted penalties: none is negative or NaN, and all but the last one
    are finite. *)
Variable Ls : list npfloat.
Variable P : nat.
Hypothesis Ls_length : length Ls = P.
Hypothesis Ls_lower : forall j, (j < P)%nat -> fle (Fin 0) (at_ Ls j).
Hypothesis Ls_sorted :
  forall i j, (i <= j)%nat -> (j < P)%nat -> fle (at_ Ls i) (at_ Ls j).
Hypothesis Ls_inner : forall j, (S j < P)%nat -> isfinite (at_ Ls j) = true.

(** The total finite penalty of a flip set, whether it holds the position of
    an infinite penalty, and its total penalty. *)
Definition cost (v : list nat) : R :=
  sumR (map (fun j => fval (at_ Ls j)) v).

Definition reaches_inf (v : list nat) : bool :=
  existsb (fun j => negb (isfinite (at_ Ls j))) v.

Definition ext (v : list nat) : npfloat :=
  if reaches_inf v then PInf else Fin (cost v).

Definition sound (e : entry) : Prop := key e = ext (node e).

Lemma expand_inner (l : npfloat) (n : nat) (pre : list nat) (i : nat)
    (q1 : list entry) (num : nat) :
  incr (pre ++ [i]) -> (S i < P)%nat ->
  expand Ls (l, n, pre ++ [i]) q1 num =
  (q1 ++ [(fadd l (at_ Ls (S i)), num, (pre ++ [i]) ++ [S i])]
      ++ [(fsub (fadd l (at_ Ls (S i))) (at_ Ls i), (num + 1)%nat,
           pre ++ [S i])],
   (num + 2)%nat).
Proof.
  intros Hv Hi. unfold expand. rewrite (np_max_last _ _ Hv), Ls_length.
  replace (i + 1)%nat with (S i) by lia.
  destruct (S i <? P)%nat eqn:E; [|apply Nat.ltb_ge in E; lia].
  rewrite (setxor1d_swap _ _ Hv). unfold q_put. now rewrite <- app_assoc.
Qed.

Lemma expand_leaf (l : npfloat) (n : nat) (pre : list nat) (i : nat)
    (q1 : list entry) (num : nat) :
  incr (pre ++ [i]) -> ~ (S i < P)%nat ->
  expand Ls (l, n, pre ++ [i]) q1 num = (q1, num).
Proof.
  intros Hv Hi. unfold expand. rewrite (np_max_last _ _ Hv), Ls_length.
  replace (i + 1)%nat with (S i) by lia.
  destruct (S i <? P)%nat eqn:E; [apply Nat.ltb_lt in E; lia | reflexivity].
Qed.

Lemma cost_snoc (v : list nat) (j : nat) :
  cost (v ++ [j]) = cost v + fval (at_ Ls j).
Proof. unfold cost. rewrite map_app, sumR_app. simpl. lra. Qed.

Lemma reaches_inf_snoc (v : list nat) (j : nat) :
  reaches_inf (v ++ [j]) = reaches_inf v || negb (isfinite (at_ Ls j)).
Proof. unfold reaches_inf. rewrite existsb_app. simpl. now rewrite orb_false_r. Qed.

Lemma reaches_inf_false (v : list nat) :
  reaches_inf v = false <-> forall j, In j v -> isfinite (at_ Ls j) = true.
Proof.
  unfold reaches_inf. split.
  - intros H j Hj. destruct (isfinite (at_ Ls j)) eqn:E; [reflexivity|].
    assert (existsb (fun j => negb (isfinite (at_ Ls j))) v = true).
    { apply existsb_exists. exists j. now rewrite E. }
    congruence.
  - intros H. destruct (existsb _ v) eqn:E; [|reflexivity].
    apply existsb_exists in E as (j & Hj & Hn). rewrite (H j Hj) in Hn.
    discriminate.
Qed.

(** A node that has children lies before the last position. *)
Lemma inner_node_finite (pre : list nat) (i : nat) :
  incr (pre ++ [i]) -> (S i < P)%nat ->
  reaches_inf (pre ++ [i]) = false /\ reaches_inf pre = false.
Proof.
  intros Hv Hi. apply incr_app_inv in Hv as (_ & _ & H).
  split; apply reaches_inf_false; intros j Hj.
  - apply Ls_inner. apply in_app_iff in Hj as [Hj|[<-|[]]]; [|exact Hi].
    specialize (H j i Hj (or_introl eq_refl)). lia.
  - apply Ls_inner. specialize (H j i Hj (or_introl eq_refl)). lia.
Qed.

Lemma sound_ordered (e : entry) : sound e -> ordered_key e.
Proof.
  unfold sound, ordered_key, ext. intros ->. now destruct (reaches_inf _).
Qed.

(** What [expand] adds keeps the keys equal to the total penalties and not
    below the key of the entry that was removed. *)
Lemma expand_sound (e : entry) (q1 : list entry) (num : nat) :
  wf P (node e) -> sound e ->
  Forall (fun x => sound x /\ fle (key e) (key x)) q1 ->
  Forall (fun x => sound x /\ fle (key e) (key x))
         (fst (expand Ls e q1 num)).
Proof.
  destruct e as [[l n] v]. unfold sound, key, node. cbn [fst snd].
  intros (pre & i & -> & Hv & Hi) Hl Hq.
  destruct (Nat.lt_ge_cases (S i) P) as [Hlt|Hge].
  - rewrite (expand_inner _ _ _ _ _ _ Hv Hlt). cbn [fst].
    destruct (inner_node_finite pre i Hv Hlt) as [Hfv Hfp].
    unfold ext in Hl. rewrite Hfv in Hl. subst l.
    pose proof (Ls_inner i Hlt) as Hi'.
    destruct (at_ Ls i) as [ri| | |] eqn:Ei; try discriminate.
    pose proof (Ls_sorted i (S i) ltac:(lia) Hlt) as Hs. rewrite Ei in Hs.
    assert (Hc : cost (pre ++ [i]) = cost pre + ri).
    { rewrite cost_snoc, Ei. reflexivity. }
    rewrite !Forall_app. split; [exact Hq|].
    destruct (fle_zero_cases _ (Ls_lower (S i) Hlt)) as [(r & Er & Hr)| Er].
    + rewrite Er in Hs |- *. simpl in Hs. split.
      * constructor; [|constructor]. cbn [fst snd]. unfold ext.
        rewrite reaches_inf_snoc, Hfv, Er. cbn [isfinite negb orb fadd].
        rewrite (cost_snoc (pre ++ [i]) (S i)), Er. cbn [fval fle].
        split; [reflexivity | lra].
      * constructor; [|constructor]. cbn [fst snd]. unfold ext.
        rewrite reaches_inf_snoc, Hfp, Er.
        cbn [isfinite negb orb fadd fsub fneg].
        rewrite (cost_snoc pre (S i)), Er, Hc. cbn [fval fle].
        split; [f_equal; lra | lra].
    + rewrite Er. split.
      * constructor; [|constructor]. cbn [fst snd]. unfold ext.
        rewrite reaches_inf_snoc, Hfv, Er. cbn [isfinite negb orb fadd fle].
        split; [reflexivity | exact I].
      * constructor; [|constructor]. cbn [fst snd]. unfold ext.
        rewrite reaches_inf_snoc, Hfp, Er.
        cbn [isfinite negb orb fadd fsub fneg fle].
        split; [reflexivity | exact I].
  - rewrite (expand_leaf _ _ _ _ _ _ Hv) by lia. exact Hq.
Qed.

(** The removed entries carry their total penalties as keys, in ascending
    order. *)
Lemma pops_sorted (k : nat) (q : list entry) (num : nat) (lb : npfloat) :
  wfq P q ->
  Forall (fun x => sound x /\ fle lb (key x)) q ->
  Forall (fun x => sound x /\ fle lb (key x)) (fst (pops Ls k q num)) /\
  StronglySorted fle (map key (fst (pops Ls k q num))).
Proof.
  revert q num lb; induction k as [|k IH]; intros q num lb Hq Hs; simpl.
  - split; constructor.
  - destruct (q_get q) as [[e q1]|] eqn:G; [|split; constructor].
    destruct (q_get_wf P _ _ _ Hq G) as [He Hq1].
    assert (Hord : Forall ordered_key q).
    { eapply Forall_impl; [|exact Hs]. intros x [Hx _]. now apply sound_ordered. }
    pose proof (q_get_least _ _ _ Hord G) as Hleast.
    pose proof (q_get_perm _ _ _ G) as Hperm.
    assert (Hs' : Forall (fun x => sound x /\ fle lb (key x)) (e :: q1)).
    { now rewrite <- Hperm. }
    apply Forall_cons_iff in Hs' as [[Hse Hlb] Hs1].
    assert (Hmin : Forall (fun x => sound x /\ fle (key e) (key x)) q1).
    { apply Forall_forall. intros x Hx.
      rewrite Forall_forall in Hs1, Hleast.
      destruct (Hs1 x Hx) as [Hsx _]. split; [exact Hsx|].
      apply Hleast. apply (Permutation_in _ (Permutation_sym Hperm)). now right. }
    pose proof (expand_sound e q1 num He Hse Hmin) as Hq2s.
    pose proof (expand_wf Ls P Ls_length e q1 num He Hq1) as Hq2.
    destruct (expand Ls e q1 num) as [q2 num2]. simpl in Hq2s, Hq2.
    destruct (IH q2 num2 (key e) Hq2 Hq2s) as [Ha Hb].
    destruct (pops Ls k q2 num2) as [es o]. simpl in *.
    split.
    + constructor; [auto|]. eapply Forall_impl; [|exact Ha].
      intros x [Hx Hc]. split; [exact Hx | now apply (fle_trans _ (key e))].
    + constructor; [exact Hb|].
      apply Forall_forall. intros c Hc. apply in_map_iff in Hc as (x & <- & Hx).
      rewrite Forall_forall in Ha. now apply Ha.
Qed.

End Sorted.

End Keys.

(* ================================================================= *)
(** ** [enumerate_samples] on vectors of one length *)

Module Enum.

Import NumPy NumPyFacts Decode QueueFacts FlipTree Run Keys.
Open Scope R_scope.

(** The pairs [(p_i, not_p_i)]. *)
Definition pq_of (weight : R * R) (acoustic language : list R)
  : list (R * R) :=
  map2 (fun a l => (fst weight * a + snd weight * l,
                    fst weight * (1 - a) + snd weight * (1 - l)))
       acoustic language.

(** The three arrays the generator derives from [p] and [not_p]. *)
Definition v0 (pq : list (R * R)) : list nat :=
  np_where (map (fun ab => Rltb (snd ab) (fst ab)) pq).

Definition l0 (pq : list (R * R)) : npfloat :=
  np_sum (map (fun ab => flogR (Rmax (fst ab) (snd ab))) pq).

Definition pen (pq : list (R * R)) : list npfloat :=
  map (fun ab => fabs (flog (fdiv (fst ab) (snd ab)))) pq.

(** The run of the queue for these arrays. *)
Definition run_of (pq : list (R * R)) (k : nat) : list entry * outcome :=
  let L := pen pq in
  let Ls := map (at_ L) (argsort L) in
  pops Ls k [(at_ Ls 0, 0%nat, [0%nat])] 1.

Lemma broadcast2_same {A B C : Type} (f : A -> B -> C) (a : list A)
    (b : list B) :
  length a = length b -> broadcast2 f a b = Ok (map2 f a b).
Proof. intros H. unfold broadcast2. now rewrite H, Nat.eqb_refl. Qed.

Lemma map2_length {A B C : Type} (f : A -> B -> C) (a : list A) (b : list B) :
  length a = length b -> length (map2 f a b) = length a.
Proof.
  intros H. unfold map2. rewrite length_map, length_combine. lia.
Qed.

Lemma combine_mix (f g f' g' : R -> R) (a l : list R) :
  combine (map2 Rplus (map f a) (map g l)) (map2 Rplus (map f' a) (map g' l))
  = map2 (fun x y => (f x + g y, f' x + g' y)) a l.
Proof.
  revert l; induction a as [|x a IH]; intros [|y l]; try reflexivity.
  unfold map2 in *. simpl. now rewrite IH.
Qed.

Section SameLength.

Variables (acoustic language : list R) (weight : R * R).
Hypothesis same_length : length acoustic = length language.

Let pq := pq_of weight acoustic language.

Lemma pq_length : length pq = length acoustic.
Proof. unfold pq, pq_of. now apply map2_length. Qed.

Lemma mix_p_same :
  mix_p weight acoustic language =
  Ok (map2 Rplus (map (Rmult (fst weight)) acoustic)
                 (map (Rmult (snd weight)) language)).
Proof. apply broadcast2_same. now rewrite !length_map. Qed.

Lemma mix_not_p_same :
  mix_not_p weight acoustic language =
  Ok (map2 Rplus (map (fun a => fst weight * (1 - a)) acoustic)
                 (map (fun l => snd weight * (1 - l)) language)).
Proof. apply broadcast2_same. now rewrite !length_map. Qed.

Lemma mix_pairs :
  combine (map2 Rplus (map (Rmult (fst weight)) acoustic)
                      (map (Rmult (snd weight)) language))
          (map2 Rplus (map (fun a => fst weight * (1 - a)) acoustic)
                      (map (fun l => snd weight * (1 - l)) language))
  = pq.
Proof. apply (combine_mix (Rmult (fst weight)) (Rmult (snd weight))). Qed.

Lemma mix_p_length :
  length (map2 Rplus (map (Rmult (fst weight)) acoustic)
                     (map (Rmult (snd weight)) language)) = length acoustic.
Proof. rewrite map2_length; rewrite !length_map; auto. Qed.

Lemma mix_v0 :
  np_where (map2 (fun a b => Rltb b a)
     (map2 Rplus (map (Rmult (fst weight)) acoustic)
                 (map (Rmult (snd weight)) language))
     (map2 Rplus (map (fun a => fst weight * (1 - a)) acoustic)
                 (map (fun l => snd weight * (1 - l)) language))) = v0 pq.
Proof. unfold map2 at 1. now rewrite mix_pairs. Qed.

Lemma mix_l0 :
  np_sum (map2 (fun a b => flogR (Rmax a b))
     (map2 Rplus (map (Rmult (fst weight)) acoustic)
                 (map (Rmult (snd weight)) language))
     (map2 Rplus (map (fun a => fst weight * (1 - a)) acoustic)
                 (map (fun l => snd weight * (1 - l)) language))) = l0 pq.
Proof. unfold map2 at 1. now rewrite mix_pairs. Qed.

Lemma mix_pen :
  map2 (fun a b => fabs (flog (fdiv a b)))
     (map2 Rplus (map (Rmult (fst weight)) acoustic)
                 (map (Rmult (snd weight)) language))
     (map2 Rplus (map (fun a => fst weight * (1 - a)) acoustic)
                 (map (fun l => snd weight * (1 - l)) language)) = pen pq.
Proof. unfold map2 at 1. now rewrite mix_pairs. Qed.

(** The first element. *)
Lemma enum_first (n : nat) :
  exists ys o,
    enumerate_samples acoustic language weight (S n) = ((l0 pq, v0 pq) :: ys, o).
Proof.
  unfold enumerate_samples. rewrite mix_p_same, mix_not_p_same.
  cbv beta iota zeta. rewrite ?mix_v0, ?mix_l0, ?mix_pen.
  destruct n as [|n]; [eauto|].
  destruct (_ =? 1)%nat; [eauto|].
  destruct (take _ _) as [[|L0 Ls]|e]; eauto.
  destruct (loop _ _ _ _ _ _ _) as [ys o]. eauto.
Qed.

(** With fewer than two pitches the generator stops after the first element:
    on no pitch [L_sorted[0]] is out of range, on one pitch [L] is a scalar. *)
Lemma enum_small (n : nat) :
  (length acoustic < 2)%nat ->
  enumerate_samples acoustic language weight (S (S n)) =
  ([(l0 pq, v0 pq)], Raised IndexError).
Proof.
  intros Hl. unfold enumerate_samples. rewrite mix_p_same, mix_not_p_same.
  cbv beta iota zeta. rewrite ?mix_v0, ?mix_l0, ?mix_pen.
  rewrite mix_p_length.
  destruct (length acoustic =? 1)%nat eqn:E; [reflexivity|].
  apply Nat.eqb_neq in E.
  assert (Hp : pq = []).
  { apply length_zero_iff_nil. rewrite pq_length. lia. }
  rewrite Hp. reflexivity.
Qed.

(** With two pitches or more the generator is the run of the queue. *)
Lemma enum_run (n : nat) :
  (2 <= length acoustic)%nat ->
  enumerate_samples acoustic language weight (S (S n)) =
  ((l0 pq, v0 pq)
     :: map (yield_of (l0 pq) (v0 pq) (argsort (pen pq)))
            (fst (run_of pq (S n))),
   snd (run_of pq (S n))).
Proof.
  intros Hl. unfold enumerate_samples. rewrite mix_p_same, mix_not_p_same.
  cbv beta iota zeta. rewrite ?mix_v0, ?mix_l0, ?mix_pen.
  rewrite mix_p_length.
  destruct (length acoustic =? 1)%nat eqn:E; [apply Nat.eqb_eq in E; lia|].
  rewrite take_argsort.
  assert (HL : length (pen pq) = length acoustic).
  { unfold pen. now rewrite length_map, pq_length. }
  assert (HR : length (argsort (pen pq)) = length acoustic).
  { now rewrite argsort_length. }
  destruct (map (at_ (pen pq)) (argsort (pen pq))) as [|L0 Ls] eqn:EL.
  { apply (f_equal (@length _)) in EL. rewrite length_map, HR in EL.
    simpl in EL. lia. }
  rewrite <- EL.
  assert (E0 : L0 = at_ (map (at_ (pen pq)) (argsort (pen pq))) 0).
  { now rewrite EL. }
  rewrite E0.
  rewrite (loop_pops (l0 pq) (v0 pq) (argsort (pen pq)) _ (length acoustic)).
  - unfold run_of. reflexivity.
  - exact HR.
  - now rewrite length_map.
  - constructor; [|constructor]. simpl.
    exists [], 0%nat. repeat split; [repeat constructor | lia].
Qed.

End SameLength.

End Enum.

(* ================================================================= *)
(** ** The penalties of a frame *)

Module Penalties.

Import NumPy NumPyFacts Decode QueueFacts FlipTree Run Keys Enum.
Open Scope R_scope.

Lemma StronglySorted_nth {A : Type} (r : A -> A -> Prop) (l : list A) (d : A)
    (i j : nat) :
  StronglySorted r l -> (i < j)%nat -> (j < length l)%nat ->
  r (nth i l d) (nth j l d).
Proof.
  intros H. revert i j; induction H as [|x l Hs IH F]; intros i j Hij Hj.
  - simpl in Hj. lia.
  - destruct j as [|j]; [lia|]. simpl in Hj. destruct i as [|i]; simpl.
    + rewrite Forall_forall in F. apply F, nth_In. lia.
    + apply IH; lia.
Qed.

Lemma sort_le_fle (x y : npfloat) :
  isnan x = false -> isnan y = false -> sort_le x y -> fle x y.
Proof.
  unfold sort_le, sort_lt.
  destruct x as [a| | |], y as [b| | |]; simpl; try discriminate; auto.
  rewrite orb_false_r. intros _ _ H.
  destruct (Rlt_dec b a) as [L|L]; [rewrite (Rltb_true _ _ L) in H; discriminate | lra].
Qed.

Lemma at_map (L : list npfloat) (R : list nat) (j : nat) :
  (j < length R)%nat -> at_ (map (at_ L) R) j = at_ L (nth j R 0%nat).
Proof.
  intros H. unfold at_ at 1.
  rewrite (nth_indep _ NaN (at_ L 0%nat)) by now rewrite length_map.
  apply (map_nth (at_ L)).
Qed.

(** The penalty of flipping a pitch with the parts [p] and [not_p]. *)
Definition penalty (ab : R * R) : npfloat :=
  fabs (flog (fdiv (fst ab) (snd ab))).

(** Both parts are probabilities, not both zero. *)
Definition sane (ab : R * R) : Prop :=
  0 <= fst ab /\ 0 <= snd ab /\ 0 < fst ab + snd ab.

(** Neither part is zero. *)
Definition open_ (ab : R * R) : Prop := 0 < fst ab /\ 0 < snd ab.

Lemma penalty_open (ab : R * R) :
  open_ ab -> penalty ab = Fin (Rabs (ln (fst ab / snd ab))).
Proof.
  intros [Hp Hq]. unfold penalty. rewrite fdiv_fin by lra. simpl.
  rewrite flogR_pos; [reflexivity|]. now apply Rdiv_lt_0_compat.
Qed.

Lemma penalty_certain (ab : R * R) :
  sane ab -> ~ open_ ab -> penalty ab = PInf.
Proof.
  intros (Hp & Hq & Hs) Hn. unfold penalty, fdiv.
  destruct (Req_dec_T (snd ab) 0) as [E|E].
  - rewrite (Reqb_true _ _ E), Rltb_true by lra. reflexivity.
  - rewrite (Reqb_false _ _ E).
    assert (E0 : fst ab = 0).
    { destruct (Req_dec_T (fst ab) 0) as [E0|E0]; [exact E0|].
      exfalso. apply Hn. unfold open_. lra. }
    rewrite E0. replace (0 / snd ab) with 0 by (field; exact E).
    simpl. now rewrite flogR_zero.
Qed.

Lemma penalty_cases (ab : R * R) :
  sane ab ->
  (open_ ab /\ penalty ab = Fin (Rabs (ln (fst ab / snd ab)))) \/
  (~ open_ ab /\ penalty ab = PInf).
Proof.
  intros Hs.
  destruct (Rlt_dec 0 (fst ab)) as [Hp|Hp], (Rlt_dec 0 (snd ab)) as [Hq|Hq];
    [left; split; [split; assumption | now apply penalty_open] | | |];
    right; (split; [unfold open_; tauto | apply penalty_certain; [exact Hs|]]);
    unfold open_; tauto.
Qed.

Section Pairs.

Variable pq : list (R * R).

Let P := length pq.

(** Every pair is sane, and all pairs but at most one (the pitch [d]) are
    open. *)
Hypothesis all_sane : Forall sane pq.
Variable d : nat.
Hypothesis others_open :
  forall i, (i < P)%nat -> i <> d -> open_ (nth i pq (1, 1)).

(** The flip penalties as real numbers (of an open pitch). *)
Definition labs : list R := map (fun ab => Rabs (ln (fst ab / snd ab))) pq.

Lemma labs_length : length labs = P.
Proof. unfold labs. apply length_map. Qed.

Lemma nth_labs (i : nat) :
  (i < P)%nat ->
  nth i labs 0 =
  Rabs (ln (fst (nth i pq (1, 1)) / snd (nth i pq (1, 1)))).
Proof.
  intros Hi. unfold labs.
  rewrite (nth_indep _ 0 (Rabs (ln (fst (1, 1) / snd (1, 1)))))
    by (rewrite length_map; exact Hi).
  now rewrite (map_nth (fun ab => Rabs (ln (fst ab / snd ab)))).
Qed.

Lemma pen_length : length (pen pq) = P.
Proof. unfold pen. apply length_map. Qed.

Lemma at_pen (i : nat) :
  (i < P)%nat -> at_ (pen pq) i = penalty (nth i pq (1, 1)).
Proof.
  intros Hi. unfold at_, pen.
  rewrite (nth_indep _ NaN (penalty (1, 1))) by (rewrite length_map; exact Hi).
  exact (map_nth penalty pq (1, 1) i).
Qed.

Lemma nth_sane (i : nat) : (i < P)%nat -> sane (nth i pq (1, 1)).
Proof.
  intros Hi. rewrite Forall_forall in all_sane. apply all_sane, nth_In, Hi.
Qed.

Lemma at_pen_cases (i : nat) :
  (i < P)%nat ->
  (open_ (nth i pq (1, 1)) /\ at_ (pen pq) i = Fin (nth i labs 0)) \/
  (~ open_ (nth i pq (1, 1)) /\ at_ (pen pq) i = PInf).
Proof.
  intros Hi. rewrite (at_pen i Hi), (nth_labs i Hi).
  apply penalty_cases, nth_sane, Hi.
Qed.

Lemma at_pen_lower (i : nat) : (i < P)%nat -> fle (Fin 0) (at_ (pen pq) i).
Proof.
  intros Hi. destruct (at_pen_cases i Hi) as [[_ E]|[_ E]]; rewrite E; simpl;
    [|exact I].
  rewrite (nth_labs i Hi). apply Rabs_pos.
Qed.

(** The sorted penalties. *)
Definition Rs : list nat := argsort (pen pq).
Definition Ls : list npfloat := map (at_ (pen pq)) Rs.

Lemma order_length : length Rs = P.
Proof. unfold Rs. now rewrite argsort_length, pen_length. Qed.

Lemma order_lt (j : nat) : (j < P)%nat -> (nth j Rs 0 < P)%nat.
Proof.
  intros Hj. rewrite <- pen_length. apply argsort_lt.
  apply nth_In. fold Rs. now rewrite order_length.
Qed.

Lemma order_inj (i j : nat) :
  (i < P)%nat -> (j < P)%nat -> nth i Rs 0%nat = nth j Rs 0%nat -> i = j.
Proof.
  intros Hi Hj E.
  apply (proj1 (NoDup_nth Rs 0%nat) (argsort_NoDup (pen pq)));
    rewrite ?order_length; auto.
Qed.

Lemma sorted_length : length Ls = P.
Proof. unfold Ls. rewrite length_map. apply order_length. Qed.

Lemma at_Ls (j : nat) :
  (j < P)%nat -> at_ Ls j = at_ (pen pq) (nth j Rs 0%nat).
Proof. intros Hj. apply at_map. now rewrite order_length. Qed.

Lemma sorted_lower (j : nat) : (j < P)%nat -> fle (Fin 0) (at_ Ls j).
Proof.
  intros Hj. rewrite (at_Ls j Hj). apply at_pen_lower, order_lt, Hj.
Qed.

Lemma fle_zero_ordered (x : npfloat) : fle (Fin 0) x -> isnan x = false.
Proof. destruct x; simpl; intros; try contradiction; reflexivity. Qed.

Lemma sorted_ascending (i j : nat) :
  (i <= j)%nat -> (j < P)%nat -> fle (at_ Ls i) (at_ Ls j).
Proof.
  intros Hij Hj.
  destruct (Nat.eq_dec i j) as [->|N].
  - apply fle_refl, fle_zero_ordered, sorted_lower, Hj.
  - apply sort_le_fle; try (apply fle_zero_ordered, sorted_lower; lia).
    rewrite !at_Ls by lia.
    apply (StronglySorted_nth (key_le (pen pq)) Rs 0%nat i j);
      [apply argsort_sorted | lia | now rewrite order_length].
Qed.

(** Only the last sorted penalty can be infinite. *)
Lemma sorted_inner (j : nat) : (S j < P)%nat -> isfinite (at_ Ls j) = true.
Proof.
  intros Hj.
  destruct (at_ Ls j) as [r| | |] eqn:Ej; try reflexivity; exfalso.
  - (* +inf before the end: the last one is +inf as well *)
    pose proof (sorted_ascending j (P - 1) ltac:(lia) ltac:(lia)) as Hs.
    pose proof (sorted_lower (P - 1) ltac:(lia)) as Hl.
    rewrite Ej in Hs.
    destruct (at_ Ls (P - 1)) as [r'| | |] eqn:El; simpl in Hs, Hl;
      try contradiction.
    rewrite (at_Ls j) in Ej by lia. rewrite (at_Ls (P - 1)) in El by lia.
    assert (Ha : (nth j Rs 0 < P)%nat) by (apply order_lt; lia).
    assert (Hb : (nth (P - 1) Rs 0 < P)%nat) by (apply order_lt; lia).
    assert (Hda : nth j Rs 0%nat = d).
    { destruct (Nat.eq_dec (nth j Rs 0%nat) d) as [E|N]; [exact E|].
      destruct (at_pen_cases _ Ha) as [[_ E]|[Ho _]]; [congruence|].
      destruct (Ho (others_open _ Ha N)). }
    assert (Hdb : nth (P - 1) Rs 0%nat = d).
    { destruct (Nat.eq_dec (nth (P - 1) Rs 0%nat) d) as [E|N]; [exact E|].
      destruct (at_pen_cases _ Hb) as [[_ E]|[Ho _]]; [congruence|].
      destruct (Ho (others_open _ Hb N)). }
    assert (j = (P - 1)%nat) by (apply order_inj; try lia; congruence).
    lia.
  - pose proof (sorted_lower j ltac:(lia)) as Hl. rewrite Ej in Hl. exact Hl.
  - pose proof (sorted_lower j ltac:(lia)) as Hl. rewrite Ej in Hl. exact Hl.
Qed.

(** The start of the queue. *)
Lemma start_sound :
  (0 < P)%nat ->
  Forall (fun x => sound Ls x /\ fle (Fin 0) (key x))
         [(at_ Ls 0, 0%nat, [0%nat])].
Proof.
  intros Hl. constructor; [|constructor]. unfold sound, key, node. cbn [fst snd].
  split; [|now apply sorted_lower].
  unfold ext, reaches_inf, cost. cbn [existsb map].
  destruct (fle_zero_cases _ (sorted_lower 0 Hl)) as [(r & -> & _)| ->]; simpl;
    [f_equal; lra | reflexivity].
Qed.

Lemma start_wf :
  (0 < P)%nat -> wfq P [(at_ Ls 0, 0%nat, [0%nat])].
Proof.
  intros Hl. constructor; [|constructor]. simpl.
  exists [], 0%nat. repeat split; [repeat constructor | exact Hl].
Qed.

(** The removed entries carry the total penalty of their flip set, in
    ascending order. *)
Lemma run_sorted (k : nat) :
  (0 < P)%nat ->
  Forall (fun x => sound Ls x /\ fle (Fin 0) (key x)) (fst (run_of pq k)) /\
  StronglySorted fle (map key (fst (run_of pq k))).
Proof.
  intros Hl. unfold run_of. fold Rs. fold Ls.
  apply (pops_sorted Ls P sorted_length sorted_lower sorted_ascending sorted_inner).
  - now apply start_wf.
  - now apply start_sound.
Qed.

End Pairs.

End Penalties.
(* ================================================================= *)
(** ** The score of a sample *)

Module Score.

Import NumPy NumPyFacts Decode QueueFacts FlipTree Run Keys Enum Penalties.
Open Scope R_scope.

Lemma sumR_perm (l l' : list R) : Permutation l l' -> sumR l = sumR l'.
Proof. induction 1; simpl; lra. Qed.

Lemma sumR_map_ext {A : Type} (f g : A -> R) (l : list A) :
  (forall x, In x l -> f x = g x) -> sumR (map f l) = sumR (map g l).
Proof. intros H. f_equal. now apply map_ext_in. Qed.

Lemma sumR_map_minus {A : Type} (f g : A -> R) (l : list A) :
  sumR (map (fun x => f x - g x) l) = sumR (map f l) - sumR (map g l).
Proof. induction l as [|x l IH]; simpl; [lra | rewrite IH; lra]. Qed.

Lemma sumR_filter {A : Type} (c : A -> bool) (g : A -> R) (l : list A) :
  sumR (map (fun x => if c x then g x else 0) l) = sumR (map g (filter c l)).
Proof.
  induction l as [|x l IH]; simpl; [reflexivity|].
  destruct (c x); simpl; rewrite IH; lra.
Qed.

(** A sum over distinct indices below [P] is a sum over all indices below
    [P] with the others masked. *)
Lemma sumR_indicator (g : nat -> R) (F : list nat) (P : nat) :
  NoDup F -> (forall i, In i F -> (i < P)%nat) ->
  sumR (map g F) =
  sumR (map (fun i => if mem i F then g i else 0) (seq 0 P)).
Proof.
  intros Hn Hlt. rewrite sumR_filter. apply sumR_perm, Permutation_map.
  apply NoDup_Permutation; [exact Hn | apply NoDup_filter, seq_NoDup |].
  intros x. rewrite filter_In, in_seq, mem_In. split.
  - intros Hx. split; [|exact Hx]. specialize (Hlt x Hx). lia.
  - tauto.
Qed.

Lemma combine_seq {A B : Type} (g : nat -> A) (d : B) (l : list B) (a : nat) :
  combine (map g (seq a (length l))) l =
  map (fun i => (g i, nth (i - a) l d)) (seq a (length l)).
Proof.
  revert a; induction l as [|x l IH]; intros a; simpl; [reflexivity|].
  rewrite Nat.sub_diag. f_equal. rewrite IH. apply map_ext_in.
  intros i Hi. apply in_seq in Hi.
  replace (i - a)%nat with (S (i - S a)) by lia. reflexivity.
Qed.

Lemma map_nth_seq_from {A : Type} (d : A) (l : list A) (a : nat) :
  map (fun i => nth (i - a) l d) (seq a (length l)) = l.
Proof.
  revert a; induction l as [|x l IH]; intros a; simpl; [reflexivity|].
  rewrite Nat.sub_diag. f_equal. rewrite <- (IH (S a)) at 2.
  apply map_ext_in. intros i Hi. apply in_seq in Hi.
  replace (i - a)%nat with (S (i - S a)) by lia. reflexivity.
Qed.

Lemma map_nth_seq {A : Type} (d : A) (l : list A) :
  map (fun i => nth i l d) (seq 0 (length l)) = l.
Proof.
  rewrite <- (map_nth_seq_from d l 0) at 2. apply map_ext.
  intros i. now rewrite Nat.sub_0_r.
Qed.

Lemma ln_ratio (p q : R) : 0 < p -> 0 < q -> ln (p / q) = ln p - ln q.
Proof.
  intros Hp Hq. unfold Rdiv. rewrite ln_mult; [|exact Hp|now apply Rinv_0_lt_compat].
  rewrite ln_Rinv by exact Hq. lra.
Qed.

Lemma ln_mono (p q : R) : 0 < p -> p <= q -> ln p <= ln q.
Proof.
  intros Hp [Hlt| ->]; [|lra]. left. now apply ln_increasing.
Qed.

(** The greedy term less the penalty of a flip is the term of the other
    choice. *)
Lemma flip_term (p q : R) (flipped : bool) :
  0 < p -> 0 < q ->
  ln (Rmax p q) - (if flipped then Rabs (ln (p / q)) else 0) =
  if xorb (Rltb q p) flipped then ln p else ln q.
Proof.
  intros Hp Hq. rewrite ln_ratio by assumption.
  unfold Rltb, Rmax. destruct (Rlt_dec q p) as [L|L], (Rle_dec p q) as [M|M];
    try lra; destruct flipped; simpl; try lra.
  - pose proof (ln_mono q p Hq ltac:(lra)). rewrite Rabs_right; lra.
  - pose proof (ln_mono p q Hp M). rewrite Rabs_left1; lra.
Qed.

(** A value [np.log] gives on a probability: finite or [-inf]. *)
Definition log_like (x : npfloat) : Prop := x = NInf \/ exists r, x = Fin r.

Lemma flogR_log_like (x : R) : 0 <= x -> log_like (flogR x).
Proof.
  intros [H|H].
  - right. exists (ln x). now apply flogR_pos.
  - left. rewrite <- H. apply flogR_zero.
Qed.

Lemma np_sum_log_like (l : list npfloat) :
  Forall log_like l -> log_like (np_sum l).
Proof.
  induction 1 as [|x l Hx _ IH]; simpl.
  - right. now exists 0.
  - destruct Hx as [->|[a ->]], IH as [->|[b ->]]; simpl;
      [now left | now left | now left | right; now exists (a + b)].
Qed.

(** One [-inf] among such values makes their sum [-inf]. *)
Lemma np_sum_ninf (l : list npfloat) :
  Forall log_like l -> In NInf l -> np_sum l = NInf.
Proof.
  induction 1 as [|x l Hx Hl IH]; intros Hin; [destruct Hin|].
  simpl. pose proof (np_sum_log_like l Hl) as Hs.
  destruct Hin as [->|Hin].
  - destruct Hs as [->|[b ->]]; reflexivity.
  - rewrite (IH Hin). destruct Hx as [->|[a ->]]; reflexivity.
Qed.

Section Pairs.

Variable pq : list (R * R).

Let P := length pq.

(** The log-probability of a set of active pitches, pitch by pitch. *)
Definition term (sample : list nat) (i : nat) : npfloat :=
  if mem i sample
  then flogR (fst (nth i pq (1, 1)))
  else flogR (snd (nth i pq (1, 1))).

Definition score (sample : list nat) : npfloat :=
  np_sum (map (term sample) (seq 0 P)).

(** The greedy score as a real number. *)
Definition greedy : R :=
  sumR (map (fun ab => ln (Rmax (fst ab) (snd ab))) pq).

Lemma mem_v0 (i : nat) :
  (i < P)%nat ->
  mem i (v0 pq) = Rltb (snd (nth i pq (1, 1))) (fst (nth i pq (1, 1))).
Proof.
  intros Hi. apply eq_true_iff_eq. rewrite mem_In. unfold v0.
  rewrite np_where_In.
  rewrite (nth_indep _ false (Rltb (snd (1, 1)) (fst (1, 1))))
    by (rewrite length_map; exact Hi).
  now rewrite (map_nth (fun ab => Rltb (snd ab) (fst ab))).
Qed.

Lemma mem_flip (F : list nat) (i : nat) :
  (i < P)%nat ->
  mem i (setxor1d (v0 pq) F) =
  xorb (Rltb (snd (nth i pq (1, 1))) (fst (nth i pq (1, 1)))) (mem i F).
Proof.
  intros Hi. rewrite <- (mem_v0 i Hi). apply eq_true_iff_eq.
  rewrite mem_In, setxor1d_In.
  destruct (mem i (v0 pq)) eqn:Ea, (mem i F) eqn:Eb; simpl;
    try (apply mem_In in Ea); try (apply mem_In in Eb);
    try (assert (~ In i (v0 pq)) by (rewrite <- mem_In; congruence));
    try (assert (~ In i F) by (rewrite <- mem_In; congruence));
    intuition congruence.
Qed.

Hypothesis all_sane : Forall sane pq.

Lemma sane_at (i : nat) : sane (nth i pq (1, 1)).
Proof.
  destruct (Nat.lt_ge_cases i (length pq)) as [L|G].
  - rewrite Forall_forall in all_sane. apply all_sane, nth_In, L.
  - rewrite nth_overflow by exact G. unfold sane. simpl. lra.
Qed.

Lemma term_log_like (S : list nat) (i : nat) : log_like (term S i).
Proof.
  destruct (sane_at i) as (Hp & Hq & _). unfold term.
  destruct (mem i S); now apply flogR_log_like.
Qed.

Lemma l0_greedy : l0 pq = Fin greedy.
Proof.
  unfold l0, greedy. rewrite <- np_sum_fin, map_map. f_equal.
  apply map_ext_in. intros ab Hab.
  rewrite Forall_forall in all_sane. destruct (all_sane ab Hab) as (Hp & Hq & Hs).
  apply flogR_pos. unfold Rmax. destruct (Rle_dec (fst ab) (snd ab)); lra.
Qed.

(** The term of a pitch that is left as the greedy sample has it, or is
    flipped and open. *)
Lemma term_open (F : list nat) (i : nat) :
  (i < P)%nat -> (mem i F = true -> open_ (nth i pq (1, 1))) ->
  term (setxor1d (v0 pq) F) i =
  Fin (ln (Rmax (fst (nth i pq (1, 1))) (snd (nth i pq (1, 1)))) -
       (if mem i F then nth i (labs pq) 0 else 0)).
Proof.
  intros Hi Ho. unfold term. rewrite (mem_flip F i Hi).
  destruct (sane_at i) as (Hp & Hq & Hs).
  destruct (mem i F) eqn:Em.
  - destruct (Ho eq_refl) as [Hp' Hq'].
    rewrite (nth_labs pq i Hi), (flip_term _ _ true Hp' Hq').
    destruct (xorb _ true); now rewrite flogR_pos.
  - rewrite xorb_false_r, Rminus_0_r. unfold Rltb, Rmax.
    destruct (Rlt_dec (snd (nth i pq (1, 1))) (fst (nth i pq (1, 1)))) as [L|L],
             (Rle_dec (fst (nth i pq (1, 1))) (snd (nth i pq (1, 1)))) as [M|M];
      try lra; apply flogR_pos; lra.
Qed.

(** The term of a flipped pitch one of whose parts is zero. *)
Lemma term_certain (F : list nat) (i : nat) :
  (i < P)%nat -> In i F -> ~ open_ (nth i pq (1, 1)) ->
  term (setxor1d (v0 pq) F) i = NInf.
Proof.
  intros Hi Hin Hn. unfold term. rewrite (mem_flip F i Hi).
  rewrite (proj2 (mem_In i F) Hin).
  destruct (sane_at i) as (Hp & Hq & Hs). unfold open_ in Hn.
  destruct (Rlt_dec (snd (nth i pq (1, 1))) (fst (nth i pq (1, 1)))) as [L|L].
  - rewrite (Rltb_true _ _ L). simpl.
    replace (snd (nth i pq (1, 1))) with 0 by lra. apply flogR_zero.
  - rewrite Rltb_false by lra. simpl.
    replace (fst (nth i pq (1, 1))) with 0 by lra. apply flogR_zero.
Qed.

(** Flipping open pitches [F] of the greedy sample costs their penalties. *)
Lemma flip_score_open (F : list nat) :
  NoDup F -> (forall i, In i F -> (i < P)%nat) ->
  (forall i, In i F -> open_ (nth i pq (1, 1))) ->
  score (setxor1d (v0 pq) F) =
  Fin (greedy - sumR (map (fun i => nth i (labs pq) 0) F)).
Proof.
  intros Hn Hlt Ho. unfold score.
  rewrite (map_ext_in _
    (fun i => Fin (ln (Rmax (fst (nth i pq (1, 1))) (snd (nth i pq (1, 1)))) -
                   (if mem i F then nth i (labs pq) 0 else 0)))).
  - rewrite <- (map_map _ Fin), np_sum_fin. f_equal.
    rewrite sumR_map_minus, <- (sumR_indicator _ F P Hn Hlt).
    f_equal. unfold greedy.
    rewrite <- (map_map (fun i => nth i pq (1, 1))
                        (fun ab => ln (Rmax (fst ab) (snd ab)))).
    unfold P. now rewrite map_nth_seq.
  - intros i Hi. apply in_seq in Hi. apply term_open; [lia|].
    intros Hm. apply Ho, mem_In, Hm.
Qed.

(** Flipping a pitch one of whose parts is zero gives probability zero. *)
Lemma flip_score_certain (F : list nat) (c : nat) :
  (c < P)%nat -> In c F -> ~ open_ (nth c pq (1, 1)) ->
  score (setxor1d (v0 pq) F) = NInf.
Proof.
  intros Hc Hin Hn. unfold score. apply np_sum_ninf.
  - apply Forall_forall. intros x Hx.
    apply in_map_iff in Hx as (i & <- & _). apply term_log_like.
  - rewrite <- (term_certain F c Hc Hin Hn). apply in_map, in_seq. lia.
Qed.

Lemma l0_score : l0 pq = score (v0 pq).
Proof.
  rewrite l0_greedy.
  rewrite <- (setxor1d_nil_r (v0 pq)) by apply where_from_incr.
  rewrite (flip_score_open []); [f_equal; simpl; lra | constructor | |];
    intros i [].
Qed.

End Pairs.

End Score.
(* ================================================================= *)
(** ** [get_log_prob] on vectors of one length *)

Module LogProb.

Import NumPy NumPyFacts Decode QueueFacts FlipTree Run Keys Enum Penalties Score.
Open Scope R_scope.

Lemma combine_map2 {A B C D : Type} (f : A -> C) (g : B -> D) (a : list A)
    (b : list B) :
  combine (map f a) (map g b) =
  map (fun ab => (f (fst ab), g (snd ab))) (combine a b).
Proof.
  revert b; induction a as [|x a IH]; intros [|y b]; simpl; try reflexivity.
  now rewrite IH.
Qed.

Lemma binarize_ok (P : nat) (sample : list nat) :
  (forall i, In i sample -> (i < P)%nat) ->
  binarize P sample = Ok (map (fun i => mem i sample) (seq 0 P)).
Proof.
  intros H. unfold binarize.
  destruct (forallb (fun i => (i <? P)%nat) sample) eqn:E; [reflexivity|].
  assert (E' : forallb (fun i => (i <? P)%nat) sample = true).
  { apply forallb_forall. intros i Hi. apply Nat.ltb_lt. auto. }
  congruence.
Qed.

Section SameLength.

Variables (acoustic language : list R) (weight : R * R).
Hypothesis same_length : length acoustic = length language.

Let pq := pq_of weight acoustic language.
Let P := length acoustic.

(** The score computed by [get_log_prob] for a binary vector of the length
    of the frame. *)
Lemma get_log_prob_same (b : list bool) :
  length b = P ->
  get_log_prob b acoustic language weight =
  Ok (np_sum (map2 (fun (s : bool) (xy : npfloat * npfloat) =>
                      if s then fst xy else snd xy)
                   b (map (fun ab => (flogR (fst ab), flogR (snd ab))) pq))).
Proof.
  intros Hb. unfold get_log_prob.
  rewrite (mix_p_same _ _ _ same_length), (mix_not_p_same _ _ _ same_length).
  simpl. rewrite combine_map2, (mix_pairs acoustic language weight). fold pq.
  rewrite broadcast2_same; [reflexivity|].
  rewrite length_map. unfold pq. rewrite (pq_length _ _ _ same_length).
  exact Hb.
Qed.

Lemma get_log_prob_score (sample : list nat) :
  get_log_prob (map (fun i => mem i sample) (seq 0 P))
               acoustic language weight =
  Ok (score pq sample).
Proof.
  rewrite get_log_prob_same by (now rewrite length_map, length_seq).
  f_equal. unfold score. f_equal.
  assert (HP : P = length (map (fun ab => (flogR (fst ab), flogR (snd ab))) pq)).
  { rewrite length_map. unfold pq, P. now rewrite (pq_length _ _ _ same_length). }
  unfold map2. rewrite HP at 1.
  rewrite (combine_seq _ (flogR (fst (1, 1)), flogR (snd (1, 1)))).
  rewrite <- HP. rewrite !map_map.
  replace (length pq) with P
    by (unfold pq, P; now rewrite (pq_length _ _ _ same_length)).
  apply map_ext. intros i. rewrite Nat.sub_0_r. cbn [fst snd].
  rewrite (map_nth (fun ab => (flogR (fst ab), flogR (snd ab))) pq (1, 1)).
  unfold term. cbn [fst snd]. destruct (mem i sample); reflexivity.
Qed.

End SameLength.

End LogProb.

(* ================================================================= *)
(** ** What [enumerate_samples] yields *)

Module Yields.

Import NumPy NumPyFacts Decode QueueFacts FlipTree Run Keys Enum Penalties Score
       LogProb.
Open Scope R_scope.

Lemma NoDup_map_in {A B : Type} (f : A -> B) (l : list A) :
  NoDup l -> (forall x y, In x l -> In y l -> f x = f y -> x = y) ->
  NoDup (map f l).
Proof.
  induction 1 as [|x l Hx Hn IH]; intros Hf; simpl; constructor.
  - intros Hin. apply in_map_iff in Hin as (y & E & Hy).
    assert (y = x) by (apply Hf; simpl; auto). now subst.
  - apply IH. intros; apply Hf; simpl; auto.
Qed.

(** The pitches an index array of positions of [R] selects. *)
Definition pick (R v : list nat) : list nat := map (fun j => nth j R 0%nat) v.

Section Flips.

Variable pq : list (R * R).

Let P := length pq.
Let Rs := argsort (pen pq).

Lemma Rs_length : length Rs = P.
Proof. unfold Rs, P. rewrite argsort_length. unfold pen. apply length_map. Qed.

Lemma pick_lt (v : list nat) (i : nat) :
  (forall j, In j v -> (j < P)%nat) -> In i (pick Rs v) -> (i < P)%nat.
Proof.
  intros Hv Hi. apply in_map_iff in Hi as (j & <- & Hj).
  assert (In (nth j Rs 0%nat) Rs) by (apply nth_In; rewrite Rs_length; auto).
  unfold Rs in *. apply argsort_lt in H. unfold pen in H.
  now rewrite length_map in H.
Qed.

Lemma pick_NoDup (v : list nat) :
  NoDup v -> (forall j, In j v -> (j < P)%nat) -> NoDup (pick Rs v).
Proof.
  intros Hn Hv. apply NoDup_map_in; [exact Hn|].
  intros x y Hx Hy E.
  pose proof (proj1 (NoDup_nth Rs 0%nat) (argsort_NoDup (pen pq))) as Hi.
  apply Hi; [rewrite Rs_length; auto | rewrite Rs_length; auto | exact E].
Qed.

Lemma pick_In (v : list nat) (j : nat) :
  (forall x, In x v -> (x < P)%nat) -> (j < P)%nat ->
  In (nth j Rs 0%nat) (pick Rs v) <-> In j v.
Proof.
  intros Hv Hj. unfold pick. rewrite in_map_iff. split.
  - intros (x & E & Hx).
    pose proof (proj1 (NoDup_nth Rs 0%nat) (argsort_NoDup (pen pq))) as Hi.
    assert (x = j); [|now subst].
    apply Hi; [rewrite Rs_length; auto | rewrite Rs_length; auto | exact E].
  - intros H. now exists j.
Qed.

(** The sample a flip set stands for. *)
Definition sample_of (v : list nat) : list nat :=
  setxor1d (v0 pq) (pick Rs v).

Lemma v0_lt (i : nat) : In i (v0 pq) -> (i < P)%nat.
Proof.
  intros H. unfold v0 in H. apply np_where_lt in H.
  now rewrite length_map in H.
Qed.

Lemma v0_incr : incr (v0 pq).
Proof. apply where_from_incr. Qed.

Lemma sample_of_nil : sample_of [] = v0 pq.
Proof. unfold sample_of. simpl. apply setxor1d_nil_r, v0_incr. Qed.

Lemma sample_of_lt (v : list nat) (i : nat) :
  (forall j, In j v -> (j < P)%nat) -> In i (sample_of v) -> (i < P)%nat.
Proof.
  intros Hv Hi. unfold sample_of in Hi. apply setxor1d_In in Hi.
  destruct Hi as [[Hi _]|[_ Hi]]; [now apply v0_lt | now apply (pick_lt v)].
Qed.

(** Different flip sets stand for different samples. *)
Lemma sample_of_inj (v w : list nat) :
  incr v -> incr w ->
  (forall j, In j v -> (j < P)%nat) -> (forall j, In j w -> (j < P)%nat) ->
  sample_of v = sample_of w -> v = w.
Proof.
  intros Iv Iw Hv Hw E. apply incr_ext; [exact Iv | exact Iw |].
  assert (Hpick : forall x, In x (pick Rs v) <-> In x (pick Rs w)).
  { intros x.
    assert (Hx : In x (sample_of v) <-> In x (sample_of w)) by now rewrite E.
    unfold sample_of in Hx. rewrite !setxor1d_In in Hx.
    destruct (in_dec Nat.eq_dec x (v0 pq)), (in_dec Nat.eq_dec x (pick Rs v)),
             (in_dec Nat.eq_dec x (pick Rs w)); tauto. }
  intros j. split; intros Hj.
  - apply (pick_In w j Hw (Hv j Hj)), Hpick, (pick_In v j Hv (Hv j Hj)), Hj.
  - apply (pick_In v j Hv (Hw j Hj)), Hpick, (pick_In w j Hw (Hw j Hj)), Hj.
Qed.

(** The samples of all flip sets are all the sets of pitches. *)
Lemma samples_all :
  Permutation (map sample_of (subs (seq 0 P))) (subs (seq 0 P)).
Proof.
  apply NoDup_Permutation_bis.
  - apply NoDup_map_in; [apply subs_NoDup, seq_NoDup|].
    intros v w Hv Hw. apply subs_sound in Hv, Hw; try apply incr_seq.
    destruct Hv as [Iv Hv], Hw as [Iw Hw].
    apply sample_of_inj; auto; intros j Hj.
    + apply Hv, in_seq in Hj. lia.
    + apply Hw, in_seq in Hj. lia.
  - now rewrite length_map.
  - intros s Hs. apply in_map_iff in Hs as (v & <- & Hv).
    apply subs_sound in Hv as [Iv Hv]; [|apply incr_seq].
    apply subs_complete; [apply incr_seq | apply setxor1d_incr |].
    intros x Hx. apply in_seq. split; [lia|]. simpl.
    apply (sample_of_lt v); [|exact Hx].
    intros j Hj. apply Hv, in_seq in Hj. lia.
Qed.

(** *** The run of the queue *)

Lemma sorted_pen_length : length (map (at_ (pen pq)) Rs) = P.
Proof. rewrite length_map. apply Rs_length. Qed.

Lemma run_perm (k : nat) :
  (0 < P)%nat ->
  exists rest,
    Permutation (map node (fst (run_of pq k)) ++ rest) (ne (seq 0 P)) /\
    (snd (run_of pq k) = Exhausted -> rest = []) /\
    (snd (run_of pq k) = Suspended -> length (fst (run_of pq k)) = k) /\
    (forall e, snd (run_of pq k) <> Raised e).
Proof.
  intros HP. unfold run_of. fold Rs.
  destruct (pops_perm (map (at_ (pen pq)) Rs) P sorted_pen_length k
              [(at_ (map (at_ (pen pq)) Rs) 0, 0%nat, [0%nat])] 1)
    as (rest & Hp & H).
  - constructor; [|constructor]. simpl.
    exists [], 0%nat. repeat split; [repeat constructor | exact HP].
  - exists rest. split; [|exact H].
    unfold below in Hp. cbn [flat_map] in Hp. rewrite app_nil_r in Hp.
    change (node (at_ (map (at_ (pen pq)) Rs) 0, 0%nat, [0%nat]))
      with [0%nat] in Hp.
    now rewrite desc_root in Hp.
Qed.

Lemma run_node (k : nat) (e : entry) :
  (0 < P)%nat -> In e (fst (run_of pq k)) ->
  incr (node e) /\ (forall j, In j (node e) -> (j < P)%nat).
Proof.
  intros HP He. destruct (run_perm k HP) as (rest & Hp & _).
  assert (Hin : In (node e) (ne (seq 0 P))).
  { apply (Permutation_in _ Hp), in_app_iff. left. now apply in_map. }
  split; [apply (ne_incr (seq 0 P)); [apply incr_seq | exact Hin]|].
  intros j Hj. apply ne_In in Hin as [_ Hin]. apply Hin, in_seq in Hj. lia.
Qed.

Lemma run_exhausted (k : nat) :
  (0 < P)%nat -> (2 ^ P <= k)%nat -> snd (run_of pq k) = Exhausted.
Proof.
  intros HP Hk. destruct (run_perm k HP) as (rest & Hp & _ & Hsu & Hra).
  destruct (snd (run_of pq k)) eqn:E; [|reflexivity|now destruct (Hra e)].
  exfalso. specialize (Hsu eq_refl). apply Permutation_length in Hp.
  rewrite length_app, length_map in Hp.
  pose proof (ne_length (seq 0 P)) as Hl. rewrite length_seq in Hl. lia.
Qed.

End Flips.

End Yields.

(* ================================================================= *)
(** ** The elements of an enumeration *)

Module Elements.

Import NumPy NumPyFacts Decode QueueFacts FlipTree Run Keys Enum Penalties Score
       LogProb Yields.
Open Scope R_scope.

(** The weight sums to one and both parts are shares. *)
Definition normalized (weight : R * R) : Prop :=
  0 <= fst weight /\ 0 <= snd weight /\ fst weight + snd weight = 1.

(** Entries are probabilities. *)
Definition probabilities (a : list R) : Prop :=
  Forall (fun x => 0 <= x <= 1) a.

(** Every combined probability [p_i] lies strictly between 0 and 1. *)
Definition interior (weight : R * R) (acoustic language : list R) : Prop :=
  Forall (fun ab => 0 < fst ab < 1) (pq_of weight acoustic language).

(** Later elements are not larger than earlier ones. *)
Definition non_increasing (l : list npfloat) : Prop :=
  StronglySorted (fun x y => fle y x) l.

Lemma pq_sum (weight : R * R) (acoustic language : list R) (ab : R * R) :
  In ab (pq_of weight acoustic language) ->
  fst ab + snd ab = fst weight + snd weight.
Proof.
  unfold pq_of, map2. intros H. apply in_map_iff in H as ([a l] & <- & _).
  simpl. lra.
Qed.

Lemma interior_positive (weight : R * R) (acoustic language : list R) :
  fst weight + snd weight = 1 -> interior weight acoustic language ->
  Forall (fun ab => 0 < fst ab /\ 0 < snd ab) (pq_of weight acoustic language).
Proof.
  intros Hw Hi. unfold interior in Hi. rewrite Forall_forall in Hi.
  apply Forall_forall. intros ab Hab.
  pose proof (pq_sum _ _ _ _ Hab). specialize (Hi ab Hab). lra.
Qed.

(** Every combined probability [p_i] lies between 0 and 1, and all but at
    most one strictly. *)
Definition interior_but_one (weight : R * R) (acoustic language : list R)
  : Prop :=
  Forall (fun ab => 0 <= fst ab <= 1) (pq_of weight acoustic language) /\
  exists d : nat,
    forall i, (i < length (pq_of weight acoustic language))%nat -> i <> d ->
      0 < fst (nth i (pq_of weight acoustic language) (1, 1)) < 1.

Lemma interior_one (weight : R * R) (acoustic language : list R) :
  interior weight acoustic language ->
  interior_but_one weight acoustic language.
Proof.
  intros Hi. unfold interior in Hi. split.
  - eapply Forall_impl; [|exact Hi]. simpl. intros; lra.
  - exists 0%nat. intros i Hl _.
    rewrite Forall_forall in Hi. apply Hi, nth_In, Hl.
Qed.

(** Probabilities under a normalized weight combine to probabilities. *)
Lemma combined_closed (weight : R * R) (acoustic language : list R) :
  normalized weight -> probabilities acoustic -> probabilities language ->
  Forall (fun ab => 0 <= fst ab <= 1) (pq_of weight acoustic language).
Proof.
  intros (H0 & H1 & Hw) Ha Hl. unfold probabilities in *.
  rewrite Forall_forall in Ha, Hl. apply Forall_forall. intros ab Hab.
  pose proof (pq_sum _ _ _ _ Hab) as Hs.
  unfold pq_of, map2 in Hab. apply in_map_iff in Hab as ([a l] & <- & Hin).
  pose proof (Ha a (in_combine_l _ _ _ _ Hin)) as Ha'.
  pose proof (Hl l (in_combine_r _ _ _ _ Hin)) as Hl'.
  cbn [fst snd] in *.
  pose proof (Rmult_le_pos _ _ H0 (proj1 Ha')).
  pose proof (Rmult_le_pos _ _ H1 (proj1 Hl')).
  pose proof (Rmult_le_pos (fst weight) (1 - a) H0 ltac:(lra)).
  pose proof (Rmult_le_pos (snd weight) (1 - l) H1 ltac:(lra)).
  lra.
Qed.

Lemma but_one_sane (weight : R * R) (acoustic language : list R) :
  fst weight + snd weight = 1 ->
  interior_but_one weight acoustic language ->
  Forall sane (pq_of weight acoustic language).
Proof.
  intros Hw [Hc _]. rewrite Forall_forall in Hc.
  apply Forall_forall. intros ab Hab.
  pose proof (pq_sum _ _ _ _ Hab). specialize (Hc ab Hab). unfold sane. lra.
Qed.

Lemma but_one_open (weight : R * R) (acoustic language : list R) (d : nat) :
  fst weight + snd weight = 1 ->
  (forall i, (i < length (pq_of weight acoustic language))%nat -> i <> d ->
     0 < fst (nth i (pq_of weight acoustic language) (1, 1)) < 1) ->
  forall i, (i < length (pq_of weight acoustic language))%nat -> i <> d ->
    open_ (nth i (pq_of weight acoustic language) (1, 1)).
Proof.
  intros Hw H i Hi Hd. specialize (H i Hi Hd).
  pose proof (pq_sum weight acoustic language _ (nth_In _ (1, 1) Hi)).
  unfold open_. lra.
Qed.

Lemma nth_pq (weight : R * R) (acoustic language : list R) (i : nat) :
  length acoustic = length language -> (i < length acoustic)%nat ->
  nth i (pq_of weight acoustic language) (1, 1) =
  (fst weight * nth i acoustic 0 + snd weight * nth i language 0,
   fst weight * (1 - nth i acoustic 0) + snd weight * (1 - nth i language 0)).
Proof.
  revert language i; induction acoustic as [|a acoustic IH];
    intros [|l language] i Hl Hi; simpl in *; try lia.
  destruct i as [|i]; [reflexivity|].
  unfold pq_of, map2 in *. simpl. apply IH; lia.
Qed.

Lemma fsub_antitone (a : R) (x y : npfloat) :
  fle (Fin 0) x -> fle x y -> fle (fsub (Fin a) y) (fsub (Fin a) x).
Proof.
  destruct x as [b| | |], y as [c| | |]; simpl; intros; try contradiction;
    try exact I; lra.
Qed.

Lemma fsub_below (a : R) (x : npfloat) :
  fle (Fin 0) x -> fle (fsub (Fin a) x) (Fin a).
Proof.
  destruct x as [b| | |]; simpl; intros; try contradiction; try exact I; lra.
Qed.

Lemma sorted_descending (a : R) (ks : list npfloat) :
  StronglySorted fle ks -> Forall (fle (Fin 0)) ks ->
  non_increasing (Fin a :: map (fsub (Fin a)) ks).
Proof.
  intros Hs Hn. constructor.
  - induction Hs as [|c cs Hs IH F]; simpl; constructor.
    + apply IH. now apply Forall_inv_tail in Hn.
    + rewrite Forall_forall in F. apply Forall_forall. intros y Hy.
      apply in_map_iff in Hy as (k & <- & Hk).
      apply fsub_antitone; [now apply Forall_inv in Hn | now apply F].
  - rewrite Forall_forall in Hn. apply Forall_forall. intros y Hy.
    apply in_map_iff in Hy as (k & <- & Hk). now apply fsub_below, Hn.
Qed.

Section SameLength.

Variables (acoustic language : list R) (weight : R * R).
Hypothesis same_length : length acoustic = length language.

Let pq := pq_of weight acoustic language.
Let P := length acoustic.

Lemma pq_P : length pq = P.
Proof. unfold pq, P. now apply pq_length. Qed.

(** The samples are the samples of the flip sets, the empty one first. *)
Lemma enum_samples (n : nat) :
  (2 <= P)%nat ->
  map snd (fst (enumerate_samples acoustic language weight (S (S n)))) =
  map (sample_of pq) ([] :: map node (fst (run_of pq (S n)))).
Proof.
  intros HP. unfold pq. rewrite (enum_run _ _ _ same_length n HP). fold pq.
  cbn [fst map snd]. rewrite sample_of_nil. f_equal.
  rewrite !map_map. reflexivity.
Qed.

(** No sample comes twice. *)
Lemma enum_NoDup (n : nat) :
  NoDup (map snd (fst (enumerate_samples acoustic language weight n))).
Proof.
  destruct n as [|[|n]].
  - simpl. constructor.
  - destruct (enum_first acoustic language weight same_length 0)
      as (ys & o & E).
    assert (ys = []).
    { revert E. unfold enumerate_samples.
      rewrite (mix_p_same _ _ _ same_length), (mix_not_p_same _ _ _ same_length).
      now intros [= _ _ <- _]. }
    subst. rewrite E. simpl. repeat constructor. intros [].
  - destruct (Nat.lt_ge_cases P 2) as [Hs|Hb].
    + rewrite (enum_small _ _ _ same_length n Hs). simpl.
      repeat constructor. intros [].
    + rewrite (enum_samples n Hb).
      assert (H0 : (0 < length pq)%nat) by (rewrite pq_P; lia).
      destruct (run_perm pq (S n) H0) as (rest & Hp & _).
      apply NoDup_map_in.
      * constructor.
        -- intros Hin.
           assert (Hin' : In [] (ne (seq 0 (length pq)))).
           { apply (Permutation_in _ Hp), in_app_iff. now left. }
           apply ne_In in Hin'. tauto.
        -- apply (NoDup_app_remove_r _ rest).
           apply (Permutation_NoDup (Permutation_sym Hp)).
           apply ne_NoDup, seq_NoDup.
      * assert (Hall : forall v, In v ([] :: map node (fst (run_of pq (S n)))) ->
                  incr v /\ (forall j, In j v -> (j < length pq)%nat)).
        { intros v [<-|Hv]; [split; [constructor | intros ? []]|].
          apply in_map_iff in Hv as (e & <- & He). now apply (run_node pq (S n)). }
        intros v w Hv Hw. destruct (Hall v Hv), (Hall w Hw).
        now apply sample_of_inj.
Qed.

(** Drained, the generator has yielded every set of pitches once. *)
Lemma enum_all (n : nat) :
  (2 <= P)%nat -> (2 ^ P < n)%nat ->
  snd (enumerate_samples acoustic language weight n) = Exhausted /\
  Permutation (map snd (fst (enumerate_samples acoustic language weight n)))
              (subs (seq 0 P)).
Proof.
  intros HP Hn. destruct n as [|[|n]]; try (simpl in Hn; lia).
  { assert (2 ^ P <> 0)%nat by (apply Nat.pow_nonzero; lia). lia. }
  assert (H0 : (0 < length pq)%nat) by (rewrite pq_P; lia).
  assert (Hex : snd (run_of pq (S n)) = Exhausted).
  { apply run_exhausted; [exact H0 | rewrite pq_P; lia]. }
  split.
  - unfold pq in Hex. rewrite (enum_run _ _ _ same_length n HP). exact Hex.
  - rewrite (enum_samples n HP).
    destruct (run_perm pq (S n) H0) as (rest & Hp & Hr & _).
    rewrite (Hr Hex), app_nil_r, pq_P in Hp.
    apply perm_trans with (map (sample_of pq) (subs (seq 0 P))).
    + apply Permutation_map. apply Permutation_sym.
      apply perm_trans with ([] :: ne (seq 0 P)); [apply subs_ne|].
      constructor. now apply Permutation_sym.
    + rewrite <- pq_P. apply samples_all.
Qed.

(** Both parts of every pitch are probabilities, and all pitches but at
    most one (the pitch [d]) have neither part zero. *)
Hypothesis all_sane : Forall sane pq.
Variable d : nat.
Hypothesis others_open :
  forall i, (i < length pq)%nat -> i <> d -> open_ (nth i pq (1, 1)).

(** A finite sorted penalty is the penalty of an open pitch. *)
Lemma finite_open (j : nat) :
  (j < P)%nat -> isfinite (at_ (Ls pq) j) = true ->
  open_ (nth (nth j (Rs pq) 0%nat) pq (1, 1)) /\
  fval (at_ (Ls pq) j) = nth (nth j (Rs pq) 0%nat) (labs pq) 0.
Proof.
  intros Hj Hf. rewrite <- pq_P in Hj. rewrite (at_Ls pq j Hj) in *.
  destruct (at_pen_cases pq all_sane _ (order_lt pq j Hj)) as [[Ho E]|[_ E]];
    rewrite E in *; [now split | discriminate].
Qed.

(** What is yielded for a flip set is the score of its sample. *)
Lemma yield_score (v : list nat) :
  NoDup v -> (forall j, In j v -> (j < P)%nat) ->
  fsub (l0 pq) (ext (Ls pq) v) = score pq (sample_of pq v).
Proof.
  intros Hn Hv. rewrite (l0_greedy pq all_sane). unfold ext, sample_of.
  destruct (reaches_inf (Ls pq) v) eqn:E.
  - apply existsb_exists in E as (j & Hj & Hf).
    assert (Hj' : (j < length pq)%nat) by (rewrite pq_P; auto).
    symmetry. apply (flip_score_certain pq all_sane _ (nth j (Rs pq) 0%nat)).
    + now apply order_lt.
    + apply in_map_iff. now exists j.
    + intros Ho. rewrite (at_Ls pq j Hj') in Hf.
      destruct (at_pen_cases pq all_sane _ (order_lt pq j Hj')) as [[_ E]|[N _]];
        [rewrite E in Hf; discriminate | now apply N].
  - pose proof (proj1 (reaches_inf_false (Ls pq) v) E) as Hf.
    rewrite (flip_score_open pq all_sane).
    + simpl. f_equal. unfold cost, pick. rewrite map_map.
      rewrite (sumR_map_ext _ (fun j => nth (nth j (argsort (pen pq)) 0%nat)
                                            (labs pq) 0) v); [lra|].
      intros j Hj. now apply finite_open; auto.
    + apply pick_NoDup; [exact Hn | now rewrite pq_P].
    + intros i Hi. apply (pick_lt pq v); [now rewrite pq_P | exact Hi].
    + intros i Hi. apply in_map_iff in Hi as (j & <- & Hj).
      now apply finite_open; auto.
Qed.

(** Every element carries the score of its sample, and the scores come in
    descending order. *)
Lemma enum_scores (n : nat) :
  Forall (fun y => fst y = score pq (snd y) /\
                   (forall i, In i (snd y) -> (i < P)%nat))
         (fst (enumerate_samples acoustic language weight n)) /\
  non_increasing (map fst (fst (enumerate_samples acoustic language weight n))).
Proof.
  assert (Hfirst : fst (l0 pq, v0 pq) = score pq (snd (l0 pq, v0 pq)) /\
                   (forall i, In i (snd (l0 pq, v0 pq)) -> (i < P)%nat)).
  { simpl. split; [now apply l0_score|]. intros i Hi. rewrite <- pq_P.
    now apply v0_lt. }
  assert (Hone : non_increasing [l0 pq]) by (repeat constructor).
  destruct n as [|[|n]].
  - simpl. split; constructor.
  - destruct (enum_first acoustic language weight same_length 0)
      as (ys & o & E).
    assert (ys = []).
    { revert E. unfold enumerate_samples.
      rewrite (mix_p_same _ _ _ same_length), (mix_not_p_same _ _ _ same_length).
      now intros [= _ _ <- _]. }
    subst. rewrite E. fold pq. simpl. split; [|exact Hone].
    repeat constructor; apply Hfirst.
  - destruct (Nat.lt_ge_cases P 2) as [Hs|Hb].
    + rewrite (enum_small _ _ _ same_length n Hs). fold pq. simpl.
      split; [|exact Hone]. repeat constructor; apply Hfirst.
    + rewrite (enum_run _ _ _ same_length n Hb). fold pq. cbn [fst].
      assert (H0 : (0 < length pq)%nat) by (rewrite pq_P; lia).
      destruct (run_sorted pq all_sane d others_open (S n) H0)
        as [Hsound Hsorted].
      rewrite Forall_forall in Hsound.
      split.
      * constructor; [exact Hfirst|].
        apply Forall_forall. intros y Hin.
        apply in_map_iff in Hin as (e & <- & He). unfold yield_of. cbn [fst snd].
        destruct (run_node pq (S n) e H0 He) as [Iv Hv].
        rewrite pq_P in Hv. destruct (Hsound e He) as [Hs _]. split.
        -- rewrite Hs. apply yield_score; [now apply incr_NoDup | exact Hv].
        -- intros i Hi. rewrite <- pq_P.
           apply (sample_of_lt pq (node e)); [now rewrite pq_P | exact Hi].
      * cbn [map fst]. rewrite map_map. unfold yield_of. cbn [fst].
        rewrite (l0_greedy pq all_sane).
        rewrite <- (map_map key (fsub (Fin (greedy pq)))).
        apply sorted_descending; [exact Hsorted|].
        apply Forall_forall. intros c Hc.
        apply in_map_iff in Hc as (e & <- & He). now apply Hsound.
Qed.

End SameLength.

End Elements.

(* ================================================================= *)
(** ** The probabilities of all samples *)

Module Total.

Import NumPy NumPyFacts Decode QueueFacts FlipTree Run Keys Enum Penalties Score
       LogProb Yields Elements.
Open Scope R_scope.

Definition prodR (l : list R) : R := fold_right Rmult 1 l.

Lemma subs_members (l w : list nat) (y : nat) :
  In w (subs l) -> In y w -> In y l.
Proof.
  intros Hw Hy. apply (Permutation_in _ (subs_ne l)) in Hw.
  destruct Hw as [<-|Hw]; [destruct Hy|]. apply ne_In in Hw as [_ H]. auto.
Qed.

(** The exponential of a sum of logarithms is the product. *)
Lemma fexp_sum (l : list npfloat) :
  Forall log_like l ->
  fexp (np_sum l) = Fin (prodR (map (fun x => fval (fexp x)) l)).
Proof.
  induction 1 as [|x l Hx Hl IH]; simpl.
  - now rewrite exp_0.
  - fold (np_sum l). fold (prodR (map (fun x => fval (fexp x)) l)).
    destruct (np_sum_log_like l Hl) as [E|[b E]]; rewrite E in *;
      simpl in IH; injection IH as IH; rewrite <- IH;
      destruct Hx as [->|[a ->]]; simpl; f_equal; try lra.
    apply exp_plus.
Qed.

Section Pairs.

Variable pq : list (R * R).

(** The probability a set of active pitches gives pitch [i], and a list of
    pitches. *)
Definition share (S : list nat) (i : nat) : R :=
  if mem i S then fst (nth i pq (1, 1)) else snd (nth i pq (1, 1)).

Definition prob_on (l S : list nat) : R := prodR (map (share S) l).

Lemma prob_on_cons (l S : list nat) (x : nat) :
  ~ In x l -> prob_on l (x :: S) = prob_on l S.
Proof.
  intros Hx. unfold prob_on. f_equal. apply map_ext_in. intros i Hi.
  unfold share, mem. simpl.
  destruct (Nat.eqb_spec i x) as [->|N]; [contradiction | reflexivity].
Qed.

Lemma total_on (l : list nat) :
  NoDup l ->
  sumR (map (prob_on l) (subs l)) =
  prodR (map (fun i => fst (nth i pq (1, 1)) + snd (nth i pq (1, 1))) l).
Proof.
  induction 1 as [|x l Hx Hn IH]; simpl.
  - unfold prob_on. simpl. lra.
  - rewrite map_app, sumR_app, map_map. fold prodR. rewrite <- IH.
    assert (E1 : sumR (map (fun S => prob_on (x :: l) (x :: S)) (subs l)) =
                 fst (nth x pq (1, 1)) * sumR (map (prob_on l) (subs l))).
    { clear IH. induction (subs l) as [|S ss IHs]; simpl; [lra|].
      rewrite IHs. unfold prob_on at 1. simpl.
      fold (prob_on l (x :: S)). rewrite (prob_on_cons l S x Hx).
      unfold share at 1, mem. simpl. rewrite Nat.eqb_refl. simpl. lra. }
    assert (E2 : sumR (map (prob_on (x :: l)) (subs l)) =
                 snd (nth x pq (1, 1)) * sumR (map (prob_on l) (subs l))).
    { clear IH E1.
      assert (Hall : forall S, In S (subs l) -> ~ In x S).
      { intros S HS Hin. apply Hx. now apply (subs_members l S). }
      induction (subs l) as [|S ss IHs]; simpl; [lra|].
      rewrite IHs by (intros; apply Hall; now right).
      unfold prob_on at 1. simpl. fold (prob_on l S).
      unfold share at 1.
      assert (Hm : mem x S = false).
      { destruct (mem x S) eqn:E; [|reflexivity].
        apply mem_In in E. destruct (Hall S (or_introl eq_refl) E). }
      rewrite Hm. lra. }
    rewrite E1, E2. lra.
Qed.

Hypothesis all_sane : Forall sane pq.

Lemma fexp_term (S : list nat) (i : nat) :
  fexp (term pq S i) = Fin (share S i).
Proof.
  destruct (sane_at pq all_sane i) as (Hp & Hq & _). unfold term, share.
  destruct (mem i S).
  - destruct Hp as [Hp|Hp].
    + rewrite flogR_pos by exact Hp. simpl. now rewrite exp_ln.
    + rewrite <- Hp, flogR_zero. reflexivity.
  - destruct Hq as [Hq|Hq].
    + rewrite flogR_pos by exact Hq. simpl. now rewrite exp_ln.
    + rewrite <- Hq, flogR_zero. reflexivity.
Qed.

(** The probability of a sample is the product of its shares. *)
Lemma fexp_score (S : list nat) :
  fexp (score pq S) = Fin (prob_on (seq 0 (length pq)) S).
Proof.
  unfold score. rewrite fexp_sum.
  - f_equal. unfold prob_on. rewrite map_map. f_equal.
    apply map_ext. intros i. now rewrite fexp_term.
  - apply Forall_forall. intros x Hx.
    apply in_map_iff in Hx as (i & <- & _). now apply term_log_like.
Qed.

Hypothesis unit_sum : Forall (fun ab => fst ab + snd ab = 1) pq.

Lemma total_one :
  sumR (map (prob_on (seq 0 (length pq))) (subs (seq 0 (length pq)))) = 1.
Proof.
  rewrite total_on by apply seq_NoDup.
  assert (H : forall i, In i (seq 0 (length pq)) ->
              fst (nth i pq (1, 1)) + snd (nth i pq (1, 1)) = 1).
  { intros i Hi. apply in_seq in Hi.
    rewrite Forall_forall in unit_sum. apply unit_sum, nth_In. lia. }
  induction (seq 0 (length pq)) as [|i l IH]; simpl; [reflexivity|].
  rewrite H by now left. fold prodR.
  rewrite IH by (intros; apply H; now right). lra.
Qed.

End Pairs.

End Total.
(* ================================================================= *)
(** ** The enumerator: properties *)

Module EnumeratorSpec.

Import NumPy NumPyFacts Decode QueueFacts FlipTree Run Keys Enum Penalties Score
       LogProb Yields Elements Total.
Open Scope R_scope.

(** *** A frame with two certain pitches *)

Lemma flogR_one : flogR 1 = Fin 0.
Proof. rewrite flogR_pos by lra. now rewrite ln_1. Qed.

Lemma deg_pq : pq_of (1, 0) [0; 0] [1/2; 1/2] = [(0, 1); (0, 1)].
Proof. unfold pq_of, map2. simpl. repeat f_equal; lra. Qed.

Lemma deg_pen : pen [(0, 1); (0, 1)] = [PInf; PInf].
Proof.
  unfold pen. simpl. rewrite fdiv_fin by lra.
  replace (0 / 1) with 0 by lra. simpl. now rewrite flogR_zero.
Qed.

Lemma deg_l0 : l0 [(0, 1); (0, 1)] = Fin 0.
Proof.
  unfold l0. simpl. rewrite Rmax_right by lra. rewrite flogR_one. simpl.
  f_equal. lra.
Qed.

Lemma deg_v0 : v0 [(0, 1); (0, 1)] = [].
Proof. unfold v0. simpl. now rewrite Rltb_false by lra. Qed.

(** Both penalties are infinite; the second child of the first node gets the
    key [inf + inf - inf]. *)
Lemma deg_enum (n : nat) :
  enumerate_samples [0; 0] [1/2; 1/2] (1, 0) (4 + n) =
  ([(Fin 0, []); (NInf, [0%nat]); (NInf, [0%nat; 1%nat]); (NaN, [1%nat])],
   match n with O => Suspended | S _ => Exhausted end).
Proof.
  change (4 + n)%nat with (S (S (2 + n))).
  rewrite (enum_run [0; 0] [1/2; 1/2] (1, 0) eq_refl (2 + n)) by (simpl; lia).
  rewrite deg_pq, deg_l0, deg_v0. unfold run_of. rewrite deg_pen.
  destruct n; reflexivity.
Qed.

Lemma deg_probabilities :
  probabilities [0; 0] /\ probabilities [1/2; 1/2] /\ normalized (1, 0).
Proof.
  unfold probabilities, normalized. simpl.
  repeat split; repeat constructor; lra.
Qed.

Lemma deg_get_log_prob :
  get_log_prob [false; true] [0; 0] [1/2; 1/2] (1, 0) = Ok NInf.
Proof.
  rewrite (get_log_prob_same [0; 0] [1/2; 1/2] (1, 0) eq_refl) by reflexivity.
  rewrite deg_pq. unfold map2. simpl.
  now rewrite flogR_one, flogR_zero.
Qed.

(** *** Two runs on two pitches *)

Lemma ln2_pos : 0 < ln 2.
Proof. rewrite <- ln_1. apply ln_increasing; lra. Qed.

Lemma ln2_lt_ln3 : ln 2 < ln 3.
Proof. apply ln_increasing; lra. Qed.

Lemma two_pq : pq_of (1, 0) [3/4; 2/3] [1/2; 1/2] = [(3/4, 1/4); (2/3, 1/3)].
Proof.
  unfold pq_of, map2. simpl.
  apply f_equal2;
    [apply f_equal2; lra | apply f_equal2; [apply f_equal2; lra | reflexivity]].
Qed.

Lemma two_pen : pen [(3/4, 1/4); (2/3, 1/3)] = [Fin (ln 3); Fin (ln 2)].
Proof.
  unfold pen. simpl. rewrite !fdiv_fin by lra.
  replace (3 / 4 / (1 / 4)) with 3 by lra.
  replace (2 / 3 / (1 / 3)) with 2 by lra.
  simpl. rewrite !flogR_pos by lra. simpl.
  pose proof ln2_pos. pose proof ln2_lt_ln3.
  rewrite !Rabs_right by lra. reflexivity.
Qed.

Lemma two_v0 : v0 [(3/4, 1/4); (2/3, 1/3)] = [0%nat; 1%nat].
Proof. unfold v0. simpl. now rewrite !Rltb_true by lra. Qed.

Lemma two_l0 : l0 [(3/4, 1/4); (2/3, 1/3)] = Fin (ln (1/2)).
Proof.
  unfold l0. simpl. rewrite !Rmax_left by lra. rewrite !flogR_pos by lra.
  simpl. f_equal. rewrite Rplus_0_r, <- ln_mult by lra. f_equal. lra.
Qed.

(** The acoustic frame [3/4, 2/3] alone: the four assignments come with the
    probabilities 1/2, 1/4, 1/6 and 1/12, and a fifth request finds the
    generator exhausted. *)
Example two_pitches :
  enumerate_samples [3/4; 2/3] [1/2; 1/2] (1, 0) 5 =
  ([(Fin (ln (1/2)), [0%nat; 1%nat]); (Fin (ln (1/4)), [0%nat]);
    (Fin (ln (1/6)), [1%nat]); (Fin (ln (1/12)), [])],
   Exhausted).
Proof.
  rewrite (enum_run [3/4; 2/3] [1/2; 1/2] (1, 0) eq_refl 3 (le_n 2)).
  rewrite two_pq, two_v0, two_l0. unfold run_of. rewrite two_pen.
  unfold argsort. simpl. unfold sort_lt, at_. simpl.
  rewrite (Rltb_true _ _ ln2_lt_ln3). simpl.
  pose proof ln2_pos as H2. pose proof ln2_lt_ln3 as H3.
  rewrite Reqb_false by lra. rewrite Rltb_true by lra. simpl.
  assert (E4 : ln (1/2) + - ln 2 = ln (1/4)).
  { replace (1/4) with (1/2/2) by lra. rewrite (ln_ratio (1/2) 2) by lra. lra. }
  assert (E6 : ln (1/2) + - (ln 2 + ln 3 + - ln 2) = ln (1/6)).
  { replace (1/6) with (1/2/3) by lra. rewrite (ln_ratio (1/2) 3) by lra. lra. }
  assert (E12 : ln (1/2) + - (ln 2 + ln 3) = ln (1/12)).
  { replace (1/12) with (1/2/(2*3)) by lra.
    rewrite (ln_ratio (1/2) (2*3)), ln_mult by lra. lra. }
  unfold yield_of, key, node. simpl. rewrite E4, E6, E12. reflexivity.
Qed.

(** The acoustic frame [0.9, 0.1] alone: the first sample is [{0}], with
    the log-probability [log 0.9 + log 0.9]. *)
Example acoustic_only_first :
  enumerate_samples [9/10; 1/10] [1/2; 1/2] (1, 0) 1 =
  ([(Fin (ln (9/10) + ln (9/10)), [0%nat])], Suspended).
Proof.
  unfold enumerate_samples, mix_p, mix_not_p, broadcast2, map2. simpl.
  replace (1 * (9 / 10) + 0 * (1 / 2)) with (9/10) by lra.
  replace (1 * (1 - 9 / 10) + 0 * (1 - 1 / 2)) with (1/10) by lra.
  replace (1 * (1 / 10) + 0 * (1 / 2)) with (1/10) by lra.
  replace (1 * (1 - 1 / 10) + 0 * (1 - 1 / 2)) with (9/10) by lra.
  rewrite Rmax_left, Rmax_right by lra. rewrite !flogR_pos by lra.
  unfold np_where. simpl.
  rewrite (Rltb_true (1/10) (9/10)), (Rltb_false (9/10) (1/10)) by lra.
  simpl. do 2 f_equal. f_equal. f_equal. lra.
Qed.

(** *** Vectors inside the unit interval *)

Definition inner_acoustic : list R := [1/4; 3/4].
Definition inner_language : list R := [1/2; 1/2].
Definition inner_weight : R * R := (1/2, 1/2).

Lemma inner_normalized : normalized inner_weight.
Proof. unfold normalized, inner_weight. simpl. lra. Qed.

Lemma inner_interior : interior inner_weight inner_acoustic inner_language.
Proof.
  unfold interior, pq_of, map2, inner_weight, inner_acoustic, inner_language.
  simpl. repeat constructor; simpl; lra.
Qed.

(** *** One pitch on the boundary *)

Definition edge_acoustic : list R := [0; 3/4].
Definition edge_language : list R := [1/2; 1/2].
Definition edge_weight : R * R := (1, 0).

Lemma edge_normalized : normalized edge_weight.
Proof. unfold normalized, edge_weight. simpl. lra. Qed.

Lemma edge_but_one :
  interior_but_one edge_weight edge_acoustic edge_language.
Proof.
  unfold interior_but_one, pq_of, map2, edge_weight, edge_acoustic,
    edge_language. simpl. split.
  - repeat constructor; simpl; lra.
  - exists 0%nat. intros [|[|i]] Hi Hd; simpl in *; try lia; lra.
Qed.

Lemma edge_pq :
  pq_of edge_weight edge_acoustic edge_language = [(0, 1); (3/4, 1/4)].
Proof.
  unfold pq_of, map2, edge_weight, edge_acoustic, edge_language. simpl.
  apply f_equal2;
    [apply f_equal2; lra | apply f_equal2; [apply f_equal2; lra | reflexivity]].
Qed.

Lemma ln3_pos : 0 < ln 3.
Proof. pose proof ln2_pos. pose proof ln2_lt_ln3. lra. Qed.

Lemma edge_pen : pen [(0, 1); (3/4, 1/4)] = [PInf; Fin (ln 3)].
Proof.
  unfold pen. simpl. rewrite !fdiv_fin by lra.
  replace (0 / 1) with 0 by lra. replace (3 / 4 / (1 / 4)) with 3 by lra.
  simpl. rewrite flogR_zero, flogR_pos by lra. simpl.
  pose proof ln3_pos. rewrite Rabs_right by lra. reflexivity.
Qed.

Lemma edge_v0 : v0 [(0, 1); (3/4, 1/4)] = [1%nat].
Proof.
  unfold v0. simpl. rewrite Rltb_false, Rltb_true by lra. reflexivity.
Qed.

Lemma edge_l0 : l0 [(0, 1); (3/4, 1/4)] = Fin (ln (3/4)).
Proof.
  unfold l0. simpl. rewrite Rmax_right, Rmax_left by lra.
  rewrite flogR_one, flogR_pos by lra. simpl. f_equal. lra.
Qed.

(** The acoustic frame [0, 3/4] alone: the penalty of the first pitch is
    infinite and sorts last; the four assignments come with the
    probabilities 3/4, 1/4, 0 and 0, and no nan arises. *)
Example one_certain_pitch :
  enumerate_samples edge_acoustic edge_language edge_weight 5 =
  ([(Fin (ln (3/4)), [1%nat]); (Fin (ln (1/4)), []);
    (NInf, [0%nat]); (NInf, [0%nat; 1%nat])],
   Exhausted).
Proof.
  rewrite (enum_run edge_acoustic edge_language edge_weight eq_refl 3 (le_n 2)).
  rewrite edge_pq, edge_v0, edge_l0. unfold run_of. rewrite edge_pen.
  unfold argsort. simpl. unfold sort_lt, at_. simpl.
  assert (E4 : ln (3/4) + - ln 3 = ln (1/4)).
  { replace (1/4) with (3/4/3) by lra. rewrite (ln_ratio (3/4) 3) by lra. lra. }
  unfold yield_of, key, node. simpl. rewrite E4. reflexivity.
Qed.

(** *** C1 *)




(** *** C2 *)


Lemma sum_of_scores (pq : list (R * R)) (ys : list (npfloat * list nat)) :
  Forall sane pq ->
  Forall (fun y => fst y = score pq (snd y)) ys ->
  np_sum (map (fun y => fexp (fst y)) ys) =
  Fin (sumR (map (prob_on pq (seq 0 (length pq))) (map snd ys))).
Proof.
  intros Hs Hy. rewrite <- np_sum_fin, !map_map. f_equal.
  apply map_ext_in. intros y Hin. rewrite Forall_forall in Hy.
  now rewrite (Hy y Hin), (fexp_score pq Hs).
Qed.



(** *** C3 *)

(** The combined probabilities of pitch [i]. *)
Definition p_at (weight : R * R) (acoustic language : list R) (i : nat) : R :=
  fst weight * nth i acoustic 0 + snd weight * nth i language 0.

Definition not_p_at (weight : R * R) (acoustic language : list R) (i : nat)
  : R :=
  fst weight * (1 - nth i acoustic 0) + snd weight * (1 - nth i language 0).

Lemma nth_pq_at (weight : R * R) (acoustic language : list R) (i : nat) :
  length acoustic = length language -> (i < length acoustic)%nat ->
  nth i (pq_of weight acoustic language) (1, 1) =
  (p_at weight acoustic language i, not_p_at weight acoustic language i).
Proof. apply nth_pq. Qed.

(** C3.  For two vectors of one length and a normalized weight the first
    element of an enumeration is the greedy assignment: its sample holds
    exactly the pitches with [p_i > not_p_i], in increasing order, and its
    log-probability is the (finite) sum of [log (max p_i not_p_i)] over all
    pitches. *)
Theorem enumerate_samples_first_greedy (acoustic language : list R)
    (weight : R * R) (n : nat) :
  length acoustic = length language ->
  normalized weight ->
  exists l_0 v_0 rest o,
    enumerate_samples acoustic language weight (S n) = ((l_0, v_0) :: rest, o) /\
    incr v_0 /\
    (forall i, In i v_0 <->
               (i < length acoustic)%nat /\
               not_p_at weight acoustic language i
                 < p_at weight acoustic language i) /\
    l_0 = Fin (sumR (map (fun i => ln (Rmax (p_at weight acoustic language i)
                                            (not_p_at weight acoustic language i)))
                         (seq 0 (length acoustic)))).
Proof.
  intros Hl (_ & _ & Hw).
  destruct (enum_first acoustic language weight Hl n) as (rest & o & E).
  set (pq := pq_of weight acoustic language) in *.
  assert (HP : length pq = length acoustic) by (now apply pq_length).
  exists (l0 pq), (v0 pq), rest, o. split; [exact E|].
  split; [apply v0_incr|]. split.
  - intros i. unfold v0. rewrite np_where_In. split.
    + intros Hi.
      assert (Hlt : (i < length acoustic)%nat).
      { rewrite <- HP. rewrite <- (length_map (fun ab => Rltb (snd ab) (fst ab))).
        destruct (Nat.lt_ge_cases i
                    (length (map (fun ab => Rltb (snd ab) (fst ab)) pq)))
          as [L|G]; [exact L|].
        rewrite nth_overflow in Hi by exact G. discriminate. }
      split; [exact Hlt|].
      rewrite (nth_indep _ false (Rltb (snd (1, 1)) (fst (1, 1)))) in Hi
        by (rewrite length_map, HP; exact Hlt).
      rewrite (map_nth (fun ab => Rltb (snd ab) (fst ab))) in Hi.
      unfold pq in Hi. rewrite (nth_pq_at _ _ _ i Hl Hlt) in Hi.
      now apply Rltb_iff in Hi.
    + intros [Hlt Hi].
      rewrite (nth_indep _ false (Rltb (snd (1, 1)) (fst (1, 1))))
        by (rewrite length_map, HP; exact Hlt).
      rewrite (map_nth (fun ab => Rltb (snd ab) (fst ab))).
      unfold pq. rewrite (nth_pq_at _ _ _ i Hl Hlt). now apply Rltb_true.
  - unfold l0. rewrite <- np_sum_fin. f_equal.
    rewrite <- (map_nth_seq (1, 1) pq) at 1. rewrite HP, !map_map.
    apply map_ext_in. intros i Hi. apply in_seq in Hi.
    unfold pq. rewrite (nth_pq_at _ _ _ i Hl) by lia. cbn [fst snd].
    apply flogR_pos.
    assert (Hs : p_at weight acoustic language i
                 + not_p_at weight acoustic language i = 1).
    { unfold p_at, not_p_at. rewrite <- Hw at 3. ring. }
    unfold Rmax. destruct (Rle_dec _ _); lra.
Qed.

Lemma enumerate_samples_first_greedy_witness :
  exists l_0 v_0 rest o,
    enumerate_samples inner_acoustic inner_language inner_weight 1
      = ((l_0, v_0) :: rest, o) /\
    incr v_0 /\
    (forall i, In i v_0 <->
               (i < length inner_acoustic)%nat /\
               not_p_at inner_weight inner_acoustic inner_language i
                 < p_at inner_weight inner_acoustic inner_language i) /\
    l_0 = Fin (sumR (map (fun i =>
                 ln (Rmax (p_at inner_weight inner_acoustic inner_language i)
                          (not_p_at inner_weight inner_acoustic inner_language i)))
                 (seq 0 (length inner_acoustic)))).
Proof.
  apply enumerate_samples_first_greedy.
  - reflexivity.
  - exact inner_normalized.
Defined.

(** *** C4 *)




(** *** C5 *)

(** C5, as stated, fails: nothing is clamped.  On the frame [0, 0] under the
    acoustic-only weight [get_log_prob] returns [-inf], both flip penalties
    are infinite and the enumerator hands over a nan. *)
Lemma log_probs_degenerate :
  probabilities [0; 0] /\ probabilities [1/2; 1/2] /\ normalized (1, 0) /\
  get_log_prob [false; true] [0; 0] [1/2; 1/2] (1, 0) = Ok NInf /\
  pen (pq_of (1, 0) [0; 0] [1/2; 1/2]) = [PInf; PInf] /\
  map fst (fst (enumerate_samples [0; 0] [1/2; 1/2] (1, 0) 4))
    = [Fin 0; NInf; NInf; NaN].
Proof.
  destruct deg_probabilities as (Ha & Hl & Hw).
  split; [exact Ha | split; [exact Hl | split; [exact Hw|]]].
  split; [exact deg_get_log_prob|]. split; [now rewrite deg_pq, deg_pen|].
  pose proof (deg_enum 0) as E. change (4 + 0)%nat with 4%nat in E.
  now rewrite E.
Qed.

Lemma np_sum_finite (l : list npfloat) :
  Forall (fun x => isfinite x = true) l -> exists r, np_sum l = Fin r.
Proof.
  induction 1 as [|x l Hx _ IH]; [now exists 0|].
  destruct IH as [r E]. destruct x as [a| | |]; try discriminate.
  exists (a + r). unfold np_sum in *. simpl. now rewrite E.
Qed.

(** C5, as it holds of the code.  The combined probabilities are used as
    they are computed.  For two vectors of one length and a normalized
    weight, when every combined probability lies strictly between 0 and 1,
    every log-probability handed over by the enumerator, every score
    [get_log_prob] gives a binary vector of the length of the frame, and
    every flip penalty is finite. *)
Theorem log_probs_finite_inside (acoustic language : list R)
    (weight : R * R) :
  length acoustic = length language ->
  normalized weight ->
  interior weight acoustic language ->
  (forall n y, In y (fst (enumerate_samples acoustic language weight n)) ->
     isfinite (fst y) = true) /\
  (forall b, length b = length acoustic ->
     exists r, get_log_prob b acoustic language weight = Ok (Fin r)) /\
  Forall (fun x => isfinite x = true) (pen (pq_of weight acoustic language)).
Proof.
  intros Hl (_ & _ & Hw) Hi.
  pose proof (interior_positive _ _ _ Hw Hi) as Hpos.
  assert (Hlog : forall b,
            length b = length acoustic ->
            exists r, get_log_prob b acoustic language weight = Ok (Fin r)).
  { intros b Hb.
    rewrite (get_log_prob_same acoustic language weight Hl b Hb).
    destruct (np_sum_finite
                (map2 (fun (s : bool) (xy : npfloat * npfloat) =>
                         if s then fst xy else snd xy) b
                      (map (fun ab => (flogR (fst ab), flogR (snd ab)))
                           (pq_of weight acoustic language)))) as [r E].
    + apply Forall_forall. intros x Hx. unfold map2 in Hx.
      apply in_map_iff in Hx as ([s xy] & <- & Hin).
      apply in_combine_r in Hin. apply in_map_iff in Hin as (ab & <- & Hab).
      rewrite Forall_forall in Hpos. destruct (Hpos ab Hab) as [Hp Hq].
      cbn [fst snd]. destruct s; now rewrite flogR_pos.
    + exists r. now rewrite E. }
  split; [|split; [exact Hlog|]].
  - intros n y Hy.
    pose proof (interior_one _ _ _ Hi) as Hone.
    pose proof (but_one_sane _ _ _ Hw Hone) as Hsane.
    destruct Hone as [_ [d Hd]].
    destruct (enum_scores acoustic language weight Hl Hsane d
                (but_one_open _ _ _ d Hw Hd) n) as [Hs _].
    rewrite Forall_forall in Hs. destruct (Hs y Hy) as [E _].
    destruct (Hlog (map (fun i => mem i (snd y)) (seq 0 (length acoustic))))
      as [r Hr]; [now rewrite length_map, length_seq|].
    rewrite (get_log_prob_score acoustic language weight Hl) in Hr.
    injection Hr as Hr. now rewrite E, Hr.
  - apply Forall_forall. intros x Hx. unfold pen in Hx.
    apply in_map_iff in Hx as (ab & <- & Hab).
    rewrite Forall_forall in Hpos.
    change (isfinite (penalty ab) = true).
    now rewrite (penalty_open ab (Hpos ab Hab)).
Qed.

Lemma log_probs_finite_inside_witness :
  (forall n y,
     In y (fst (enumerate_samples inner_acoustic inner_language inner_weight n))
     -> isfinite (fst y) = true) /\
  (forall b, length b = length inner_acoustic ->
     exists r, get_log_prob b inner_acoustic inner_language inner_weight
               = Ok (Fin r)) /\
  Forall (fun x => isfinite x = true)
         (pen (pq_of inner_weight inner_acoustic inner_language)).
Proof.
  apply log_probs_finite_inside.
  - reflexivity.
  - exact inner_normalized.
  - exact inner_interior.
Defined.

(** *** C9 *)

(** C9, as stated, fails: a vector of one entry is broadcast against a
    longer one, and both functions return results. *)
Lemma one_entry_is_broadcast :
  length [1/2] <> length [1/2; 1/2] /\
  (exists lp, get_log_prob [true; false] [1/2] [1/2; 1/2] (1/2, 1/2) = Ok lp) /\
  (exists y, enumerate_samples [1/2] [1/2; 1/2] (1/2, 1/2) 1
             = ([y], Suspended)).
Proof.
  split; [simpl; discriminate|]. split.
  - unfold get_log_prob, mix_p, mix_not_p. simpl. eexists. reflexivity.
  - unfold enumerate_samples, mix_p, mix_not_p. simpl. eexists. reflexivity.
Qed.

Lemma broadcast2_mismatch {A B C : Type} (f : A -> B -> C) (a : list A)
    (b : list B) :
  length a <> length b -> length a <> 1%nat -> length b <> 1%nat ->
  broadcast2 f a b = Err ValueError.
Proof.
  intros Hab Ha Hb. unfold broadcast2.
  destruct (length a =? length b)%nat eqn:E;
    [apply Nat.eqb_eq in E; contradiction|].
  destruct a as [|x [|x' a]], b as [|y [|y' b]]; simpl in *;
    try reflexivity; contradiction.
Qed.

(** C9, as it holds of the code.  When the two vectors differ in length and
    neither has exactly one entry, [get_log_prob] raises [ValueError] (the
    operands cannot be broadcast), and so does [enumerate_samples] as soon as
    its first element is asked for; the call of the generator itself runs
    nothing.  (A vector of one entry is broadcast instead.) *)
Theorem length_mismatch_raises (acoustic language : list R) (weight : R * R) :
  length acoustic <> length language ->
  length acoustic <> 1%nat -> length language <> 1%nat ->
  (forall sample,
     get_log_prob sample acoustic language weight = Err ValueError) /\
  (forall n,
     enumerate_samples acoustic language weight (S n)
     = ([], Raised ValueError)) /\
  enumerate_samples acoustic language weight 0 = ([], Suspended).
Proof.
  intros Hab Ha Hb.
  assert (Ep : mix_p weight acoustic language = Err ValueError).
  { apply broadcast2_mismatch; now rewrite !length_map. }
  split; [|split].
  - intros sample. unfold get_log_prob. now rewrite Ep.
  - intros n. unfold enumerate_samples. now rewrite Ep.
  - reflexivity.
Qed.

Lemma length_mismatch_raises_witness :
  (forall sample,
     get_log_prob sample [1/2; 1/2] [1/2; 1/2; 1/2] (1/2, 1/2)
     = Err ValueError) /\
  (forall n,
     enumerate_samples [1/2; 1/2] [1/2; 1/2; 1/2] (1/2, 1/2) (S n)
     = ([], Raised ValueError)) /\
  enumerate_samples [1/2; 1/2] [1/2; 1/2; 1/2] (1/2, 1/2) 0 = ([], Suspended).
Proof.
  apply length_mismatch_raises; simpl; discriminate.
Defined.

End EnumeratorSpec.

(* ================================================================= *)
(** ** The candidates of a frame *)

Module GatherFacts.

Import NumPy NumPyFacts Decode QueueFacts FlipTree Run Keys Enum Penalties Score
       LogProb Yields Elements Beam DecodeLoop.
Open Scope R_scope.

Lemma loop_length (l_0 : npfloat) (v_0 R : list nat) (Ls : list npfloat)
    (k : nat) (q : list entry) (num : nat) :
  (length (fst (loop l_0 v_0 R Ls k q num)) <= k)%nat.
Proof.
  revert q num; induction k as [|k IH]; intros q num; simpl; [lia|].
  destruct (q_get q) as [[[[l n] v] q1]|]; simpl; [|lia].
  destruct (take R v) as [Rv|e]; simpl; [|lia].
  destruct (np_max v + 1 <? length Ls)%nat.
  - specialize (IH (q_put (fsub (fadd l (at_ Ls (np_max v + 1))) (at_ Ls (np_max v)),
                           (num + 1)%nat, setxor1d (v ++ [(np_max v + 1)%nat]) [np_max v])
                      (q_put (fadd l (at_ Ls (np_max v + 1)), num,
                              v ++ [(np_max v + 1)%nat]) q1)) (num + 2)%nat).
    destruct (loop _ _ _ _ k _ _) as [ys o]. simpl in *. lia.
  - specialize (IH q1 num).
    destruct (loop _ _ _ _ k _ _) as [ys o]. simpl in *. lia.
Qed.

(** [islice(..., n)] hands over at most [n] elements. *)
Lemma enum_length (acoustic language : list R) (weight : R * R) (n : nat) :
  (length (fst (enumerate_samples acoustic language weight n)) <= n)%nat.
Proof.
  unfold enumerate_samples. destruct n as [|n]; [simpl; lia|].
  destruct (mix_p weight acoustic language) as [p|e]; [|simpl; lia].
  destruct (mix_not_p weight acoustic language) as [not_p|e]; [|simpl; lia].
  cbv zeta. destruct n as [|n]; [simpl; lia|].
  destruct (length p =? 1)%nat; [simpl; lia|].
  destruct (take _ _) as [[|L0 Ls]|e]; try (simpl; lia).
  match goal with |- context [loop ?a ?b ?c ?d ?k ?q ?m] =>
    pose proof (loop_length a b c d k q m) as Hl;
    destruct (loop a b c d k q m) as [ys o] end.
  simpl in *. lia.
Qed.

Lemma bind_ok {A B : Type} (a : A) (k : A -> result B) :
  bind (Ok a) k = k a.
Proof. reflexivity. Qed.

Lemma fold_left_err {A X : Type} (f : A -> X -> result A) (l : list X)
    (e : exn) :
  fold_left (fun acc x => a <- acc ;; f a x) l (Err e) = Err e.
Proof. induction l as [|x l IH]; simpl; [reflexivity | exact IH]. Qed.

Section SameLength.

Variables (acoustic language : list R) (weight : R * R).
Hypothesis same_length : length acoustic = length language.

Let pq := pq_of weight acoustic language.
Let P := length acoustic.

(** The samples hold pitches of the frame. *)
Lemma enum_in_range (n : nat) :
  Forall (fun y => forall i, In i (snd y) -> (i < P)%nat)
         (fst (enumerate_samples acoustic language weight n)).
Proof.
  assert (Hfirst : forall i, In i (snd (l0 pq, v0 pq)) -> (i < P)%nat).
  { simpl. intros i Hi. apply v0_lt in Hi.
    unfold pq in Hi. now rewrite (pq_length _ _ _ same_length) in Hi. }
  destruct n as [|[|n]].
  - simpl. constructor.
  - destruct (enum_first acoustic language weight same_length 0)
      as (ys & o & E).
    assert (ys = []).
    { revert E. unfold enumerate_samples.
      rewrite (mix_p_same _ _ _ same_length), (mix_not_p_same _ _ _ same_length).
      now intros [= _ _ <- _]. }
    subst. rewrite E. simpl. repeat constructor. exact Hfirst.
  - destruct (Nat.lt_ge_cases P 2) as [Hs|Hb].
    + rewrite (enum_small _ _ _ same_length n Hs). simpl.
      repeat constructor. exact Hfirst.
    + rewrite (enum_run _ _ _ same_length n Hb). fold pq. cbn [fst].
      constructor; [exact Hfirst|].
      assert (HP : length pq = P) by (unfold pq; now apply pq_length).
      apply Forall_forall. intros y Hy.
      apply in_map_iff in Hy as (e & <- & He). unfold yield_of. cbn [snd].
      intros i Hi. rewrite <- HP.
      apply (sample_of_lt pq (node e)); [|exact Hi].
      apply (run_node pq (S n) e); [rewrite HP; lia | exact He].
Qed.

(** On two pitches or more the generator raises nothing. *)
Lemma enum_no_raise (n : nat) (e : exn) :
  (2 <= P)%nat ->
  snd (enumerate_samples acoustic language weight n) <> Raised e.
Proof.
  intros HP. destruct n as [|[|n]].
  - simpl. discriminate.
  - unfold enumerate_samples.
    rewrite (mix_p_same _ _ _ same_length), (mix_not_p_same _ _ _ same_length).
    simpl. discriminate.
  - rewrite (enum_run _ _ _ same_length n HP). cbn [snd].
    assert (H0 : (0 < length (pq_of weight acoustic language))%nat).
    { rewrite (pq_length _ _ _ same_length). fold P. lia. }
    destruct (run_perm _ (S n) H0) as (rest & _ & _ & _ & Hra). apply Hra.
Qed.

Lemma get_log_prob_ok (b : list bool) :
  length b = P -> exists lp, get_log_prob b acoustic language weight = Ok lp.
Proof.
  intros Hb. rewrite (get_log_prob_same _ _ _ same_length b Hb). eauto.
Qed.

End SameLength.

Lemma binarize_length (P : nat) (sample : list nat) (b : list bool) :
  binarize P sample = Ok b -> length b = P.
Proof.
  unfold binarize. destruct (forallb _ sample); [|discriminate].
  intros [= <-]. now rewrite length_map, length_seq.
Qed.

Section Gather.

Variable H : Type.
Variables (weight : R * R) (frame : list R).
Hypothesis frame_length : length frame = 88%nat.

Definition priors_fit (beam : list (State H)) : Prop :=
  Forall (fun s => length (prior s) = 88%nat) beam.

Lemma add_for_state_ok (b : list bool) (cands : list (candidate H))
    (state : State H) :
  length b = 88%nat -> length (prior state) = 88%nat ->
  exists lp, add_for_state H weight frame b cands state =
             Ok (cands ++ [(state, b, lp)]).
Proof.
  intros Hb Hs. unfold add_for_state.
  destruct (get_log_prob_ok frame (prior state) weight) with (b := b)
    as [lp E]; [congruence | congruence |].
  rewrite E. simpl. eauto.
Qed.

Lemma add_for_beam_ok (b : list bool) (beam : list (State H))
    (cands : list (candidate H)) :
  length b = 88%nat -> priors_fit beam ->
  exists cands', add_for_beam H weight frame b beam cands = Ok cands'.
Proof.
  intros Hb. unfold add_for_beam. revert cands.
  induction beam as [|s beam IH]; intros cands Hp; cbn [fold_left]; [eauto|].
  apply Forall_cons_iff in Hp as [Hs Hp].
  destruct (add_for_state_ok b cands s Hb Hs) as [lp E].
  rewrite bind_ok, E. now apply IH.
Qed.

(** The shared block on a frame of 88 pitches: every sample it draws ends up
    in [unique_samples], as a vector of 88 entries. *)
Lemma shared_fold_ok (beam : list (State H))
    (ys : list (npfloat * list nat)) (us : list (list bool))
    (cands : list (candidate H)) :
  priors_fit beam ->
  Forall (fun y => forall i, In i (snd y) -> (i < 88)%nat) ys ->
  exists us' cands',
    fold_left (fun acc y => a <- acc ;; shared_body H true weight frame beam a y)
              ys (Ok (us, cands)) = Ok (us ++ us', cands') /\
    length us' = length ys /\
    Forall (fun u => length u = 88%nat) us'.
Proof.
  intros Hp. revert us cands.
  induction ys as [|y ys IH]; intros us cands Hy; cbn [fold_left].
  - exists [], cands. rewrite app_nil_r. repeat split. constructor.
  - apply Forall_cons_iff in Hy as [Hy0 Hy].
    rewrite bind_ok. unfold shared_body at 2.
    rewrite (binarize_ok 88 (snd y) Hy0), bind_ok.
    set (b := map (fun i => mem i (snd y)) (seq 0 88)).
    assert (Hb : length b = 88%nat) by (unfold b; now rewrite length_map, length_seq).
    destruct (add_for_beam_ok b beam cands Hb Hp) as [c' E].
    rewrite E, bind_ok.
    destruct (IH (us ++ [b]) c' Hy) as (us' & cands' & E' & Hl & Hu).
    exists (b :: us'), cands'. rewrite E', <- app_assoc.
    repeat split; [simpl; now rewrite Hl | now constructor].
Qed.

Lemma array_truth_ambiguous (c : list bool) :
  (2 <= length c)%nat -> array_truth c = Err ValueError.
Proof. destruct c as [|x [|y c]]; simpl; intros; try lia; reflexivity. Qed.

(** Asking whether a vector of 88 entries is [in] a non-empty list of such
    vectors asks for the truth value of an array of 88 comparisons. *)
Lemma py_in_raises (b u : list bool) (us : list (list bool)) :
  length b = 88%nat -> length u = 88%nat ->
  py_in b (u :: us) = Err ValueError.
Proof.
  intros Hb Hu. cbn [py_in].
  rewrite broadcast2_same by congruence. rewrite bind_ok.
  rewrite array_truth_ambiguous; [reflexivity|].
  rewrite map2_length by congruence. lia.
Qed.

Lemma own_fold_raises (u : list bool) (us : list (list bool))
    (state : State H) (y : npfloat * list nat)
    (ys : list (npfloat * list nat)) (cands : list (candidate H)) :
  length u = 88%nat -> (forall i, In i (snd y) -> (i < 88)%nat) ->
  fold_left (fun acc y => a <- acc ;;
                          own_body H true weight frame (u :: us) state a y)
            (y :: ys) (Ok cands) = Err ValueError.
Proof.
  intros Hu Hy. cbn [fold_left]. rewrite bind_ok. unfold own_body at 2.
  rewrite (binarize_ok 88 (snd y) Hy), bind_ok.
  rewrite py_in_raises; [|now rewrite length_map, length_seq | exact Hu].
  apply fold_left_err.
Qed.

End Gather.

End GatherFacts.

(* ================================================================= *)
(** ** The frame loop of [decode]: properties *)

Module DecodeSpec.

Import NumPy NumPyFacts Decode QueueFacts Enum Elements Beam DecodeLoop
       GatherFacts.
Open Scope R_scope.

Lemma is_union_union : is_union Method.union = true.
Proof. reflexivity. Qed.

Lemma own_block_zero (H : Type) (union : bool) (weight : R * R)
    (frame : list R) (beam : list (State H)) (us : list (list bool))
    (cands : list (candidate H)) :
  own_block H union weight 0 frame beam us cands = Ok cands.
Proof.
  unfold own_block. induction beam as [|s beam IH]; [reflexivity|].
  cbn [fold_left]. rewrite bind_ok. exact IH.
Qed.

(** C6.  In union mode the check that is to drop the samples of a
    hypothesis that are already in the shared pool does not complete: as soon
    as the shared pool holds a sample (a branch factor of two or more, a
    non-empty beam, a frame and priors of 88 pitches), the first membership
    test [binary_sample in unique_samples] raises [ValueError], so the frame
    yields no candidates at all. *)
Theorem union_overlap_check_raises (H : Type) (weight : R * R)
    (frame : list R) (first : State H) (rest : list (State H))
    (branch_factor : nat) :
  length frame = 88%nat ->
  priors_fit H (first :: rest) ->
  (2 <= branch_factor)%nat ->
  gather H Method.union weight
         (effective_branch_factor Method.union branch_factor)
         frame (first :: rest) = Err ValueError.
Proof.
  intros Hf Hp Hb.
  unfold effective_branch_factor. rewrite is_union_union.
  assert (Hk : exists k, (branch_factor / 2)%nat = S k).
  { destruct (branch_factor / 2)%nat as [|k] eqn:E; [|eauto].
    apply Nat.div_small_iff in E; lia. }
  destruct Hk as [k Hk]. rewrite Hk.
  pose proof (proj1 (Forall_cons_iff _ _ _) Hp) as [Hp1 _].
  assert (Hsame : length frame = length (prior first)) by congruence.
  unfold gather. rewrite is_union_union. cbn [orb].
  (* the shared block *)
  unfold shared_block, for_islice.
  destruct (enum_first frame (prior first) (1, 0) Hsame k) as (ys & o & E).
  pose proof (enum_in_range frame (prior first) (1, 0) Hsame (S k)) as Hr.
  pose proof (enum_no_raise frame (prior first) (1, 0) Hsame (S k)) as Hn.
  rewrite Hf in Hr, Hn. rewrite E in *. cbn [fst snd] in *.
  destruct (shared_fold_ok H weight frame Hf (first :: rest) _ [] [] Hp Hr)
    as (us & cands & Efold & Hlen & Hus).
  rewrite Efold, bind_ok.
  assert (Ho : (match o with Raised e => Err e | _ => Ok ([] ++ us, cands) end)
               = Ok (us, cands)).
  { destruct o; try reflexivity. exfalso. apply (Hn e); [lia | reflexivity]. }
  rewrite Ho, bind_ok. cbn [fst snd].
  (* the block of the first hypothesis *)
  destruct us as [|u us]; [simpl in Hlen; discriminate|].
  apply Forall_cons_iff in Hus as [Hu _].
  unfold own_block. cbn [fold_left]. rewrite bind_ok.
  destruct (enum_first frame (prior first) (0, 1) Hsame k) as (ys' & o' & E').
  pose proof (enum_in_range frame (prior first) (0, 1) Hsame (S k)) as Hr'.
  rewrite Hf, E' in Hr'. cbn [fst] in Hr'.
  apply Forall_cons_iff in Hr' as [Hy' _].
  rewrite E'. unfold for_islice. cbn [fst snd].
  rewrite (own_fold_raises H weight frame Hf u us first _ ys' cands Hu Hy').
  cbn [bind]. apply fold_left_err.
Qed.

Lemma union_overlap_check_raises_witness :
  gather unit Method.union (1/2, 1/2)
         (effective_branch_factor Method.union 2)
         (repeat (1/2) 88)
         [mkState (Fin 0) [] tt (repeat (1/2) 88)] = Err ValueError.
Proof.
  apply union_overlap_check_raises.
  - reflexivity.
  - constructor; [reflexivity | constructor].
  - lia.
Defined.



End DecodeSpec.

(* ================================================================= *)
(** ** The beam and the loop of [get_weight_data]: properties *)

Module BlendingSpec.

Import NumPy NumPyFacts Decode Beam DecodeLoop Blending.
Open Scope R_scope.

Lemma fadd_zero (x : npfloat) : fadd x (Fin 0) = x.
Proof. destruct x; simpl; try reflexivity. f_equal. lra. Qed.

Section BeamFacts.

Variable H : Type.

Lemma merge_into_In (h : nat) (s x : State H) (acc : list (State H)) :
  In x (merge_into h s acc) -> x = s \/ In x acc.
Proof.
  induction acc as [|t acc IH]; simpl.
  - intros [<-|[]]. now left.
  - destruct (key_eqb _ _).
    + destruct (flt _ _); simpl; intuition.
    + simpl. intuition.
Qed.

Lemma merge_In (h : nat) (x : State H) (beam : list (State H)) :
  In x (merge h beam) -> In x beam.
Proof.
  unfold merge.
  assert (G : forall acc, In x (fold_left (fun acc s => merge_into h s acc)
                                          beam acc) ->
                          In x acc \/ In x beam).
  { induction beam as [|s beam IH]; intros acc; simpl; [tauto|].
    intros Hx. destruct (IH _ Hx) as [Hx'|Hx']; [|tauto].
    apply merge_into_In in Hx'. intuition. }
  intros Hx. destruct (G [] Hx) as [[]|Hx']. exact Hx'.
Qed.

Lemma insert_desc_perm (s : State H) (l : list (State H)) :
  Permutation (insert_desc s l) (s :: l).
Proof.
  induction l as [|t l IH]; simpl; [reflexivity|].
  destruct (flt _ _); [reflexivity|].
  apply perm_trans with (t :: s :: l); [now constructor | apply perm_swap].
Qed.

Lemma sort_desc_perm (beam : list (State H)) :
  Permutation (sort_desc beam) beam.
Proof.
  induction beam as [|s beam IH]; simpl; [reflexivity|].
  apply perm_trans with (s :: sort_desc beam);
    [apply insert_desc_perm | now constructor].
Qed.

Lemma firstn_In {A : Type} (n : nat) (l : list A) (x : A) :
  In x (firstn n l) -> In x l.
Proof.
  revert l; induction n as [|n IH]; intros [|y l]; simpl; try tauto.
  intros [<-|Hx]; auto.
Qed.

(** Pruning keeps hypotheses of the beam it is given. *)
Lemma cut_to_size_In (beam_size : nat) (hash_length : option nat)
    (beam : list (State H)) (x : State H) :
  In x (cut_to_size beam_size hash_length beam) -> In x beam.
Proof.
  unfold cut_to_size. intros Hx. apply firstn_In in Hx.
  apply (Permutation_in _ (sort_desc_perm _)) in Hx.
  destruct hash_length as [h|]; [now apply (merge_In h) | exact Hx].
Qed.

Lemma cut_to_size_single (beam_size : nat) (hash_length : option nat)
    (s : State H) :
  (1 <= beam_size)%nat -> cut_to_size beam_size hash_length [s] = [s].
Proof.
  intros Hb. unfold cut_to_size.
  destruct hash_length as [h|]; simpl;
    destruct beam_size; try lia; simpl; now rewrite firstn_nil.
Qed.

End BeamFacts.

Section Loop.

Variable H : Type.
Variable score : H -> list (list bool) -> H * list R.
Variable sampling_enumerate : list R -> nat -> list (npfloat * list nat).
Variable format_sample : list nat -> nat -> list bool.

Variables (branch_factor beam_size hash_length : nat) (gt_only : bool).
Variables (weight : R * R) (P : nat).

Abbreviation transitions' :=
  (transitions H score sampling_enumerate format_sample branch_factor gt_only
               weight P).
Abbreviation frame_step' :=
  (frame_step H score sampling_enumerate format_sample branch_factor beam_size
              hash_length gt_only weight P).
Abbreviation frames' :=
  (frames H score sampling_enumerate format_sample branch_factor beam_size
          hash_length gt_only weight P).

Lemma run_lstm_history (b : list (State H)) (s : State H) :
  In s (run_lstm H score b) ->
  exists s0, In s0 b /\ sample_history s = sample_history s0 /\
             log_prob s = log_prob s0.
Proof.
  unfold run_lstm. intros Hs. apply in_map_iff in Hs as (s0 & <- & H0).
  exists s0. destruct (score _ _). simpl. auto.
Qed.

Lemma last_opt_In {A : Type} (l : list A) (x : A) :
  last_opt l = Some x -> In x l.
Proof.
  induction l as [|y [|z l] IH]; simpl; try discriminate.
  - intros [= ->]. now left.
  - intros Hx. right. now apply IH.
Qed.

Lemma last_opt_none {A : Type} (l : list A) : last_opt l = None -> l = [].
Proof.
  induction l as [|y [|z l] IH]; simpl; try discriminate; [reflexivity|].
  intros Hx. specialize (IH Hx). discriminate.
Qed.

(** The beam a frame works on: histories are those of the beam before. *)
Lemma stepped_history (t : nat) (b : list (State H)) (s : State H) :
  In s (if (t =? 0)%nat then b else run_lstm H score b) ->
  exists s0, In s0 b /\ sample_history s = sample_history s0 /\
             log_prob s = log_prob s0.
Proof.
  destruct (t =? 0)%nat; [eauto | apply run_lstm_history].
Qed.

Lemma ranked_history (t : nat) (frame : list R) (b : list (State H))
    (acc : list (State H)) (v : option (State H))
    (r : list (State H) * option (State H)) :
  fold_left
    (fun acc s =>
       a <- acc ;;
       pr <- mix_p weight frame (prior s) ;;
       let s' := mkState (log_prob s) (sample_history s) (hidden_state s) pr in
       Ok (fst a ++ map (fun y => transition2 s' (format_sample (snd y) P)
                                              (fst y))
                        (sampling_enumerate pr branch_factor),
           Some s'))
    b (Ok (acc, v)) = Ok r ->
  (forall s, In s b -> length (sample_history s) = t) ->
  (forall s, In s acc -> length (sample_history s) = S t) ->
  forall s, In s (fst r) -> length (sample_history s) = S t.
Proof.
  revert acc v; induction b as [|s0 b IH]; intros acc v; cbn [fold_left].
  - intros [= <-] _ Hacc. exact Hacc.
  - intros E Hb Hacc. cbn [bind] in E.
    destruct (mix_p weight frame (prior s0)) as [pr|e] eqn:Em; cbn [bind] in E.
    + cbv zeta in E. cbn [fst] in E. apply (IH _ _ E).
      * intros s Hs. apply Hb. now right.
      * intros s Hs. apply in_app_iff in Hs as [Hs|Hs]; [auto|].
        apply in_map_iff in Hs as (y & <- & _). simpl.
        rewrite length_app. simpl. rewrite (Hb s0 (or_introl eq_refl)). lia.
    + exfalso. clear -E. induction b as [|s b IHb]; simpl in E;
        [discriminate | auto].
Qed.

(** The successors of frame [t] have [t + 1] samples in their history. *)
Lemma transitions_history (t : nat) (gt_frame : list bool) (frame : list R)
    (vs : vars H) (r : list (State H) * option (State H)) :
  transitions' t gt_frame frame vs = Ok r ->
  (forall s, In s (beam vs) -> length (sample_history s) = t) ->
  (gt_only = true -> beam vs <> []) ->
  forall s, In s (fst r) -> length (sample_history s) = S t.
Proof.
  unfold transitions. intros E Hb Hne.
  set (b := if (t =? 0)%nat then beam vs else run_lstm H score (beam vs)) in *.
  assert (Hb' : forall s, In s b -> length (sample_history s) = t).
  { intros s Hs. apply stepped_history in Hs as (s0 & H0 & -> & _). auto. }
  destruct gt_only.
  - destruct (last_opt b) as [s1|] eqn:El.
    + injection E as <-. cbn [fst]. intros s [<-|[]]. simpl.
      rewrite length_app. simpl. rewrite (Hb' s1 (last_opt_In _ _ El)). lia.
    + exfalso. apply last_opt_none in El. apply (Hne eq_refl).
      unfold b in El. destruct (t =? 0)%nat; [exact El|].
      unfold run_lstm in El. now apply map_eq_nil in El.
  - unfold ranked in E. apply (ranked_history t frame b [] _ r E Hb').
    intros s [].
Qed.

(** What holds of the variables when frame [t] starts. *)
Definition at_frame (t : nat) (vs : vars H) : Prop :=
  (forall s, In s (beam vs) -> length (sample_history s) = t) /\
  (gt_only = true -> beam vs <> []).

Lemma frame_step_at (t : nat) (gt_frame : list bool) (frame : list R)
    (vs vs' : vars H) :
  (gt_only = true -> (1 <= beam_size)%nat) ->
  at_frame t vs -> frame_step' t gt_frame frame vs = Ok vs' ->
  at_frame (S t) vs'.
Proof.
  intros Hbs [Hh Hne] E. unfold frame_step in E.
  destruct (transitions' t gt_frame frame vs) as [r|e] eqn:Et; [|discriminate].
  cbn [bind] in E. injection E as <-. split; cbn [beam].
  - intros s Hs. apply cut_to_size_In in Hs.
    now apply (transitions_history t gt_frame frame vs r Et Hh Hne).
  - intros Hg. specialize (Hbs Hg). specialize (Hne Hg).
    unfold transitions in Et. rewrite Hg in Et.
    destruct (match last_opt _ with Some s => Some s | None => state vs end)
      as [s1|]; [|discriminate].
    injection Et as <-. cbn [fst].
    rewrite cut_to_size_single by exact Hbs. discriminate.
Qed.

Lemma frames_at (gt : list (list bool)) (acoustic : list (list R)) (t : nat)
    (vs vs' : vars H) :
  (gt_only = true -> (1 <= beam_size)%nat) ->
  length gt = length acoustic ->
  at_frame t vs -> frames' t gt acoustic vs = Ok vs' ->
  at_frame (t + length gt) vs'.
Proof.
  intros Hbs. revert acoustic t vs.
  induction gt as [|g gt IH]; intros [|a acoustic] t vs Hl Hat; simpl in *;
    try discriminate.
  - intros [= <-]. now rewrite Nat.add_0_r.
  - destruct (frame_step' t g a vs) as [vs1|e] eqn:E; [|discriminate].
    cbn [bind]. intros Ef.
    replace (t + S (length gt))%nat with (S t + length gt)%nat by lia.
    apply (IH acoustic (S t) vs1); [lia | | exact Ef].
    now apply (frame_step_at t g a vs).
Qed.


End Loop.

Section GroundTruth.

Variable H : Type.
Variable score : H -> list (list bool) -> H * list R.
Variable sampling_enumerate : list R -> nat -> list (npfloat * list nat).
Variable format_sample : list nat -> nat -> list bool.

Variables (branch_factor beam_size hash_length : nat).
Variables (weight : R * R) (P : nat).

Abbreviation gt_step :=
  (frame_step H score sampling_enumerate format_sample branch_factor beam_size
              hash_length true weight P).
Abbreviation gt_frames :=
  (frames H score sampling_enumerate format_sample branch_factor beam_size
          hash_length true weight P).

Hypothesis beam_size_pos : (1 <= beam_size)%nat.

(** On a beam of one hypothesis a frame forces one transition. *)
Lemma gt_step_single (t : nat) (gt_frame : list bool) (frame : list R)
    (s : State H) (v : option (State H)) :
  exists s',
    sample_history s' = sample_history s /\ log_prob s' = log_prob s /\
    gt_step t gt_frame frame (mkVars [s] v) =
    Ok (mkVars [transition2 s' gt_frame (Fin 0)] (Some s')).
Proof.
  unfold frame_step, transitions. cbn [beam].
  destruct (t =? 0)%nat.
  - exists s. repeat split. cbn [last_opt bind fst snd].
    now rewrite cut_to_size_single.
  - unfold run_lstm. cbn [map last_opt].
    destruct (score (hidden_state s) (sample_history s)) as [h pr].
    eexists. split; [|split]; [| |cbn [bind fst snd];
      rewrite cut_to_size_single by exact beam_size_pos; reflexivity];
      reflexivity.
Qed.

Lemma gt_frames_single (gt : list (list bool)) (acoustic : list (list R))
    (t : nat) (s : State H) (v : option (State H)) :
  length gt = length acoustic ->
  exists s' v',
    gt_frames t gt acoustic (mkVars [s] v) = Ok (mkVars [s'] v') /\
    sample_history s' = sample_history s ++ gt /\
    log_prob s' = log_prob s.
Proof.
  revert acoustic t s v.
  induction gt as [|g gt IH]; intros [|a acoustic] t s v Hl; simpl in Hl;
    try discriminate.
  - exists s, v. simpl. now rewrite app_nil_r.
  - cbn [frames].
    destruct (gt_step_single t g a s v) as (s1 & Hh & Hp & E).
    rewrite E. cbn [bind].
    destruct (IH acoustic (S t) (transition2 s1 g (Fin 0)) (Some s1))
      as (s' & v' & E' & Hh' & Hp'); [lia|].
    exists s', v'. split; [exact E'|]. split.
    + rewrite Hh'. simpl. rewrite Hh, <- app_assoc. reflexivity.
    + rewrite Hp'. simpl. rewrite fadd_zero. exact Hp.
Qed.


End GroundTruth.

(** *** Concrete runs *)

Definition no_score (h : unit) (history : list (list bool)) : unit * list R :=
  (tt, []).
Definition no_samples (pr : list R) (n : nat) : list (npfloat * list nat) := [].
Definition no_format (sample : list nat) (P : nat) : list bool := [].
Definition seed : State unit := mkState (Fin 0) [] tt [].



(** Two successors of the second frame that share their last sample. *)
Definition state_a : State unit :=
  mkState (Fin (-1)) [[true]; [false]] tt [].
Definition state_b : State unit :=
  mkState (Fin (-2)) [[false]; [false]] tt [].


End BlendingSpec.
(* ================================================================= *)
(** ** The enumerator: further properties *)

Module EnumeratorMore.

Import NumPy NumPyFacts Decode QueueFacts FlipTree Run Keys Enum Penalties Score
       LogProb Yields Elements Total EnumeratorSpec GatherFacts.
Open Scope R_scope.

(** *** How many elements a request gets *)

Lemma pops_short (Ls : list npfloat) (k : nat) (q : list entry) (num : nat) :
  (length (fst (pops Ls k q num)) <= k)%nat /\
  (snd (pops Ls k q num) = Exhausted ->
   (length (fst (pops Ls k q num)) < k)%nat).
Proof.
  revert q num; induction k as [|k IH]; intros q num; simpl.
  - split; [lia | discriminate].
  - destruct (q_get q) as [[e q1]|]; [|simpl; split; [lia | intros; lia]].
    destruct (expand Ls e q1 num) as [q2 num2].
    specialize (IH q2 num2). destruct (pops Ls k q2 num2) as [es o].
    simpl in *. destruct IH as [H1 H2]. split; [lia|].
    intros E. specialize (H2 E). lia.
Qed.

(** Asking for more does not change what was handed over before. *)
Lemma pops_prefix (Ls : list npfloat) (k j : nat) (q : list entry)
    (num : nat) :
  fst (pops Ls k q num) = firstn k (fst (pops Ls (k + j) q num)).
Proof.
  revert q num; induction k as [|k IH]; intros q num; [reflexivity|].
  cbn [Nat.add pops]. destruct (q_get q) as [[e q1]|]; [|reflexivity].
  destruct (expand Ls e q1 num) as [q2 num2].
  specialize (IH q2 num2).
  destruct (pops Ls k q2 num2) as [es o].
  destruct (pops Ls (k + j) q2 num2) as [es' o'].
  simpl in *. now rewrite IH.
Qed.

Section SameLength.

Variables (acoustic language : list R) (weight : R * R).
Hypothesis same_length : length acoustic = length language.

Let pq := pq_of weight acoustic language.
Let P := length acoustic.

Lemma enum_one :
  enumerate_samples acoustic language weight 1 = ([(l0 pq, v0 pq)], Suspended).
Proof.
  unfold enumerate_samples.
  rewrite (mix_p_same _ _ _ same_length), (mix_not_p_same _ _ _ same_length).
  cbv beta iota zeta.
  now rewrite mix_v0, mix_l0.
Qed.

Lemma enum_prefix (n j : nat) :
  fst (enumerate_samples acoustic language weight n) =
  firstn n (fst (enumerate_samples acoustic language weight (n + j))).
Proof.
  destruct n as [|[|n]].
  - reflexivity.
  - rewrite enum_one.
    destruct (enum_first acoustic language weight same_length (0 + j))
      as (ys & o & E).
    cbn [Nat.add] in *. now rewrite E.
  - cbn [Nat.add]. destruct (Nat.lt_ge_cases P 2) as [Hs|Hb].
    + now rewrite !(enum_small _ _ _ same_length) by exact Hs.
    + rewrite !(enum_run _ _ _ same_length) by exact Hb. fold pq.
      cbn [fst]. rewrite firstn_cons. f_equal.
      rewrite firstn_map. f_equal.
      change (S (n + j)) with (S n + j)%nat. unfold run_of.
      apply pops_prefix.
Qed.

Lemma enum_count (n : nat) :
  (2 <= P)%nat -> (n <= 2 ^ P)%nat ->
  length (fst (enumerate_samples acoustic language weight n)) = n /\
  snd (enumerate_samples acoustic language weight n) = Suspended.
Proof.
  intros HP Hn. destruct n as [|[|n]].
  - split; reflexivity.
  - rewrite enum_one. split; reflexivity.
  - rewrite (enum_run _ _ _ same_length n HP). fold pq. cbn [fst snd length].
    rewrite length_map.
    assert (H0 : (0 < length pq)%nat).
    { unfold pq. rewrite (pq_length _ _ _ same_length). fold P. lia. }
    destruct (run_perm pq (S n) H0) as (rest & Hp & Hex & Hsu & Hra).
    pose proof (ne_length (seq 0 (length pq))) as Hl.
    rewrite length_seq in Hl.
    replace (length pq) with P in *
      by (unfold pq; now rewrite (pq_length _ _ _ same_length)).
    apply Permutation_length in Hp. rewrite length_app, length_map in Hp.
    unfold run_of in *.
    set (Ls := map (at_ (pen pq)) (argsort (pen pq))) in *.
    destruct (pops_short Ls (S n) [(at_ Ls 0, 0%nat, [0%nat])] 1) as [Hle Hlt].
    destruct (snd (pops Ls (S n) [(at_ Ls 0, 0%nat, [0%nat])] 1)) eqn:E.
    + split; [|reflexivity]. now rewrite (Hsu eq_refl).
    + exfalso. specialize (Hlt eq_refl). rewrite (Hex eq_refl) in Hp.
      cbn [length] in Hp.
      rewrite Nat.add_0_r in Hp. lia.
    + now destruct (Hra e).
Qed.

End SameLength.

(** *** Witness data *)

Lemma inner_probabilities :
  probabilities inner_acoustic /\ probabilities inner_language.
Proof.
  unfold probabilities, inner_acoustic, inner_language.
  split; repeat constructor; lra.
Qed.

(** *** The samples *)

(** X1.  For two vectors of one length every sample the enumerator hands
    over is a strictly increasing array of pitch indices below the length of
    the frame. *)
Theorem samples_sorted_in_range (acoustic language : list R) (weight : R * R)
    (n : nat) (y : npfloat * list nat) :
  length acoustic = length language ->
  In y (fst (enumerate_samples acoustic language weight n)) ->
  incr (snd y) /\ (forall i, In i (snd y) -> (i < length acoustic)%nat).
Proof.
  intros Hl Hy. split.
  - set (pq := pq_of weight acoustic language).
    destruct n as [|[|n]].
    + destruct Hy.
    + rewrite (enum_one _ _ _ Hl) in Hy. destruct Hy as [<-|[]].
      apply v0_incr.
    + destruct (Nat.lt_ge_cases (length acoustic) 2) as [Hs|Hb].
      * rewrite (enum_small _ _ _ Hl n Hs) in Hy. destruct Hy as [<-|[]].
        apply v0_incr.
      * rewrite (enum_run _ _ _ Hl n Hb) in Hy. destruct Hy as [<-|Hy].
        -- apply v0_incr.
        -- apply in_map_iff in Hy as (e & <- & _). apply setxor1d_incr.
  - pose proof (enum_in_range acoustic language weight Hl n) as H.
    rewrite Forall_forall in H. now apply H.
Qed.

Lemma samples_sorted_in_range_witness :
  incr (v0 (pq_of inner_weight inner_acoustic inner_language)) /\
  (forall i, In i (v0 (pq_of inner_weight inner_acoustic inner_language)) ->
             (i < length inner_acoustic)%nat).
Proof.
  apply (samples_sorted_in_range inner_acoustic inner_language inner_weight 1
           (l0 (pq_of inner_weight inner_acoustic inner_language),
            v0 (pq_of inner_weight inner_acoustic inner_language))).
  - reflexivity.
  - rewrite (enum_one inner_acoustic inner_language inner_weight eq_refl).
    left. reflexivity.
Defined.

(** X2.  For two vectors of one length [P >= 2], a consumer that asks for
    [n] elements gets [min n (2^P)] of them and no exception: up to [2^P]
    requests the generator stays suspended at its last [yield], beyond them
    it is exhausted. *)
Theorem request_gets_exactly (acoustic language : list R) (weight : R * R)
    (n : nat) :
  length acoustic = length language -> (2 <= length acoustic)%nat ->
  length (fst (enumerate_samples acoustic language weight n))
    = Nat.min n (2 ^ length acoustic) /\
  snd (enumerate_samples acoustic language weight n)
    = if (n <=? 2 ^ length acoustic)%nat then Suspended else Exhausted.
Proof.
  intros Hl HP. destruct (Nat.leb_spec n (2 ^ length acoustic)) as [Hn|Hn].
  - destruct (enum_count acoustic language weight Hl n HP Hn) as [Hc Hs].
    rewrite Hc, Hs. split; [symmetry; now apply Nat.min_l | reflexivity].
  - destruct (enum_all acoustic language weight Hl n HP Hn) as [Hex Hperm].
    split; [|exact Hex].
    rewrite <- (length_map snd), (Permutation_length Hperm), subs_length,
      length_seq.
    symmetry. apply Nat.min_r. lia.
Qed.

Lemma request_gets_exactly_witness :
  length (fst (enumerate_samples inner_acoustic inner_language
                                 inner_weight 3))
    = Nat.min 3 (2 ^ length inner_acoustic) /\
  snd (enumerate_samples inner_acoustic inner_language inner_weight 3)
    = if (3 <=? 2 ^ length inner_acoustic)%nat then Suspended else Exhausted.
Proof.
  apply request_gets_exactly; [reflexivity | simpl; lia].
Defined.

(** *** A weight of zero *)

Lemma map_zero_mult (f : R -> R) (l l' : list R) :
  length l = length l' -> map (fun x => 0 * f x) l = map (fun x => 0 * f x) l'.
Proof.
  revert l'; induction l as [|x l IH]; intros [|y l'] H; simpl in *;
    try discriminate; [reflexivity|].
  f_equal; [lra | apply IH; lia].
Qed.

(** X3.  Under the acoustic-only weight [(1, 0)] the enumeration does not
    depend on the entries of the prior, only on its length, and under the
    language-only weight [(0, 1)] it does not depend on the entries of the
    acoustic frame: the shared samples of [decode] are the same whichever
    hypothesis lends its prior. *)
Theorem zero_weight_side_ignored (x x' y : list R) (n : nat) :
  length x = length x' ->
  enumerate_samples y x (1, 0) n = enumerate_samples y x' (1, 0) n /\
  enumerate_samples x y (0, 1) n = enumerate_samples x' y (0, 1) n.
Proof.
  intros Hl.
  assert (E1 : map (Rmult 0) x = map (Rmult 0) x')
    by apply (map_zero_mult (fun v => v) x x' Hl).
  assert (E2 : map (fun v => 0 * (1 - v)) x = map (fun v => 0 * (1 - v)) x')
    by apply (map_zero_mult (fun v => 1 - v) x x' Hl).
  split; unfold enumerate_samples, mix_p, mix_not_p; cbn [fst snd];
    now rewrite E1, E2.
Qed.

Lemma zero_weight_side_ignored_witness :
  enumerate_samples inner_acoustic [1/2; 1/2] (1, 0) 3
    = enumerate_samples inner_acoustic [1/10; 9/10] (1, 0) 3 /\
  enumerate_samples [1/2; 1/2] inner_acoustic (0, 1) 3
    = enumerate_samples [1/10; 9/10] inner_acoustic (0, 1) 3.
Proof. apply zero_weight_side_ignored. reflexivity. Defined.

(** *** The second element *)

Lemma sort_lt_irrefl (x : npfloat) : sort_lt x x = false.
Proof.
  unfold sort_lt. destruct x as [a| | |]; simpl; try reflexivity.
  rewrite Rltb_false by lra. reflexivity.
Qed.

(** X4.  On two pitches or more the second element is the greedy sample with
    one pitch flipped, the pitch [r] that heads the argsort of the
    penalties [L]: no penalty sorts before [L[r]], and the log-probability is
    [l_0 - L[r]]. *)
Theorem second_flips_least_penalty (acoustic language : list R)
    (weight : R * R) (n : nat) :
  length acoustic = length language -> (2 <= length acoustic)%nat ->
  exists r,
    (r < length acoustic)%nat /\
    (forall i, (i < length acoustic)%nat ->
       sort_lt (at_ (pen (pq_of weight acoustic language)) i)
               (at_ (pen (pq_of weight acoustic language)) r) = false) /\
    nth_error (fst (enumerate_samples acoustic language weight (S (S n)))) 1 =
    Some (fsub (l0 (pq_of weight acoustic language))
               (at_ (pen (pq_of weight acoustic language)) r),
          setxor1d (v0 (pq_of weight acoustic language)) [r]).
Proof.
  intros Hl HP. set (pq := pq_of weight acoustic language).
  assert (Hpq : length pq = length acoustic) by (now apply pq_length).
  assert (H0 : (0 < length pq)%nat) by lia.
  exists (nth 0 (Rs pq) 0%nat). split; [|split].
  - rewrite <- Hpq. now apply order_lt.
  - intros i Hi.
    assert (Hin : In i (Rs pq)).
    { apply (Permutation_in _ (Permutation_sym (argsort_perm (pen pq)))).
      apply in_seq. unfold pen. rewrite length_map. lia. }
    pose proof (argsort_sorted (pen pq)) as Hs. fold (Rs pq) in Hs.
    pose proof (order_length pq) as Hlen.
    destruct (Rs pq) as [|r tl]; [simpl in Hlen; lia|].
    cbn [nth]. apply StronglySorted_inv in Hs as [_ Hs].
    destruct Hin as [<-|Hin]; [apply sort_lt_irrefl|].
    rewrite Forall_forall in Hs. exact (Hs i Hin).
  - rewrite (enum_run _ _ _ Hl n HP). fold pq. cbn [fst nth_error].
    unfold run_of. fold (Rs pq). fold (Ls pq).
    cbn [pops q_get get_min].
    destruct (expand (Ls pq) (at_ (Ls pq) 0, 0%nat, [0%nat]) [] 1)
      as [q2 num2].
    destruct (pops (Ls pq) n q2 num2) as [es o].
    cbn [fst map nth_error]. unfold yield_of, key, node. cbn [fst snd map].
    now rewrite (at_Ls pq 0 H0).
Qed.

Lemma second_flips_least_penalty_witness :
  exists r,
    (r < length inner_acoustic)%nat /\
    (forall i, (i < length inner_acoustic)%nat ->
       sort_lt (at_ (pen (pq_of inner_weight inner_acoustic inner_language)) i)
               (at_ (pen (pq_of inner_weight inner_acoustic inner_language)) r)
         = false) /\
    nth_error (fst (enumerate_samples inner_acoustic inner_language
                                      inner_weight 2)) 1 =
    Some (fsub (l0 (pq_of inner_weight inner_acoustic inner_language))
               (at_ (pen (pq_of inner_weight inner_acoustic inner_language)) r),
          setxor1d (v0 (pq_of inner_weight inner_acoustic inner_language)) [r]).
Proof.
  apply (second_flips_least_penalty inner_acoustic inner_language inner_weight
           0); [reflexivity | simpl; lia].
Defined.

(** *** Fewer than two pitches *)

(** X6.  On vectors of one length below two (no pitch, or one pitch) the
    enumerator hands over its first element and raises [IndexError] when a
    second one is asked for. *)
Theorem fewer_than_two_pitches (acoustic language : list R) (weight : R * R)
    (n : nat) :
  length acoustic = length language -> (length acoustic < 2)%nat ->
  exists l_0 v_0,
    enumerate_samples acoustic language weight 1 = ([(l_0, v_0)], Suspended) /\
    enumerate_samples acoustic language weight (S (S n))
      = ([(l_0, v_0)], Raised IndexError).
Proof.
  intros Hl Hs.
  exists (l0 (pq_of weight acoustic language)),
         (v0 (pq_of weight acoustic language)).
  split; [now apply enum_one | now apply enum_small].
Qed.

Lemma fewer_than_two_pitches_witness :
  exists l_0 v_0,
    enumerate_samples [] [] (1/2, 1/2) 1 = ([(l_0, v_0)], Suspended) /\
    enumerate_samples [] [] (1/2, 1/2) 2 = ([(l_0, v_0)], Raised IndexError).
Proof.
  apply (fewer_than_two_pitches [] [] (1/2, 1/2) 0); [reflexivity | simpl; lia].
Defined.

(** *** Bounds on the scores *)

(** The per-pitch terms of [get_log_prob]. *)
Definition picked (b : list bool) (pq : list (R * R)) : list npfloat :=
  map2 (fun (s : bool) (xy : npfloat * npfloat) =>
          if s then fst xy else snd xy)
       b (map (fun ab => (flogR (fst ab), flogR (snd ab))) pq).

(** The score of a binary vector, term by term below the numbers [g]. *)
Lemma picked_bounded (g : R * R -> R) (pq : list (R * R)) :
  Forall (fun ab => sane ab /\
                    (0 < fst ab -> ln (fst ab) <= g ab) /\
                    (0 < snd ab -> ln (snd ab) <= g ab)) pq ->
  forall b, length b = length pq ->
    log_like (np_sum (picked b pq)) /\
    fle (np_sum (picked b pq)) (Fin (sumR (map g pq))).
Proof.
  induction 1 as [|ab pq Hab _ IH]; intros [|s b] Hb; simpl in Hb;
    try discriminate.
  - simpl. split; [right; now exists 0 | lra].
  - destruct (IH b ltac:(lia)) as [Hlog Hle].
    change (np_sum (picked (s :: b) (ab :: pq)))
      with (fadd (if s then flogR (fst ab) else flogR (snd ab))
                 (np_sum (picked b pq))).
    change (sumR (map g (ab :: pq))) with (g ab + sumR (map g pq)).
    destruct Hab as ((Hp & Hq & _) & Gp & Gq).
    assert (Ht : (if s then flogR (fst ab) else flogR (snd ab)) = NInf \/
                 exists r, (if s then flogR (fst ab) else flogR (snd ab))
                           = Fin r /\ r <= g ab).
    { destruct s.
      - destruct Hp as [Hp|Hp]; [right | left; rewrite <- Hp; apply flogR_zero].
        exists (ln (fst ab)). split; [now apply flogR_pos | now apply Gp].
      - destruct Hq as [Hq|Hq]; [right | left; rewrite <- Hq; apply flogR_zero].
        exists (ln (snd ab)). split; [now apply flogR_pos | now apply Gq]. }
    destruct Ht as [->|(r & -> & Hr)], Hlog as [E|[c E]]; rewrite E in *;
      simpl in *; (split; [try (now left); right; eauto | try exact I; lra]).
Qed.

Lemma sumR_zero {A : Type} (l : list A) : sumR (map (fun _ => 0) l) = 0.
Proof. induction l as [|x l IH]; simpl; [reflexivity | rewrite IH; lra]. Qed.

Lemma closed_sane (weight : R * R) (acoustic language : list R) :
  normalized weight -> probabilities acoustic -> probabilities language ->
  Forall (fun ab => sane ab /\ fst ab <= 1 /\ snd ab <= 1)
         (pq_of weight acoustic language).
Proof.
  intros Hw Ha Hl.
  pose proof (combined_closed weight acoustic language Hw Ha Hl) as Hc.
  destruct Hw as (_ & _ & Hw).
  rewrite Forall_forall in Hc. apply Forall_forall. intros ab Hab.
  pose proof (pq_sum _ _ _ _ Hab). specialize (Hc ab Hab). unfold sane. lra.
Qed.

(** X5.  For probability vectors of one length and a normalized weight the
    score [get_log_prob] gives a binary vector of that length is never
    positive: it is a finite number at most 0, or [-inf]. *)
Theorem get_log_prob_nonpositive (acoustic language : list R)
    (weight : R * R) (b : list bool) :
  length acoustic = length language ->
  normalized weight -> probabilities acoustic -> probabilities language ->
  length b = length acoustic ->
  exists lp,
    get_log_prob b acoustic language weight = Ok lp /\
    (lp = NInf \/ exists r, lp = Fin r /\ r <= 0).
Proof.
  intros Hl Hw Ha Hla Hb.
  rewrite (get_log_prob_same acoustic language weight Hl b Hb).
  eexists. split; [reflexivity|].
  destruct (picked_bounded (fun _ => 0) (pq_of weight acoustic language))
    with (b := b) as [Hlog Hle].
  - eapply Forall_impl; [|apply (closed_sane weight acoustic language Hw Ha Hla)].
    intros ab (Hs & Hp & Hq). split; [exact Hs|].
    split; intros H0; rewrite <- ln_1; apply ln_mono; lra.
  - now rewrite (pq_length _ _ _ Hl).
  - rewrite sumR_zero in Hle. unfold picked in *.
    destruct Hlog as [E|[r E]]; rewrite E in *; [now left|].
    right. exists r. split; [reflexivity | exact Hle].
Qed.

Lemma get_log_prob_nonpositive_witness :
  exists lp,
    get_log_prob [true; false] inner_acoustic inner_language inner_weight
      = Ok lp /\
    (lp = NInf \/ exists r, lp = Fin r /\ r <= 0).
Proof.
  apply get_log_prob_nonpositive.
  - reflexivity.
  - exact inner_normalized.
  - exact (proj1 inner_probabilities).
  - exact (proj2 inner_probabilities).
  - reflexivity.
Defined.

(** X7.  For probability vectors of one length and a normalized weight no
    binary vector scores higher than the first element of the enumeration:
    the greedy sample is a most probable one. *)
Theorem greedy_is_best (acoustic language : list R) (weight : R * R)
    (b : list bool) :
  length acoustic = length language ->
  normalized weight -> probabilities acoustic -> probabilities language ->
  length b = length acoustic ->
  exists l_0 v_0 lp,
    enumerate_samples acoustic language weight 1 = ([(l_0, v_0)], Suspended) /\
    get_log_prob b acoustic language weight = Ok lp /\
    fle lp l_0.
Proof.
  intros Hl Hw Ha Hla Hb.
  set (pq := pq_of weight acoustic language).
  pose proof (closed_sane weight acoustic language Hw Ha Hla) as Hc.
  fold pq in Hc.
  assert (Hsane : Forall sane pq).
  { eapply Forall_impl; [|exact Hc]. now intros ab [Hs _]. }
  exists (l0 pq), (v0 pq). eexists.
  split; [now apply enum_one|].
  rewrite (get_log_prob_same acoustic language weight Hl b Hb).
  split; [reflexivity|]. rewrite (l0_greedy pq Hsane). unfold greedy.
  apply (picked_bounded (fun ab => ln (Rmax (fst ab) (snd ab))) pq).
  - eapply Forall_impl; [|exact Hsane].
    intros ab Hs. split; [exact Hs|].
    split; intros H0; apply ln_mono; try exact H0;
      [apply Rmax_l | apply Rmax_r].
  - unfold pq. now rewrite (pq_length _ _ _ Hl).
Qed.

Lemma greedy_is_best_witness :
  exists l_0 v_0 lp,
    enumerate_samples inner_acoustic inner_language inner_weight 1
      = ([(l_0, v_0)], Suspended) /\
    get_log_prob [true; false] inner_acoustic inner_language inner_weight
      = Ok lp /\
    fle lp l_0.
Proof.
  apply greedy_is_best.
  - reflexivity.
  - exact inner_normalized.
  - exact (proj1 inner_probabilities).
  - exact (proj2 inner_probabilities).
  - reflexivity.
Defined.

(** *** The first [n] elements are the [n] best *)

Lemma sorted_app_inv {A : Type} (r : A -> A -> Prop) (l1 l2 : list A)
    (x y : A) :
  StronglySorted r (l1 ++ l2) -> In x l1 -> In y l2 -> r x y.
Proof.
  induction l1 as [|a l1 IH]; intros Hs Hx Hy; [destruct Hx|].
  simpl in Hs. apply StronglySorted_inv in Hs as [Hs Hf].
  destruct Hx as [<-|Hx]; [|now apply IH].
  rewrite Forall_forall in Hf. apply Hf, in_app_iff. now right.
Qed.


Lemma edge_first_two :
  fst (enumerate_samples edge_acoustic edge_language edge_weight 2) =
  [(Fin (ln (3/4)), [1%nat]); (Fin (ln (1/4)), [])].
Proof.
  rewrite (enum_prefix edge_acoustic edge_language edge_weight eq_refl 2 3).
  change (2 + 3)%nat with 5%nat. now rewrite one_certain_pitch.
Qed.


End EnumeratorMore.
(* ================================================================= *)
(** ** The frame loop of [decode]: further properties *)

Module DecodeMore.

Import NumPy NumPyFacts Decode QueueFacts Enum LogProb Yields Elements Beam DecodeLoop
       EnumeratorSpec GatherFacts DecodeSpec BlendingSpec EnumeratorMore.
Open Scope R_scope.

(** *** Frames that do not have 88 pitches *)

Lemma get_log_prob_shape (b : list bool) (frame pr : list R)
    (weight : R * R) :
  length frame = length pr ->
  length b <> length frame -> length b <> 1%nat -> length frame <> 1%nat ->
  get_log_prob b frame pr weight = Err ValueError.
Proof.
  intros Hl Hb H1 Hf. unfold get_log_prob.
  rewrite (mix_p_same _ _ _ Hl), (mix_not_p_same _ _ _ Hl), !bind_ok.
  set (p := map2 Rplus _ _). set (not_p := map2 Rplus _ _).
  assert (Hp : length p = length frame).
  { unfold p. rewrite map2_length; rewrite !length_map; auto. }
  assert (Hn : length not_p = length frame).
  { unfold not_p. rewrite map2_length; rewrite !length_map; auto. }
  assert (Hc : length (combine (map flogR p) (map flogR not_p)) = length frame).
  { rewrite length_combine, !length_map, Hp, Hn. apply Nat.min_id. }
  rewrite broadcast2_mismatch; [reflexivity | | exact H1 |]; now rewrite Hc.
Qed.

(** X21.  [get_log_prob] does not check the length of the sample: on a frame
    of other than one pitch, a sample vector whose length differs from the
    frame's raises [ValueError] (no broadcast), unless it has exactly one
    entry, which is silently stretched over all pitches. *)
Theorem sample_length_unchecked (b : list bool) (s : bool)
    (acoustic language : list R) (weight : R * R) :
  length acoustic = length language -> length acoustic <> 1%nat ->
  (length b <> length acoustic -> length b <> 1%nat ->
   get_log_prob b acoustic language weight = Err ValueError) /\
  get_log_prob [s] acoustic language weight
    = get_log_prob (repeat s (length acoustic)) acoustic language weight.
Proof.
  intros Hl H1. split.
  - intros Hb Hb1. now apply get_log_prob_shape.
  - unfold get_log_prob.
    rewrite (mix_p_same _ _ _ Hl), (mix_not_p_same _ _ _ Hl), !bind_ok.
    set (p := map2 Rplus _ _). set (not_p := map2 Rplus _ _).
    assert (Hp : length p = length acoustic).
    { unfold p. rewrite map2_length; rewrite !length_map; auto. }
    assert (Hn : length not_p = length acoustic).
    { unfold not_p. rewrite map2_length; rewrite !length_map; auto. }
    set (terms := combine (map flogR p) (map flogR not_p)).
    assert (Hc : length terms = length acoustic).
    { unfold terms. rewrite length_combine, !length_map, Hp, Hn.
      apply Nat.min_id. }
    rewrite <- Hc. clear - H1 Hc.
    assert (Ht : length terms <> 1%nat) by congruence. clear H1 Hc.
    rewrite (broadcast2_same _ (repeat s (length terms)) terms)
      by apply repeat_length.
    unfold broadcast2. cbn [length].
    destruct (1 =? length terms)%nat eqn:E;
      [apply Nat.eqb_eq in E; congruence|].
    do 2 f_equal. unfold map2. clear.
    induction terms as [|t ts IH]; [reflexivity|].
    cbn [length repeat combine map fst snd]. now rewrite IH.
Qed.

Lemma sample_length_unchecked_witness :
  get_log_prob [true; false; true] inner_acoustic inner_language inner_weight
    = Err ValueError /\
  get_log_prob [true] inner_acoustic inner_language inner_weight
    = get_log_prob (repeat true (length inner_acoustic)) inner_acoustic
                   inner_language inner_weight.
Proof.
  destruct (sample_length_unchecked [true; false; true] true inner_acoustic
              inner_language inner_weight eq_refl) as [H1 H2].
  - simpl; lia.
  - split; [apply H1; simpl; lia | exact H2].
Defined.

Lemma binarize_cases (P : nat) (v : list nat) :
  (exists b, binarize P v = Ok b /\ length b = P) \/
  (binarize P v = Err IndexError /\ exists i, In i v /\ (P <= i)%nat).
Proof.
  unfold binarize.
  destruct (forallb (fun i => (i <? P)%nat) v) eqn:E.
  - left. eexists. split; [reflexivity|]. now rewrite length_map, length_seq.
  - right. split; [reflexivity|].
    destruct (forallb_forall (fun i => (i <? P)%nat) v) as [_ Hf].
    destruct (existsb (fun i => negb (i <? P)%nat) v) eqn:Ex.
    + apply existsb_exists in Ex as (i & Hi & Hn). exists i. split; [exact Hi|].
      apply negb_true_iff, Nat.ltb_ge in Hn. exact Hn.
    + exfalso. rewrite Hf in E; [discriminate|].
      intros i Hi. destruct (i <? P)%nat eqn:Ei; [reflexivity|].
      assert (existsb (fun i => negb (i <? P)%nat) v = true).
      { apply existsb_exists. exists i. now rewrite Ei. }
      congruence.
Qed.

Lemma for_islice_first_fails {X A : Type} (gen : list X * outcome)
    (body : A -> X -> result A) (init : A) (x : X) (ys : list X) (e : exn) :
  fst gen = x :: ys -> body init x = Err e ->
  for_islice gen body init = Err e.
Proof.
  intros Hg Hb. unfold for_islice. rewrite Hg. cbn [fold_left].
  now rewrite bind_ok, Hb, fold_left_err.
Qed.

Section WithHandle.

Variable H : Type.

(** The exception the first candidate of a frame of the wrong length ends
    in. *)
Definition shape_error (frame : list R) (e : exn) : Prop :=
  e = ValueError \/ (e = IndexError /\ (88 < length frame)%nat).

Lemma first_candidate_fails {A : Type} (frame : list R) (state : State H)
    (v : list nat) (k : list bool -> result A) :
  length frame <> 88%nat -> length frame <> 1%nat ->
  length (prior state) = length frame ->
  (forall i, In i v -> (i < length frame)%nat) ->
  (forall b, length b = 88%nat ->
     exists e, k b = Err e /\ shape_error frame e) ->
  exists e, (b <- binarize 88 v ;; k b) = Err e /\ shape_error frame e.
Proof.
  intros Hf H1 Hp Hv Hk.
  destruct (binarize_cases 88 v) as [(b & E & Hb)|(E & i & Hi & Hle)];
    rewrite E.
  - rewrite bind_ok. now apply Hk.
  - exists IndexError. split; [reflexivity|]. right. split; [reflexivity|].
    specialize (Hv i Hi). lia.
Qed.

Lemma add_for_state_shape (weight : R * R) (frame : list R)
    (state : State H) (b : list bool) (cands : list (candidate H)) :
  length frame <> 88%nat -> length frame <> 1%nat ->
  length (prior state) = length frame -> length b = 88%nat ->
  add_for_state H weight frame b cands state = Err ValueError.
Proof.
  intros Hf H1 Hp Hb. unfold add_for_state.
  rewrite get_log_prob_shape; [reflexivity | congruence | | | exact H1];
    rewrite Hb; [congruence | discriminate].
Qed.

(** X9.  [decode] builds its binary samples with 88 entries whatever the
    length of the frame.  On a frame whose length is neither 88 nor 1, with
    a non-empty beam whose first prior has the length of the frame and a
    branch factor of at least one, the first candidate of the frame already
    fails: [ValueError] (the 88 entries do not broadcast against the frame)
    or, on a frame of more than 88 pitches, [IndexError] (a pitch beyond
    88). *)
Theorem gather_needs_88 (sampling_method : String.string) (weight : R * R)
    (frame : list R) (first : State H) (rest : list (State H))
    (branch_factor : nat) :
  length frame <> 88%nat -> length frame <> 1%nat ->
  length (prior first) = length frame ->
  (1 <= branch_factor)%nat ->
  exists e,
    gather H sampling_method weight branch_factor frame (first :: rest)
      = Err e /\
    (e = ValueError \/ (e = IndexError /\ (88 < length frame)%nat)).
Proof.
  intros Hf H1 Hp Hb.
  destruct branch_factor as [|n]; [lia|].
  assert (Hsame : length frame = length (prior first)) by congruence.
  assert (Hfirst : forall w : R * R,
            exists ys o,
              enumerate_samples frame (prior first) w (S n)
                = ((l0 (pq_of w frame (prior first)),
                    v0 (pq_of w frame (prior first))) :: ys, o) /\
              (forall i, In i (v0 (pq_of w frame (prior first))) ->
                         (i < length frame)%nat)).
  { intros w. destruct (enum_first frame (prior first) w Hsame n) as (ys & o & E).
    exists ys, o. split; [exact E|]. intros i Hi. apply v0_lt in Hi.
    now rewrite (pq_length _ _ _ Hsame) in Hi. }
  unfold gather.
  destruct (is_union sampling_method || Reqb (fst weight) 1) eqn:C1.
  - (* the shared block *)
    destruct (Hfirst (1, 0)) as (ys & o & E & Hv).
    assert (Hs : exists e,
              shared_block H (is_union sampling_method) weight (S n) frame
                           (first :: rest) = Err e /\ shape_error frame e).
    { unfold shared_block.
      destruct (first_candidate_fails frame first
                  (v0 (pq_of (1, 0) frame (prior first)))
                  (fun b =>
                     cands' <- add_for_beam H weight frame b (first :: rest) [] ;;
                     Ok (if is_union sampling_method then [] ++ [b] else [],
                         cands'))
                  Hf H1 Hp Hv) as (e & Ee & He).
      - intros b Hlb. exists ValueError. split; [|now left].
        unfold add_for_beam. cbn [fold_left].
        rewrite bind_ok, (add_for_state_shape _ _ _ _ _ Hf H1 Hp Hlb).
        now rewrite fold_left_err.
      - exists e. split; [|exact He].
        eapply for_islice_first_fails; [rewrite E; reflexivity | exact Ee]. }
    destruct Hs as (e & Es & He). exists e. rewrite Es. split; [reflexivity|].
    exact He.
  - (* the block of the first hypothesis *)
    apply orb_false_iff in C1 as [Cu Cw]. rewrite Cu, Cw, bind_ok.
    cbn [orb negb fst snd].
    destruct (Hfirst weight) as (ys & o & E & Hv).
    unfold own_block. cbn [fold_left]. rewrite bind_ok.
    destruct (first_candidate_fails frame first
                (v0 (pq_of weight frame (prior first)))
                (fun b =>
                   overlap <- Ok false ;;
                   if overlap then Ok []
                   else add_for_state H weight frame b [] first)
                Hf H1 Hp Hv) as (e & Ee & He).
    + intros b Hlb. exists ValueError. split; [|now left].
      rewrite bind_ok. now apply add_for_state_shape.
    + exists e. split; [|exact He].
      erewrite for_islice_first_fails;
        [apply fold_left_err | rewrite E; reflexivity | exact Ee].
Qed.

End WithHandle.

Lemma gather_needs_88_witness :
  exists e,
    gather unit Method.joint (1/2, 1/2) 1 [1/2; 1/2]
           [mkState (Fin 0) [] tt [1/2; 1/2]] = Err e /\
    (e = ValueError \/ (e = IndexError /\ (88 < length [1/2; 1/2])%nat)).
Proof.
  apply (gather_needs_88 unit Method.joint (1/2, 1/2) [1/2; 1/2]
           (mkState (Fin 0) [] tt [1/2; 1/2]) [] 1); simpl; lia.
Defined.

(** *** Joint sampling on frames of 88 pitches *)

Lemma for_islice_ok {X A : Type} (gen : list X * outcome)
    (body : A -> X -> result A) (init r : A) :
  fold_left (fun acc x => a <- acc ;; body a x) (fst gen) (Ok init) = Ok r ->
  (forall e, snd gen <> Raised e) ->
  for_islice gen body init = Ok r.
Proof.
  intros Hf Hn. unfold for_islice. rewrite Hf, bind_ok.
  destruct (snd gen) as [| |e]; try reflexivity. now destruct (Hn e).
Qed.

Section Joint.

Variable H : Type.
Variables (weight : R * R) (frame : list R).
Hypothesis frame_length : length frame = 88%nat.

(** A candidate of the beam: its parent is a hypothesis of the beam and its
    sample has 88 entries. *)
Definition fits (beam : list (State H)) (c : candidate H) : Prop :=
  In (fst (fst c)) beam /\ length (snd (fst c)) = 88%nat.

Lemma fits_mono (beam beam' : list (State H)) (l : list (candidate H)) :
  (forall s, In s beam -> In s beam') ->
  Forall (fits beam) l -> Forall (fits beam') l.
Proof.
  intros Hs. apply Forall_impl. intros c [Hc Hl]. split; auto.
Qed.

Lemma add_for_beam_count (b : list bool) (beam : list (State H))
    (cands : list (candidate H)) :
  length b = 88%nat -> priors_fit H beam ->
  exists new,
    add_for_beam H weight frame b beam cands = Ok (cands ++ new) /\
    length new = length beam /\ Forall (fits beam) new.
Proof.
  intros Hb. unfold add_for_beam. revert cands.
  induction beam as [|s beam IH]; intros cands Hp; cbn [fold_left].
  - exists []. rewrite app_nil_r. repeat split. constructor.
  - apply Forall_cons_iff in Hp as [Hs Hp].
    destruct (add_for_state_ok H weight frame frame_length b cands s Hb Hs)
      as [lp E].
    rewrite bind_ok, E.
    destruct (IH (cands ++ [(s, b, lp)]) Hp) as (new & E' & Hl & Hf).
    exists ((s, b, lp) :: new). rewrite E', <- app_assoc.
    split; [reflexivity|]. split; [simpl; now rewrite Hl|].
    constructor; [split; [now left | exact Hb]|].
    apply (fits_mono beam); [intros; now right | exact Hf].
Qed.

Lemma shared_fold_count (beam : list (State H))
    (ys : list (npfloat * list nat)) (cands : list (candidate H)) :
  priors_fit H beam ->
  Forall (fun y => forall i, In i (snd y) -> (i < 88)%nat) ys ->
  exists new,
    fold_left (fun acc y => a <- acc ;; shared_body H false weight frame beam a y)
              ys (Ok ([], cands)) = Ok ([], cands ++ new) /\
    length new = (length ys * length beam)%nat /\ Forall (fits beam) new.
Proof.
  intros Hp. revert cands.
  induction ys as [|y ys IH]; intros cands Hy; cbn [fold_left].
  - exists []. rewrite app_nil_r. repeat split. constructor.
  - apply Forall_cons_iff in Hy as [Hy0 Hy].
    rewrite bind_ok. unfold shared_body at 2.
    rewrite (binarize_ok 88 (snd y) Hy0), bind_ok.
    set (b := map (fun i => mem i (snd y)) (seq 0 88)).
    assert (Hb : length b = 88%nat)
      by (unfold b; now rewrite length_map, length_seq).
    destruct (add_for_beam_count b beam cands Hb Hp) as (n1 & E & Hl1 & Hf1).
    rewrite E, bind_ok.
    destruct (IH (cands ++ n1) Hy) as (n2 & E' & Hl2 & Hf2).
    exists (n1 ++ n2). rewrite E', <- app_assoc. split; [reflexivity|].
    split; [rewrite length_app, Hl1, Hl2; simpl; lia|].
    apply Forall_app. now split.
Qed.

Lemma own_fold_count (beam : list (State H)) (us : list (list bool))
    (state : State H) (ys : list (npfloat * list nat))
    (cands : list (candidate H)) :
  In state beam -> length (prior state) = 88%nat ->
  Forall (fun y => forall i, In i (snd y) -> (i < 88)%nat) ys ->
  exists new,
    fold_left (fun acc y => a <- acc ;;
                            own_body H false weight frame us state a y)
              ys (Ok cands) = Ok (cands ++ new) /\
    length new = length ys /\ Forall (fits beam) new.
Proof.
  intros Hin Hs. revert cands.
  induction ys as [|y ys IH]; intros cands Hy; cbn [fold_left].
  - exists []. rewrite app_nil_r. repeat split. constructor.
  - apply Forall_cons_iff in Hy as [Hy0 Hy].
    rewrite bind_ok. unfold own_body at 2.
    rewrite (binarize_ok 88 (snd y) Hy0), !bind_ok.
    set (b := map (fun i => mem i (snd y)) (seq 0 88)).
    assert (Hb : length b = 88%nat)
      by (unfold b; now rewrite length_map, length_seq).
    destruct (add_for_state_ok H weight frame frame_length b cands state Hb Hs)
      as [lp E].
    rewrite E.
    destruct (IH (cands ++ [(state, b, lp)]) Hy) as (new & E' & Hl & Hf).
    exists ((state, b, lp) :: new). rewrite E', <- app_assoc.
    split; [reflexivity|]. split; [simpl; now rewrite Hl|].
    constructor; [split; [exact Hin | exact Hb] | exact Hf].
Qed.

(** What the generator hands a consumer on a frame of 88 pitches. *)
Lemma enum_88 (pr : list R) (w : R * R) (n : nat) :
  length pr = 88%nat -> (n <= 2 ^ length frame)%nat ->
  length (fst (enumerate_samples frame pr w n)) = n /\
  (forall e, snd (enumerate_samples frame pr w n) <> Raised e) /\
  Forall (fun y => forall i, In i (snd y) -> (i < 88)%nat)
         (fst (enumerate_samples frame pr w n)).
Proof.
  intros Hp Hn.
  assert (Hsame : length frame = length pr) by congruence.
  destruct (enum_count frame pr w Hsame n) as [Hc Hs];
    [rewrite frame_length; lia | exact Hn |].
  split; [exact Hc|]. split; [rewrite Hs; discriminate|].
  rewrite <- frame_length. apply (enum_in_range frame pr w Hsame n).
Qed.

Lemma own_block_count (beam : list (State H)) (us : list (list bool))
    (n : nat) (sub : list (State H)) (cands : list (candidate H)) :
  (n <= 2 ^ length frame)%nat ->
  (forall s, In s sub -> In s beam /\ length (prior s) = 88%nat) ->
  exists new,
    own_block H false weight n frame sub us cands = Ok (cands ++ new) /\
    length new = (length sub * n)%nat /\ Forall (fits beam) new.
Proof.
  intros Hn. unfold own_block. revert cands.
  induction sub as [|s sub IH]; intros cands Hsub; cbn [fold_left].
  - exists []. rewrite app_nil_r. repeat split. constructor.
  - destruct (Hsub s (or_introl eq_refl)) as [Hin Hs].
    destruct (enum_88 (prior s) weight n Hs Hn) as (Hc & Hr & Hy).
    destruct (own_fold_count beam us s _ cands Hin Hs Hy)
      as (n1 & E & Hl1 & Hf1).
    rewrite bind_ok, (for_islice_ok _ _ _ _ E Hr).
    destruct (IH (cands ++ n1)) as (n2 & E' & Hl2 & Hf2);
      [intros; apply Hsub; now right|].
    exists (n1 ++ n2). rewrite E', <- app_assoc. split; [reflexivity|].
    split; [rewrite length_app, Hl1, Hl2, Hc; simpl; lia|].
    apply Forall_app. now split.
Qed.

Lemma joint_gather_ok (sampling_method : String.string)
    (first : State H) (rest : list (State H)) (branch_factor : nat) :
  is_union sampling_method = false ->
  priors_fit H (first :: rest) ->
  (branch_factor <= 2 ^ length frame)%nat ->
  exists cands,
    gather H sampling_method weight branch_factor frame (first :: rest)
      = Ok cands /\
    length cands = (length (first :: rest) * branch_factor)%nat /\
    Forall (fun c => In (fst (fst c)) (first :: rest) /\
                     length (snd (fst c)) = 88%nat) cands.
Proof.
  intros Hu Hp Hn. unfold gather. rewrite Hu. cbn [orb].
  destruct (Reqb (fst weight) 1) eqn:Ew; cbn [negb].
  - (* the acoustic weight is 1: the shared samples *)
    unfold shared_block.
    pose proof (proj1 (Forall_cons_iff _ _ _) Hp) as [Hp1 _].
    destruct (enum_88 (prior first) (1, 0) branch_factor Hp1 Hn)
      as (Hc & Hr & Hy).
    destruct (shared_fold_count (first :: rest) _ [] Hp Hy)
      as (new & E & Hl & Hf).
    rewrite (for_islice_ok _ _ _ _ E Hr), bind_ok. cbn [snd app].
    exists new. split; [reflexivity|]. split; [|exact Hf].
    rewrite Hl, Hc. apply Nat.mul_comm.
  - rewrite bind_ok. cbn [fst snd].
    destruct (own_block_count (first :: rest) [] branch_factor (first :: rest)
                [] Hn) as (new & E & Hl & Hf).
    + intros s Hs. split; [exact Hs|].
      unfold priors_fit in Hp. rewrite Forall_forall in Hp. now apply Hp.
    + exists new. split; [exact E|]. split; [exact Hl | exact Hf].
Qed.


End Joint.

Lemma two_le_pow88 (P : nat) : P = 88%nat -> (2 <= 2 ^ P)%nat.
Proof.
  intros ->. change 2%nat with (2 ^ 1)%nat at 1.
  apply Nat.pow_le_mono_r; lia.
Qed.

(** A frame and a hypothesis of 88 pitches. *)
Definition half_frame : list R := repeat (1/2) 88.
Definition half_state : State unit := mkState (Fin 0) [] tt half_frame.


(** *** The whole loop *)

Section Loop.

Variable H : Type.
Variable run_one_step : list H -> list (list bool) -> list H * list (list R).

Lemma successors_nil (hs : list H) (prs : list (list R)) :
  successors H hs prs [] = [].
Proof. destruct hs, prs; reflexivity. Qed.

Lemma prune_nil (beam_size : nat) : prune H beam_size [] = [].
Proof. unfold prune, cut_to_size. simpl. apply firstn_nil. Qed.

(** X11.  Union sampling with a branch factor below two, on two frames or
    more: the halved branch factor is zero, the first frame leaves an empty
    beam (the language model answering the empty batch), and the second frame
    reads [beam.beam[0]] of it: [decode] ends in [IndexError], whatever the
    frames hold. *)
Theorem union_small_branch_fails (frame1 frame2 : list R)
    (frames : list (list R)) (initial : State H)
    (branch_factor beam_size : nat) (weight : R * R) :
  (branch_factor <= 1)%nat ->
  decode H run_one_step (frame1 :: frame2 :: frames) initial branch_factor
         beam_size Method.union weight = Err IndexError.
Proof.
  intros Hb. unfold decode, effective_branch_factor.
  rewrite is_union_union.
  replace (branch_factor / 2)%nat with 0%nat
    by (symmetry; apply Nat.div_small; lia).
  cbn [fold_left]. rewrite bind_ok.
  assert (E1 : decode_frame H run_one_step Method.union weight 0 beam_size
                 [initial] frame1 = Ok []).
  { unfold decode_frame, gather. rewrite is_union_union. cbn [orb].
    unfold shared_block, for_islice. cbn [enumerate_samples fst snd fold_left].
    rewrite !bind_ok. cbn [fst snd]. rewrite own_block_zero, bind_ok.
    cbn [map]. destruct (run_one_step [] []) as [hs prs].
    now rewrite successors_nil, prune_nil. }
  rewrite E1, bind_ok.
  assert (E2 : decode_frame H run_one_step Method.union weight 0 beam_size
                 [] frame2 = Err IndexError).
  { unfold decode_frame, gather. rewrite is_union_union. reflexivity. }
  rewrite E2. apply fold_left_err.
Qed.

(** The language model answers a batch with one handle and one prior of 88
    entries for each of its members. *)
Definition answers : Prop :=
  forall hs ss, length hs = length ss ->
    length (fst (run_one_step hs ss)) = length hs /\
    length (snd (run_one_step hs ss)) = length hs /\
    Forall (fun pr => length pr = 88%nat) (snd (run_one_step hs ss)).

Lemma successors_spec (hs : list H) (prs : list (list R))
    (cands : list (candidate H)) :
  length hs = length cands -> length prs = length cands ->
  length (successors H hs prs cands) = length cands /\
  (forall s', In s' (successors H hs prs cands) ->
     exists c h pr,
       In c cands /\ In pr prs /\
       s' = transition (fst (fst c)) (snd (fst c)) (snd c) h pr).
Proof.
  revert hs prs; induction cands as [|[[st b] lp] cands IH];
    intros [|h hs] [|pr prs] Hh Hp; simpl in *; try discriminate.
  - split; [reflexivity | intros s' []].
  - destruct (IH hs prs ltac:(lia) ltac:(lia)) as [Hl Hs].
    split; [now rewrite Hl|].
    intros s' [<-|Hin].
    + exists (st, b, lp), h, pr. auto.
    + destruct (Hs s' Hin) as (c & h' & pr' & Hc & Hpr & E).
      exists c, h', pr'. auto.
Qed.

(** What holds of the beam after [t] frames. *)
Definition shaped (t : nat) (beam : list (State H)) : Prop :=
  beam <> [] /\ priors_fit H beam /\
  forall s, In s beam ->
    length (sample_history s) = t /\
    Forall (fun b => length b = 88%nat) (sample_history s).

Variables (sampling_method : String.string) (weight : R * R).
Variables (branch_factor beam_size : nat).
Hypothesis joint_mode : is_union sampling_method = false.
Hypothesis model_answers : answers.
Hypothesis branch_pos : (1 <= branch_factor)%nat.
Hypothesis beam_pos : (1 <= beam_size)%nat.

Lemma decode_frame_shaped (t : nat) (beam : list (State H))
    (frame : list R) :
  length frame = 88%nat -> (branch_factor <= 2 ^ length frame)%nat ->
  shaped t beam ->
  exists beam',
    decode_frame H run_one_step sampling_method weight branch_factor beam_size
                 beam frame = Ok beam' /\
    shaped (S t) beam' /\ (length beam' <= beam_size)%nat.
Proof.
  intros Hf Hn (Hne & Hp & Hh).
  destruct beam as [|first rest]; [contradiction|].
  destruct (joint_gather_ok H weight frame Hf sampling_method first rest
              branch_factor joint_mode Hp Hn) as (cands & E & Hl & Hfit).
  unfold decode_frame. rewrite E, bind_ok.
  destruct (model_answers
              (map (fun c => hidden_state (fst (fst c))) cands)
              (map (fun c => snd (fst c)) cands)) as (Hhs & Hprs & Hpr88);
    [now rewrite !length_map|].
  destruct (run_one_step _ _) as [hs prs]. cbn [fst snd] in *.
  rewrite length_map in Hhs, Hprs.
  destruct (successors_spec hs prs cands Hhs Hprs) as [Hsl Hss].
  exists (prune H beam_size (successors H hs prs cands)).
  split; [reflexivity|]. split; [split; [|split]|].
  - (* not empty *)
    unfold prune, cut_to_size.
    pose proof (Permutation_length (sort_desc_perm H (successors H hs prs cands)))
      as Hperm.
    destruct (sort_desc (successors H hs prs cands)) as [|x l];
      [|destruct beam_size; [lia | discriminate]].
    simpl in Hperm, Hl. rewrite Hsl, Hl in Hperm. lia.
  - apply Forall_forall. intros s' Hs'.
    apply cut_to_size_In in Hs'.
    destruct (Hss s' Hs') as (c & h & pr & _ & Hpr & ->). simpl.
    rewrite Forall_forall in Hpr88. now apply Hpr88.
  - intros s' Hs'. apply cut_to_size_In in Hs'.
    destruct (Hss s' Hs') as (c & h & pr & Hc & _ & ->). simpl.
    rewrite Forall_forall in Hfit. destruct (Hfit c Hc) as [Hin Hb].
    destruct (Hh _ Hin) as [Ht H88].
    split; [rewrite length_app, Ht; simpl; lia|].
    apply Forall_app. split; [exact H88 | now constructor].
  - unfold prune, cut_to_size. apply firstn_le_length.
Qed.

Lemma decode_fold_shaped (acoustic : list (list R)) (t : nat)
    (beam : list (State H)) :
  Forall (fun frame => length frame = 88%nat /\
                       (branch_factor <= 2 ^ length frame)%nat) acoustic ->
  shaped t beam -> (length beam <= beam_size)%nat ->
  exists beam',
    fold_left
      (fun acc frame =>
         b <- acc ;;
         decode_frame H run_one_step sampling_method weight branch_factor
                      beam_size b frame)
      acoustic (Ok beam) = Ok beam' /\
    shaped (t + length acoustic) beam' /\ (length beam' <= beam_size)%nat.
Proof.
  revert t beam; induction acoustic as [|frame acoustic IH];
    intros t beam Ha Hs Hb; cbn [fold_left length].
  - exists beam. rewrite Nat.add_0_r. auto.
  - apply Forall_cons_iff in Ha as [[Hf Hn] Ha].
    destruct (decode_frame_shaped t beam frame Hf Hn Hs) as (b1 & E & Hs1 & Hb1).
    rewrite bind_ok, E.
    destruct (IH (S t) b1 Ha Hs1 Hb1) as (b2 & E2 & Hs2 & Hb2).
    exists b2. split; [exact E2|]. split; [|exact Hb2].
    now replace (t + S (length acoustic))%nat
      with (S t + length acoustic)%nat by lia.
Qed.


End Loop.

(** A language model that answers every member of a batch with the flat
    prior. *)
Definition flat_model (hs : list unit) (ss : list (list bool))
  : list unit * list (list R) :=
  (hs, map (fun _ => half_frame) hs).

Lemma flat_answers : answers unit flat_model.
Proof.
  intros hs ss _. unfold flat_model. cbn [fst snd]. rewrite length_map.
  split; [reflexivity|]. split; [reflexivity|].
  apply Forall_forall. intros pr Hin. apply in_map_iff in Hin as (u & <- & _).
  exact (repeat_length (1/2) 88).
Qed.

Lemma union_small_branch_fails_witness :
  decode unit flat_model [half_frame; half_frame] half_state 1 2 Method.union
         (1/2, 1/2) = Err IndexError.
Proof. apply union_small_branch_fails. lia. Defined.


End DecodeMore.
(* ================================================================= *)
(** ** Noise on the acoustic input: properties *)

Module NoiseSpec.

Import NumPy NumPyFacts Decode Enum Penalties LogProb Elements EnumeratorSpec
       Noise.
Open Scope R_scope.

Ltac clip_cases :=
  unfold clip, Rmin, Rmax;
  repeat match goal with
         | |- context [Rle_dec ?a ?b] =>
             is_var a; destruct (Rle_dec a b); cbv iota
         end;
  repeat match goal with
         | |- context [Rle_dec ?a ?b] => destruct (Rle_dec a b); cbv iota
         end;
  try (unfold Rabs;
       repeat match goal with
              | |- context [Rcase_abs ?a] => destruct (Rcase_abs a)
              end);
  lra.

Lemma clip_range (lo hi x : R) : lo <= hi -> lo <= clip lo hi x <= hi.
Proof. intros H. clip_cases. Qed.

Lemma clip_mono (lo hi x y : R) : x <= y -> clip lo hi x <= clip lo hi y.
Proof. intros H. clip_cases. Qed.

(** Clipping brings two numbers no further apart. *)
Lemma clip_close (lo hi x y : R) :
  Rabs (clip lo hi y - clip lo hi x) <= Rabs (y - x).
Proof. clip_cases. Qed.

Lemma map2_Forall2 {A B C : Type} (f : A -> B -> C) (rel : A -> C -> Prop)
    (a : list A) (b : list B) :
  length a = length b ->
  (forall x y, In (x, y) (combine a b) -> rel x (f x y)) ->
  Forall2 rel a (map2 f a b).
Proof.
  unfold map2. revert b; induction a as [|x a IH]; intros [|y b] Hl Hr;
    simpl in *; try discriminate; constructor.
  - apply Hr. now left.
  - apply IH; [lia | intros; apply Hr; now right].
Qed.

(** An array of shape [(P, T)]. *)
Definition has_shape (P T : nat) (a : list (list R)) : Prop :=
  length a = P /\ Forall (fun row => length row = T) a.

Lemma shape_of (P T : nat) (a : list (list R)) :
  has_shape P T a -> a <> [] -> shape a = (P, T).
Proof.
  intros [Hl Hr] Hne. destruct a as [|row a]; [contradiction|].
  unfold shape. apply Forall_inv in Hr. simpl in *. now rewrite Hl, Hr.
Qed.

Section WithGenerator.

Variables randn rand : nat -> nat -> list (list R).

(** The generators return arrays of the shape asked for, and [rand] draws
    from [[0, 1)]. *)
Hypothesis randn_shape : forall P T, has_shape P T (randn P T).
Hypothesis rand_shape : forall P T, has_shape P T (rand P T).
Hypothesis rand_unit :
  forall P T, Forall (Forall (fun u => 0 <= u < 1)) (rand P T).

Abbreviation add_noise := (add_noise_to_input_data randn rand).

(** How an entry is changed before it is clipped. *)
Lemma add_noise_entries (rel : R -> R -> Prop) (P T : nat)
    (input_data : list (list R)) (noise : R) (noise_gauss : bool) :
  has_shape P T input_data ->
  (forall x u,
     (noise_gauss = false -> 0 <= u < 1) ->
     rel x (clip (1/1000) (999/1000)
              (if Rltb (1/2) x then x - Rabs (noise * u)
               else x + Rabs (noise * u)))) ->
  Forall2 (Forall2 rel) input_data
          (add_noise input_data (Some noise) noise_gauss).
Proof.
  intros Hs Hrel. unfold add_noise_to_input_data.
  destruct input_data as [|row0 rows] eqn:Ei; [constructor|].
  rewrite <- Ei in *. rewrite (shape_of P T input_data Hs) by (rewrite Ei; discriminate).
  set (g := (if noise_gauss then randn else rand) P T).
  assert (Hg : has_shape P T g)
    by (unfold g; destruct noise_gauss; [apply randn_shape | apply rand_shape]).
  assert (Hu : noise_gauss = false -> Forall (Forall (fun u => 0 <= u < 1)) g).
  { intros E. unfold g. rewrite E. apply rand_unit. }
  destruct Hs as [Hl Hr], Hg as [Hgl Hgr].
  apply map2_Forall2; [rewrite length_map; congruence|].
  intros row nrow Hin.
  pose proof (in_combine_l _ _ _ _ Hin) as Hrow.
  pose proof (in_combine_r _ _ _ _ Hin) as Hn.
  apply in_map_iff in Hn as (urow & <- & Hurow).
  rewrite Forall_forall in Hr, Hgr.
  apply map2_Forall2; [rewrite length_map, (Hr _ Hrow), (Hgr _ Hurow); reflexivity|].
  intros x n Hxn. apply in_combine_r in Hxn.
  apply in_map_iff in Hxn as (u & <- & Hu0).
  apply Hrel. intros E. specialize (Hu E).
  rewrite Forall_forall in Hu. specialize (Hu urow Hurow).
  rewrite Forall_forall in Hu. now apply Hu.
Qed.

Lemma noisy_entries (P T : nat) (input_data : list (list R))
    (noise : R) (noise_gauss : bool) :
  has_shape P T input_data ->
  has_shape P T (add_noise input_data (Some noise) noise_gauss) /\
  Forall (Forall (fun v => 1/1000 <= v <= 999/1000))
         (add_noise input_data (Some noise) noise_gauss).
Proof.
  intros Hs.
  pose proof (add_noise_entries (fun _ v => 1/1000 <= v <= 999/1000) P T
                input_data noise noise_gauss Hs) as H.
  assert (H2 : Forall2 (Forall2 (fun _ v : R => 1/1000 <= v <= 999/1000))
                       input_data
                       (add_noise input_data (Some noise) noise_gauss)).
  { apply H. intros x u _. apply clip_range. lra. }
  clear H. destruct Hs as [Hl Hr].
  set (out := add_noise input_data (Some noise) noise_gauss) in *.
  clearbody out. revert P Hl.
  induction H2 as [|row orow rows orows Hrow _ IH]; intros P Hl.
  - split; [split; [exact Hl | constructor] | constructor].
  - apply Forall_cons_iff in Hr as [Hr0 Hr].
    destruct (IH Hr (length rows) eq_refl) as [[Hl' Hs'] Hv'].
    assert (Hrow' : length orow = T /\
                    Forall (fun v => 1/1000 <= v <= 999/1000) orow).
    { clear - Hrow Hr0. revert T Hr0.
      induction Hrow as [|x v xs vs Hv _ IHr]; intros T Hr0.
      - split; [exact Hr0 | constructor].
      - destruct (IHr (length xs) eq_refl) as [El Ev].
        split; [simpl in *; lia | now constructor]. }
    destruct Hrow' as [El Ev]. split; [split|].
    + simpl in *. lia.
    + now constructor.
    + now constructor.
Qed.

(** X13.  When noise is given, the result of [add_noise_to_input_data] has
    the shape of the input and all its entries lie in [[0.001, 0.999]],
    whatever the input holds and whatever the generator draws. *)
Theorem noisy_shape_and_range (P T : nat) (input_data : list (list R))
    (noise : R) (noise_gauss : bool) :
  has_shape P T input_data ->
  has_shape P T (add_noise input_data (Some noise) noise_gauss) /\
  Forall (Forall (fun v => 1/1000 <= v <= 999/1000))
         (add_noise input_data (Some noise) noise_gauss).
Proof. apply noisy_entries. Qed.

(** X14.  The noise moves no entry away from 0.5 on its own side: an entry
    above 0.5 ends at most at its clipped value, any other entry at least at
    its clipped value; and uniform noise moves an entry by at most [|noise|]
    from its clipped value. *)
Theorem noise_moves_towards_half (P T : nat) (input_data : list (list R))
    (noise : R) (noise_gauss : bool) :
  has_shape P T input_data ->
  Forall2 (Forall2 (fun x v =>
             (1/2 < x -> v <= clip (1/1000) (999/1000) x) /\
             (x <= 1/2 -> clip (1/1000) (999/1000) x <= v) /\
             (noise_gauss = false ->
              Rabs (v - clip (1/1000) (999/1000) x) <= Rabs noise)))
          input_data (add_noise input_data (Some noise) noise_gauss).
Proof.
  intros Hs. apply (add_noise_entries _ P T); [exact Hs|].
  intros x u Hu. pose proof (Rabs_pos (noise * u)) as Hn.
  assert (Hb : noise_gauss = false -> Rabs (noise * u) <= Rabs noise).
  { intros E. specialize (Hu E). rewrite Rabs_mult, (Rabs_right u) by lra.
    pose proof (Rabs_pos noise). nra. }
  destruct (Rlt_dec (1/2) x) as [L|L].
  - rewrite (Rltb_true _ _ L). split; [|split].
    + intros _. apply clip_mono. lra.
    + intros; lra.
    + intros E. eapply Rle_trans; [apply clip_close|].
      replace (x - Rabs (noise * u) - x) with (- Rabs (noise * u)) by lra.
      rewrite Rabs_Ropp, Rabs_Rabsolu. now apply Hb.
  - rewrite Rltb_false by lra. split; [|split].
    + intros; lra.
    + intros _. apply clip_mono. lra.
    + intros E. eapply Rle_trans; [apply clip_close|].
      replace (x + Rabs (noise * u) - x) with (Rabs (noise * u)) by lra.
      rewrite Rabs_Rabsolu. now apply Hb.
Qed.

Lemma column_entries (Q : R -> Prop) (P T t : nat) (a : list (list R)) :
  has_shape P T a -> (t < T)%nat -> Forall (Forall Q) a ->
  length (column t a) = P /\ Forall Q (column t a).
Proof.
  intros [Hl Hr] Ht Hq. unfold column. split; [now rewrite length_map|].
  rewrite Forall_forall in Hr, Hq. apply Forall_forall. intros v Hv.
  apply in_map_iff in Hv as (row & <- & Hrow).
  specialize (Hq row Hrow). rewrite Forall_forall in Hq.
  apply Hq, nth_In. rewrite (Hr row Hrow). exact Ht.
Qed.

End WithGenerator.

(** Scores of combined probabilities strictly inside the unit interval. *)
Lemma interior_log_prob_finite (acoustic language : list R) (weight : R * R)
    (b : list bool) :
  length acoustic = length language -> fst weight + snd weight = 1 ->
  interior weight acoustic language -> length b = length acoustic ->
  exists r, get_log_prob b acoustic language weight = Ok (Fin r).
Proof.
  intros Hl Hw Hi Hb.
  pose proof (interior_positive _ _ _ Hw Hi) as Hpos.
  rewrite (get_log_prob_same acoustic language weight Hl b Hb).
  destruct (np_sum_finite
              (map2 (fun (s : bool) (xy : npfloat * npfloat) =>
                       if s then fst xy else snd xy) b
                    (map (fun ab => (flogR (fst ab), flogR (snd ab)))
                         (pq_of weight acoustic language)))) as [r E].
  - apply Forall_forall. intros x Hx. unfold map2 in Hx.
    apply in_map_iff in Hx as ([s xy] & <- & Hin).
    apply in_combine_r in Hin. apply in_map_iff in Hin as (ab & <- & Hab).
    rewrite Forall_forall in Hpos. destruct (Hpos ab Hab) as [Hp Hq].
    cbn [fst snd]. destruct s; now rewrite flogR_pos.
  - exists r. now rewrite E.
Qed.

Section Frames.

Variables randn rand : nat -> nat -> list (list R).
Hypothesis randn_shape : forall P T, has_shape P T (randn P T).
Hypothesis rand_shape : forall P T, has_shape P T (rand P T).
Hypothesis rand_unit :
  forall P T, Forall (Forall (fun u => 0 <= u < 1)) (rand P T).

(** X15.  A frame of noisy input never gives the decoder a degenerate
    probability: with a normalized weight whose acoustic part is positive
    and a prior of probabilities, every combined probability of the frame
    lies strictly between 0 and 1, and [get_log_prob] scores every binary
    vector of the frame with a finite number. *)
Theorem noisy_frame_interior (P T t : nat) (input_data : list (list R))
    (noise : R) (noise_gauss : bool) (language : list R) (weight : R * R)
    (b : list bool) :
  has_shape P T input_data -> (t < T)%nat ->
  normalized weight -> 0 < fst weight ->
  probabilities language -> length language = P -> length b = P ->
  interior weight
    (column t (add_noise_to_input_data randn rand input_data (Some noise)
                                       noise_gauss))
    language /\
  exists r,
    get_log_prob b
      (column t (add_noise_to_input_data randn rand input_data (Some noise)
                                         noise_gauss))
      language weight = Ok (Fin r).
Proof.
  intros Hs Ht Hw H0 Hla Hll Hb.
  destruct (noisy_entries randn rand randn_shape rand_shape rand_unit
              P T input_data noise noise_gauss Hs) as [Hos Hov].
  destruct (column_entries _ P T t _ Hos Ht Hov) as [Hcl Hcv].
  set (frame := column t _) in *.
  assert (Hi : interior weight frame language).
  { unfold interior. apply Forall_forall. intros ab Hab.
    unfold pq_of, map2 in Hab. apply in_map_iff in Hab as ([a l] & <- & Hin).
    rewrite Forall_forall in Hcv.
    pose proof (Hcv a (in_combine_l _ _ _ _ Hin)) as Ha.
    unfold probabilities in Hla. rewrite Forall_forall in Hla.
    pose proof (Hla l (in_combine_r _ _ _ _ Hin)) as Hl.
    destruct Hw as (_ & H1 & Hsum). cbn [fst snd]. nra. }
  split; [exact Hi|].
  apply interior_log_prob_finite; try congruence.
  now destruct Hw as (_ & _ & Hsum).
Qed.

End Frames.

(** A generator that always draws one half. *)
Definition const_draw (P T : nat) : list (list R) :=
  repeat (repeat (1/2) T) P.

Lemma const_shape (P T : nat) : has_shape P T (const_draw P T).
Proof.
  unfold has_shape, const_draw. split; [apply repeat_length|].
  apply Forall_forall. intros row Hrow. apply repeat_spec in Hrow. subst.
  apply repeat_length.
Qed.

Lemma const_unit (P T : nat) :
  Forall (Forall (fun u => 0 <= u < 1)) (const_draw P T).
Proof.
  unfold const_draw. apply Forall_forall. intros row Hrow.
  apply repeat_spec in Hrow. subst. apply Forall_forall. intros u Hu.
  apply repeat_spec in Hu. subst. lra.
Qed.

Definition two_frames : list (list R) := [[9/10; 1/10]; [0; 1]].

Lemma two_frames_shape : has_shape 2 2 two_frames.
Proof. split; [reflexivity | repeat constructor]. Qed.

Lemma noisy_shape_and_range_witness :
  has_shape 2 2 (add_noise_to_input_data const_draw const_draw two_frames
                   (Some (1/10)) false) /\
  Forall (Forall (fun v => 1/1000 <= v <= 999/1000))
         (add_noise_to_input_data const_draw const_draw two_frames
            (Some (1/10)) false).
Proof.
  apply (noisy_shape_and_range const_draw const_draw const_shape const_shape
           const_unit 2 2 two_frames (1/10) false two_frames_shape).
Defined.

Lemma noise_moves_towards_half_witness :
  Forall2 (Forall2 (fun x v =>
             (1/2 < x -> v <= clip (1/1000) (999/1000) x) /\
             (x <= 1/2 -> clip (1/1000) (999/1000) x <= v) /\
             (false = false ->
              Rabs (v - clip (1/1000) (999/1000) x) <= Rabs (1/10))))
          two_frames
          (add_noise_to_input_data const_draw const_draw two_frames
             (Some (1/10)) false).
Proof.
  apply (noise_moves_towards_half const_draw const_draw const_shape
           const_shape const_unit 2 2 two_frames (1/10) false
           two_frames_shape).
Defined.

Lemma noisy_frame_interior_witness :
  interior (1/2, 1/2)
    (column 0 (add_noise_to_input_data const_draw const_draw two_frames
                 (Some (1/10)) false))
    [0; 1] /\
  exists r,
    get_log_prob [true; false]
      (column 0 (add_noise_to_input_data const_draw const_draw two_frames
                   (Some (1/10)) false))
      [0; 1] (1/2, 1/2) = Ok (Fin r).
Proof.
  apply (noisy_frame_interior const_draw const_draw const_shape const_shape
           const_unit 2 2 0 two_frames (1/10) false [0; 1] (1/2, 1/2)
           [true; false] two_frames_shape).
  - lia.
  - unfold normalized. simpl. lra.
  - simpl. lra.
  - unfold probabilities. repeat constructor; lra.
  - reflexivity.
  - reflexivity.
Defined.

End NoiseSpec.
(* ================================================================= *)
(** ** The training points of a frame: properties *)

Module CollectSpec.

Import NumPy NumPyFacts Decode Enum Beam GatherFacts Collect.
Open Scope R_scope.

(** The entries of [a] at the positions that hold in [c]. *)
Definition select {A : Type} (a : list A) (c : list bool) : list A :=
  map fst (filter (fun xc => snd xc) (combine a c)).

Lemma take_where {A : Type} (c : list bool) (a pre : list A) :
  length a = length c ->
  take (pre ++ a) (where_from (length pre) c) = Ok (select a c).
Proof.
  revert a pre; induction c as [|b c IH]; intros [|x a] pre Hl;
    simpl in Hl; try discriminate; [reflexivity|].
  assert (E : pre ++ x :: a = (pre ++ [x]) ++ a) by now rewrite <- app_assoc.
  assert (El : S (length pre) = length (pre ++ [x]))
    by (rewrite length_app; simpl; lia).
  unfold select. cbn [where_from combine filter snd]. destruct b.
  - cbn [take map fst].
    rewrite nth_error_app2, Nat.sub_diag by lia. cbn [nth_error].
    rewrite E, El, IH by lia. reflexivity.
  - rewrite E, El, IH by lia. reflexivity.
Qed.

Lemma take_all {A : Type} (a pre : list A) :
  take (pre ++ a) (seq (length pre) (length a)) = Ok a.
Proof.
  revert pre; induction a as [|x a IH]; intros pre; [reflexivity|].
  cbn [length seq take].
  rewrite nth_error_app2, Nat.sub_diag by lia. cbn [nth_error].
  replace (pre ++ x :: a) with ((pre ++ [x]) ++ a) by now rewrite <- app_assoc.
  replace (S (length pre)) with (length (pre ++ [x]))
    by (rewrite length_app; simpl; lia).
  now rewrite IH.
Qed.

Lemma select_map2 {A B C : Type} (f : A -> B -> C) (a : list A) (b : list B)
    (c : list bool) :
  length a = length c -> length b = length c ->
  map2 f (select a c) (select b c) = select (map2 f a b) c.
Proof.
  revert a b; induction c as [|t c IH]; intros [|x a] [|y b] Ha Hb;
    simpl in *; try discriminate; [reflexivity|].
  unfold select, map2 in *. cbn [combine map filter fst snd].
  destruct t; cbn [map combine fst snd]; rewrite IH by lia; reflexivity.
Qed.

Lemma select_filter {A : Type} (k : A -> bool) (a : list A) :
  select a (map k a) = filter k a.
Proof.
  induction a as [|x a IH]; [reflexivity|].
  unfold select in *. cbn [map combine filter snd].
  destruct (k x); cbn [map fst]; now rewrite IH.
Qed.

Lemma select_nil {A : Type} (a : list A) (c : list bool) :
  length a = length c -> np_where c = [] -> select a c = [].
Proof.
  intros Hl Hw.
  pose proof (take_where c a [] Hl) as E. cbn [length app] in E.
  unfold np_where in Hw. rewrite Hw in E. simpl in E. now injection E as <-.
Qed.

Section WithHandle.

Variable H : Type.
Variables (min_diff : R) (P : nat).
Variables (gt_frame : list bool) (frame : list R).
Hypothesis frame_length : length frame = P.
Hypothesis gt_length : length gt_frame = P.

(** The differences between the frame and the prior, pitch by pitch. *)
Definition gaps (state : State H) : list R :=
  map2 (fun a b => Rabs (a - b)) frame (prior state).

Lemma far_gaps (state : State H) :
  length (prior state) = P ->
  map2 (fun a b => negb (isclose min_diff a b)) (prior state) frame =
  map (Rltb min_diff) (gaps state).
Proof.
  intros Hp. unfold gaps, map2. rewrite map_map.
  assert (Hl : length (prior state) = length frame) by congruence.
  clear Hp. revert Hl. generalize (prior state) as pr. clear.
  induction frame as [|f fr IH]; intros [|p pr] Hl; simpl in *;
    try discriminate; [reflexivity|].
  f_equal; [|apply IH; lia].
  unfold isclose. now rewrite negb_involutive, Rabs_minus_sym.
Qed.

Lemma collect_state_far (state : State H) (y : list bool) (diffs : list R) :
  0 < min_diff -> length (prior state) = P ->
  collect_state H min_diff P gt_frame frame (y, diffs) state =
  Ok (y ++ select gt_frame (map (Rltb min_diff) (gaps state)),
      diffs ++ filter (Rltb min_diff) (gaps state)).
Proof.
  intros Hm Hp. unfold collect_state, differing.
  rewrite (Rltb_true _ _ Hm), broadcast2_same by congruence.
  rewrite bind_ok, (far_gaps state Hp), bind_ok.
  set (c := map (Rltb min_diff) (gaps state)).
  assert (Hc : length c = P).
  { unfold c, gaps. rewrite length_map, map2_length; congruence. }
  pose proof (take_where c gt_frame [] ltac:(congruence)) as Eg.
  pose proof (take_where c frame [] ltac:(congruence)) as Ef.
  pose proof (take_where c (prior state) [] ltac:(congruence)) as Ep.
  cbn [app length] in Eg, Ef, Ep. fold (np_where c) in Eg, Ef, Ep.
  assert (Ed : map2 (fun a b => Rabs (a - b)) (select frame c)
                    (select (prior state) c)
               = filter (Rltb min_diff) (gaps state)).
  { rewrite select_map2 by congruence. apply select_filter. }
  destruct (np_where c) as [|j js] eqn:Ew.
  - rewrite <- Ed, (select_nil gt_frame c), (select_nil frame c)
      by congruence.
    cbn [fst snd]. now rewrite !app_nil_r.
  - rewrite Eg, bind_ok, Ef, bind_ok, Ep, bind_ok. cbn [fst snd].
    now rewrite Ed.
Qed.

Lemma collect_state_all (state : State H) (y : list bool) (diffs : list R) :
  min_diff <= 0 -> (1 <= P)%nat -> length (prior state) = P ->
  collect_state H min_diff P gt_frame frame (y, diffs) state =
  Ok (y ++ gt_frame, diffs ++ gaps state).
Proof.
  intros Hm HP Hp. unfold collect_state, differing.
  rewrite Rltb_false by exact Hm. rewrite bind_ok.
  pose proof (take_all gt_frame []) as Eg.
  pose proof (take_all frame []) as Ef.
  pose proof (take_all (prior state) []) as Ep.
  cbn [app length] in Eg, Ef, Ep.
  rewrite gt_length in Eg. rewrite frame_length in Ef. rewrite Hp in Ep.
  destruct (seq 0 P) as [|j js] eqn:Es.
  - apply (f_equal (@length _)) in Es. rewrite length_seq in Es.
    simpl in Es. lia.
  - now rewrite Eg, bind_ok, Ef, bind_ok, Ep, bind_ok.
Qed.

(** X16.  With a positive [min_diff], a hypothesis whose prior has the
    length [P >= 2] of the frame adds to [diffs] exactly the differences
    [|frame_i - prior_i|] that exceed [min_diff], in the order of the
    pitches, and to [y] the ground truth of the same pitches. *)
Theorem collect_keeps_far_pitches (state : State H) (y : list bool)
    (diffs : list R) :
  0 < min_diff -> (2 <= P)%nat -> length (prior state) = P ->
  collect_state H min_diff P gt_frame frame (y, diffs) state =
  Ok (y ++ select gt_frame (map (Rltb min_diff) (gaps state)),
      diffs ++ filter (Rltb min_diff) (gaps state)).
Proof. intros Hm _ Hp. now apply collect_state_far. Qed.

(** X17.  With a [min_diff] that is not positive every pitch is a training
    point: a hypothesis whose prior has the length [P >= 2] of the frame
    adds the whole ground-truth frame to [y] and all [P] differences
    [|frame_i - prior_i|] to [diffs]. *)
Theorem collect_keeps_all_pitches (state : State H) (y : list bool)
    (diffs : list R) :
  min_diff <= 0 -> (2 <= P)%nat -> length (prior state) = P ->
  collect_state H min_diff P gt_frame frame (y, diffs) state =
  Ok (y ++ gt_frame, diffs ++ gaps state).
Proof. intros Hm HP Hp. apply collect_state_all; [exact Hm | lia | exact Hp]. Qed.

Lemma select_length {A B : Type} (a : list A) (b : list B) (c : list bool) :
  length a = length c -> length b = length c ->
  length (select a c) = length (select b c).
Proof.
  revert a b; induction c as [|t c IH]; intros [|x a] [|z b] Ha Hb;
    simpl in *; try discriminate; [reflexivity|].
  unfold select in *. cbn [combine filter snd].
  destruct t; cbn [map length]; rewrite (IH a b) by lia; reflexivity.
Qed.

Lemma gaps_length (state : State H) :
  length (prior state) = P -> length (gaps state) = P.
Proof. intros Hp. unfold gaps. rewrite map2_length; congruence. Qed.

(** X18.  The loop over a beam whose priors have the length [P >= 2] of the
    frame raises nothing and keeps [y] and [diffs] aligned: both grow by the
    same number of entries.  With a positive [min_diff] every difference
    added exceeds it; otherwise each hypothesis adds all [P] pitches. *)
Theorem collect_beam_aligned (beam : list (State H)) (y : list bool)
    (diffs : list R) :
  (2 <= P)%nat -> Forall (fun s => length (prior s) = P) beam ->
  exists new_y new_diffs,
    collect_beam H min_diff P gt_frame frame beam (y, diffs)
      = Ok (y ++ new_y, diffs ++ new_diffs) /\
    length new_y = length new_diffs /\
    (0 < min_diff -> Forall (fun v => min_diff < v) new_diffs) /\
    (min_diff <= 0 -> length new_diffs = (length beam * P)%nat).
Proof.
  intros HP Hb. unfold collect_beam. revert y diffs.
  induction Hb as [|s beam Hs _ IH]; intros y diffs; cbn [fold_left].
  - exists [], []. rewrite !app_nil_r. repeat split; intros; constructor.
  - rewrite bind_ok. destruct (Rlt_dec 0 min_diff) as [Hm|Hm].
    + rewrite (collect_state_far s y diffs Hm Hs).
      destruct (IH (y ++ select gt_frame (map (Rltb min_diff) (gaps s)))
                   (diffs ++ filter (Rltb min_diff) (gaps s)))
        as (ny & nd & E & Hl & Hf & _).
      exists (select gt_frame (map (Rltb min_diff) (gaps s)) ++ ny),
             (filter (Rltb min_diff) (gaps s) ++ nd).
      rewrite E, <- !app_assoc. split; [reflexivity|]. split; [|split].
      * rewrite !length_app, Hl. f_equal.
        rewrite <- (select_filter (Rltb min_diff) (gaps s)).
        apply select_length; rewrite length_map, (gaps_length s Hs);
          [exact gt_length | reflexivity].
      * intros _. apply Forall_app. split; [|now apply Hf].
        apply Forall_forall. intros v Hv. apply filter_In in Hv as [_ Hv].
        now apply Rltb_iff.
      * intros Hle. lra.
    + assert (Hle : min_diff <= 0) by lra.
      rewrite (collect_state_all s y diffs Hle ltac:(lia) Hs).
      destruct (IH (y ++ gt_frame) (diffs ++ gaps s))
        as (ny & nd & E & Hl & _ & Hc).
      exists (gt_frame ++ ny), (gaps s ++ nd).
      rewrite E, <- !app_assoc. split; [reflexivity|]. split; [|split].
      * rewrite !length_app, Hl, gt_length, (gaps_length s Hs). reflexivity.
      * intros Hm'. lra.
      * intros _. rewrite length_app, (Hc Hle), (gaps_length s Hs).
        simpl. lia.
Qed.

End WithHandle.

(** A frame, its ground truth and a hypothesis on two pitches. *)
Definition near_state : State unit := mkState (Fin 0) [] tt [1/2; 1/10].

Lemma collect_keeps_far_pitches_witness :
  collect_state unit (1/100) 2 [true; false] [9/10; 1/10] ([], []) near_state =
  Ok ([] ++ select [true; false]
               (map (Rltb (1/100)) (gaps unit [9/10; 1/10] near_state)),
      [] ++ filter (Rltb (1/100)) (gaps unit [9/10; 1/10] near_state)).
Proof.
  apply (collect_keeps_far_pitches unit (1/100) 2 [true; false] [9/10; 1/10]
           eq_refl eq_refl near_state [] []).
  - lra.
  - lia.
  - reflexivity.
Defined.

Lemma collect_keeps_all_pitches_witness :
  collect_state unit 0 2 [true; false] [9/10; 1/10] ([], []) near_state =
  Ok ([] ++ [true; false], [] ++ gaps unit [9/10; 1/10] near_state).
Proof.
  apply (collect_keeps_all_pitches unit 0 2 [true; false] [9/10; 1/10]
           eq_refl eq_refl near_state [] []).
  - lra.
  - lia.
  - reflexivity.
Defined.

Lemma collect_beam_aligned_witness :
  exists new_y new_diffs,
    collect_beam unit (1/100) 2 [true; false] [9/10; 1/10]
                 [near_state; near_state] ([], [])
      = Ok ([] ++ new_y, [] ++ new_diffs) /\
    length new_y = length new_diffs /\
    (0 < 1/100 -> Forall (fun v => 1/100 < v) new_diffs) /\
    (1/100 <= 0 ->
     length new_diffs = (length [near_state; near_state] * 2)%nat).
Proof.
  apply (collect_beam_aligned unit (1/100) 2 [true; false] [9/10; 1/10]
           eq_refl eq_refl [near_state; near_state] [] []).
  - lia.
  - repeat constructor.
Defined.

End CollectSpec.
(* ================================================================= *)
(** ** The frame loop of [get_weight_data]: further properties *)

Module BlendingMore.

Import NumPy Decode Beam Blending BlendingSpec.
Open Scope R_scope.

Section GroundTruth.

Variable H : Type.
Variable score : H -> list (list bool) -> H * list R.
Variable sampling_enumerate : list R -> nat -> list (npfloat * list nat).
Variable format_sample : list nat -> nat -> list bool.

Variables (branch_factor beam_size hash_length : nat) (gt_only : bool).
Variables (weight : R * R) (P : nat).

(** [zip] pairs the frames up to the end of the shorter input. *)
Lemma frames_zip (gt : list (list bool)) (acoustic : list (list R))
    (t : nat) (vs : vars H) :
  frames H score sampling_enumerate format_sample branch_factor beam_size
         hash_length gt_only weight P t gt acoustic vs =
  frames H score sampling_enumerate format_sample branch_factor beam_size
         hash_length gt_only weight P t
         (firstn (length acoustic) gt) (firstn (length gt) acoustic) vs.
Proof.
  revert acoustic t vs; induction gt as [|g gt IH]; intros [|a acoustic] t vs;
    try reflexivity.
  cbn [length firstn frames].
  destruct (frame_step _ _ _ _ _ _ _ _ _ _ _ _ _ _) as [vs'|e];
    [|reflexivity].
  cbn [bind]. apply IH.
Qed.

End GroundTruth.

Section Forced.

Variable H : Type.
Variable score : H -> list (list bool) -> H * list R.
Variable sampling_enumerate : list R -> nat -> list (npfloat * list nat).
Variable format_sample : list nat -> nat -> list bool.

Variables (branch_factor beam_size hash_length : nat).
Variables (weight : R * R) (P : nat).


End Forced.


End BlendingMore.
(* ================================================================= *)
(** ** The priority queue of the enumerator *)

Module QueueMore.

Import NumPy NumPyFacts Decode QueueFacts Run.

(** The queue and the counter [num] of [enumerate_samples] after the loop
    removed [k] entries (or fewer, when the queue ran empty). *)
Fixpoint queue_after (L_sorted : list npfloat) (k : nat) (q : list entry)
    (num : nat) : list entry * nat :=
  match k with
  | O => (q, num)
  | S k' =>
      match q_get q with
      | None => (q, num)
      | Some (e, q1) =>
          let '(q2, num2) := expand L_sorted e q1 num in
          queue_after L_sorted k' q2 num2
      end
  end.

(** The counter of an entry [(l, num, v)]. *)
Definition counter (e : entry) : nat := snd (fst e).

(** The counters in the queue are distinct and below the next counter. *)
Definition fresh (q : list entry) (num : nat) : Prop :=
  NoDup (map counter q) /\ Forall (fun c => (c < num)%nat) (map counter q).

Lemma fresh_perm (q q' : list entry) (num : nat) :
  Permutation q q' -> fresh q num -> fresh q' num.
Proof.
  intros Hp [Hn Hf]. split.
  - apply (Permutation_NoDup (Permutation_map counter Hp) Hn).
  - apply (Permutation_Forall (Permutation_map counter Hp) Hf).
Qed.

Lemma fresh_put (x : entry) (q : list entry) (num : nat) :
  counter x = num -> fresh q num -> fresh (q_put x q) (S num).
Proof.
  intros Hx [Hn Hf]. unfold q_put.
  apply (fresh_perm (x :: q)); [apply Permutation_cons_append|].
  split; cbn [map].
  - constructor; [|exact Hn]. rewrite Forall_forall in Hf.
    intros Hin. specialize (Hf _ Hin). lia.
  - constructor; [lia|]. eapply Forall_impl; [|exact Hf].
    intros c Hc. simpl in Hc. lia.
Qed.

Lemma fresh_expand (Ls : list npfloat) (e : entry) (q1 : list entry)
    (num : nat) :
  fresh q1 num ->
  fresh (fst (expand Ls e q1 num)) (snd (expand Ls e q1 num)).
Proof.
  intros Hq. unfold expand. destruct e as [[l n] v].
  destruct (np_max v + 1 <? length Ls)%nat; cbn [fst snd]; [|exact Hq].
  replace (num + 2)%nat with (S (S num)) by lia.
  apply fresh_put; [cbn; lia|]. apply fresh_put; [reflexivity | exact Hq].
Qed.

Lemma fresh_after (Ls : list npfloat) (k : nat) (q : list entry) (num : nat) :
  fresh q num ->
  fresh (fst (queue_after Ls k q num)) (snd (queue_after Ls k q num)).
Proof.
  revert q num; induction k as [|k IH]; intros q num Hq; cbn [queue_after];
    [exact Hq|].
  destruct (q_get q) as [[e q1]|] eqn:E; [|exact Hq].
  pose proof (fresh_perm _ _ _ (q_get_perm q e q1 E) Hq) as [Hn Hf].
  assert (H1 : fresh q1 num).
  { split; [now apply NoDup_cons_iff in Hn | now apply Forall_inv_tail in Hf]. }
  pose proof (fresh_expand Ls e q1 num H1) as H2.
  destruct (expand Ls e q1 num) as [q2 num2]. now apply IH.
Qed.

(** X20.  The counters [num] of the entries in the priority queue of
    [enumerate_samples] are pairwise distinct at every point of the loop,
    whatever the penalties are (equal, infinite or nan): the comparison of
    two entries [(l, num, v)] is always decided by [l] or by [num] and never
    reaches the arrays [v]. *)
Theorem queue_counters_distinct (L_sorted : list npfloat) (k : nat) :
  NoDup (map counter
             (fst (queue_after L_sorted k
                     [(at_ L_sorted 0, 0%nat, [0%nat])] 1))) /\
  forall x y,
    In x (fst (queue_after L_sorted k [(at_ L_sorted 0, 0%nat, [0%nat])] 1)) ->
    In y (fst (queue_after L_sorted k [(at_ L_sorted 0, 0%nat, [0%nat])] 1)) ->
    counter x = counter y -> x = y.
Proof.
  assert (H0 : fresh [(at_ L_sorted 0, 0%nat, [0%nat])] 1).
  { split; cbn; repeat constructor. intros []. }
  destruct (fresh_after L_sorted k _ 1 H0) as [Hn _].
  split; [exact Hn|].
  set (q := fst (queue_after L_sorted k _ 1)) in *. clearbody q.
  induction q as [|e q IH]; intros x y Hx Hy Exy; [destruct Hx|].
  cbn [map] in Hn. apply NoDup_cons_iff in Hn as [Hne Hn].
  destruct Hx as [<-|Hx], Hy as [<-|Hy]; try reflexivity.
  - exfalso. apply Hne. rewrite Exy. now apply in_map.
  - exfalso. apply Hne. rewrite <- Exy. now apply in_map.
  - now apply IH.
Qed.

End QueueMore.
